(** * mud: module dependency aggregation and descriptor synthesis

    A shallow embedding of [mud.go].  Go strings are byte strings and are
    modelled by [string] (a list of 8-bit [ascii] values); Go maps are
    modelled by finite maps and sets; pointers to [Module] records are
    addresses into an explicit heap; [panic] and [os.Exit] are results of
    a small error monad. *)

From Stdlib Require Import ZArith Ascii String Lia.
From stdpp Require Import base option list strings gmap sorting.

Local Open Scope Z_scope.
Set Warnings "-register-all".

(** ** Go's [strings] package, on byte strings *)

Module strings.

(** [strings.IndexByte]: index of the first [c] in [s], or [-1]. *)
Fixpoint IndexByte (s : string) (c : ascii) : Z :=
  match s with
  | EmptyString => -1
  | String a t =>
      if Ascii.eqb a c then 0
      else let i := IndexByte t c in
           if i =? -1 then -1 else i + 1
  end.

(** The slice expression [s[:n]]. *)
Fixpoint slice_to (s : string) (n : nat) {struct n} : string :=
  match n, s with
  | S k, String a t => String a (slice_to t k)
  | _, _ => EmptyString
  end.

(** The slice expression [s[n:]]. *)
Fixpoint slice_from (s : string) (n : nat) {struct n} : string :=
  match n, s with
  | S k, String _ t => slice_from t k
  | _, _ => s
  end.

Fixpoint HasPrefix (s prefix : string) {struct prefix} : bool :=
  match prefix, s with
  | EmptyString, _ => true
  | String p ps, String a t => Ascii.eqb a p && HasPrefix t ps
  | String _ _, EmptyString => false
  end.

(** [len(s) >= len(suffix) && s[len(s)-len(suffix):] == suffix] *)
Definition HasSuffix (s suffix : string) : bool :=
  (String.length suffix <=? String.length s)%nat
  && String.eqb (slice_from s (String.length s - String.length suffix)) suffix.

Definition TrimPrefix (s prefix : string) : string :=
  if HasPrefix s prefix then slice_from s (String.length prefix) else s.

(** [strings.Split(s, "/")] for a one-byte separator: every separator
    byte ends a field; the empty string yields one empty field. *)
Fixpoint Split (s : string) (sep : ascii) : list string :=
  match s with
  | EmptyString => [EmptyString]
  | String a t =>
      if Ascii.eqb a sep then EmptyString :: Split t sep
      else match Split t sep with
           | h :: r => String a h :: r
           | [] => [String a EmptyString]
           end
  end.

Fixpoint Join (elems : list string) (sep : string) : string :=
  match elems with
  | [] => EmptyString
  | [e] => e
  | e :: rest => e +:+ sep +:+ Join rest sep
  end.

(** Byte membership, used to state properties of the functions above. *)
Fixpoint Contains (s : string) (c : ascii) : bool :=
  match s with
  | EmptyString => false
  | String a t => Ascii.eqb a c || Contains t c
  end.

End strings.

(** ** The loader's data: [packages.Module] and [packages.Package] *)

Abbreviation Path := string (only parsing).

Module packages.

(** [packages.Module]; only the fields the program reads. [Replace] is a
    pointer to another [packages.Module], [Error] a pointer to a
    [ModuleError] whose [Err] string is kept. *)
Inductive ModuleInfo : Type := mkModuleInfo {
  Path : string;
  Version : string;
  Replace : option ModuleInfo;
  Dir : string;
  Error : option string
}.

(** [packages.Package]. [Imports] is a [map[string]*Package]; it is kept
    as the list of its entries in the order in which one [range] over it
    yields them. [Errors] keeps the message of each [packages.Error]. *)
Inductive Package : Type := mkPackage {
  Name : string;
  PkgPath : string;
  Errors : list string;
  Module_ : option ModuleInfo;
  Imports : list (string * Package)
}.

End packages.

Import packages(Package, ModuleInfo).

(** ** The Builtin Classifier *)

Definition isBuiltin (pkg : Package) : bool :=
  let importPath := packages.PkgPath pkg in
  let i := strings.IndexByte importPath "/" in
  let importPath :=
    if negb (i =? -1) then strings.slice_to importPath (Z.to_nat i)
    else importPath in
  strings.IndexByte importPath "." =? -1.

(** The classifier as the specification words it: the first segment of a
    path is what precedes its first separator, or the whole path. *)
Definition FirstSegment (p seg : string) : Prop :=
  strings.Contains seg "/" = false
  ∧ (p = seg ∨ ∃ rest, p = seg +:+ String "/" rest).

Fixpoint first_segment (p : string) : string :=
  match p with
  | EmptyString => EmptyString
  | String a t => if Ascii.eqb a "/" then EmptyString else String a (first_segment t)
  end.

(** ** Regular expressions, as far as [nixIdentRe] needs them

    Go's [regexp] matches runes; every byte of a multi-byte or invalid
    UTF-8 sequence decodes to a rune of 128 or more, which none of the
    classes below contains, so matching byte by byte decides the same
    strings. *)

Module regexp.

Inductive Regexp : Type :=
| Empty                                   (* matches nothing *)
| Eps                                     (* matches the empty string *)
| Class (ranges : list (ascii * ascii))   (* [lo-hi...] *)
| Cat (r1 r2 : Regexp)
| Alt (r1 r2 : Regexp)
| Star (r : Regexp).

Definition in_range (c : ascii) (r : ascii * ascii) : bool :=
  (nat_of_ascii (fst r) <=? nat_of_ascii c)%nat
  && (nat_of_ascii c <=? nat_of_ascii (snd r))%nat.

Definition in_class (ranges : list (ascii * ascii)) (c : ascii) : bool :=
  existsb (in_range c) ranges.

Fixpoint nullable (r : Regexp) : bool :=
  match r with
  | Empty => false
  | Eps => true
  | Class _ => false
  | Cat r1 r2 => nullable r1 && nullable r2
  | Alt r1 r2 => nullable r1 || nullable r2
  | Star _ => true
  end.

(** Brzozowski derivative of [r] by the byte [c]. *)
Fixpoint deriv (r : Regexp) (c : ascii) : Regexp :=
  match r with
  | Empty => Empty
  | Eps => Empty
  | Class rs => if in_class rs c then Eps else Empty
  | Cat r1 r2 =>
      if nullable r1 then Alt (Cat (deriv r1 c) r2) (deriv r2 c)
      else Cat (deriv r1 c) r2
  | Alt r1 r2 => Alt (deriv r1 c) (deriv r2 c)
  | Star r1 => Cat (deriv r1 c) (Star r1)
  end.

(** [MatchString] for an expression anchored as [^r$]: the whole string
    must be matched. *)
Fixpoint MatchString (r : Regexp) (s : string) : bool :=
  match s with
  | EmptyString => nullable r
  | String c t => MatchString (deriv r c) t
  end.

End regexp.

(** [^[a-zA-Z\_][a-zA-Z0-9\_\'\-]*$] *)
Definition nixIdentRe : regexp.Regexp :=
  regexp.Cat
    (regexp.Class [("a", "z"); ("A", "Z"); ("_", "_")]%char)
    (regexp.Star
       (regexp.Class [("a", "z"); ("A", "Z"); ("0", "9");
                      ("_", "_"); ("'", "'"); ("-", "-")]%char)).

Definition nixKeyword : gmap string bool :=
  list_to_map
    [("if", true); ("then", true); ("else", true); ("assert", true);
     ("with", true); ("let", true); ("in", true); ("rec", true);
     ("inherit", true); ("or", true)].

(** Indexing a [map[string]bool]: a missing key reads as [false]. *)
Definition nixKeyword_at (name : string) : bool :=
  default false (nixKeyword !! name).

(** ** [fmt.Sprintf("%q", s)], that is [strconv.Quote] *)

Module strconv.

Definition byte (c : ascii) : Z := Z.of_N (N_of_ascii c).

(** The double quote character, byte 34. *)
Definition dquote : ascii := "034"%char.

Definition lowerhex (n : Z) : ascii :=
  match String.get (Z.to_nat n) "0123456789abcdef" with
  | Some c => c
  | None => "0"%char
  end.

(** [n] hexadecimal digits of [r], most significant first. *)
Fixpoint hex (n : nat) (r : Z) : string :=
  match n with
  | O => EmptyString
  | S k => String (lowerhex (Z.land (Z.shiftr r (4 * Z.of_nat k)) 15)) (hex k r)
  end.

(** What [utf8.DecodeRuneInString] finds at the head of a string. *)
Inductive Decoded : Type :=
| Invalid                              (* (RuneError, 1) *)
| Rune (r : Z) (raw : string) (rest : string).

Definition cont (lo hi : Z) (c : ascii) : bool :=
  (lo <=? byte c) && (byte c <=? hi).

Definition decode (c0 : ascii) (t : string) : Decoded :=
  let b0 := byte c0 in
  if b0 <? 128 then Rune b0 (String c0 EmptyString) t
  else if (b0 <? 194) || (244 <? b0) then Invalid
  else if b0 <? 224 then
    match t with
    | String c1 t1 =>
        if cont 128 191 c1
        then Rune (Z.lor (Z.shiftl (Z.land b0 31) 6) (Z.land (byte c1) 63))
                  (String c0 (String c1 EmptyString)) t1
        else Invalid
    | _ => Invalid
    end
  else if b0 <? 240 then
    let lo := if b0 =? 224 then 160 else 128 in
    let hi := if b0 =? 237 then 159 else 191 in
    match t with
    | String c1 (String c2 t2) =>
        if cont lo hi c1 && cont 128 191 c2
        then Rune (Z.lor (Z.lor (Z.shiftl (Z.land b0 15) 12)
                                (Z.shiftl (Z.land (byte c1) 63) 6))
                         (Z.land (byte c2) 63))
                  (String c0 (String c1 (String c2 EmptyString))) t2
        else Invalid
    | _ => Invalid
    end
  else
    let lo := if b0 =? 240 then 144 else 128 in
    let hi := if b0 =? 244 then 143 else 191 in
    match t with
    | String c1 (String c2 (String c3 t3)) =>
        if cont lo hi c1 && cont 128 191 c2 && cont 128 191 c3
        then Rune (Z.lor (Z.lor (Z.lor (Z.shiftl (Z.land b0 7) 18)
                                       (Z.shiftl (Z.land (byte c1) 63) 12))
                                (Z.shiftl (Z.land (byte c2) 63) 6))
                         (Z.land (byte c3) 63))
                  (String c0 (String c1 (String c2 (String c3 EmptyString)))) t3
        else Invalid
    | _ => Invalid
    end.

Section Quote.

(** [strconv.IsPrint] consults Unicode tables for runes above U+00FF; the
    tables are a parameter. *)
Variable isPrintWide : Z → bool.

Definition IsPrint (r : Z) : bool :=
  if r <=? 255 then
    ((32 <=? r) && (r <? 127)) || ((161 <=? r) && negb (r =? 173))
  else isPrintWide r.

(** [appendEscapedRune] with the double quote as delimiter; [raw] is the
    UTF-8 encoding of [r]. *)
Definition escapedRune (r : Z) (raw : string) : string :=
  if (r =? 34) || (r =? 92) then String "\" raw
  else if IsPrint r then raw
  else if r =? 7 then "\a"
  else if r =? 8 then "\b"
  else if r =? 12 then "\f"
  else if r =? 10 then "\n"
  else if r =? 13 then "\r"
  else if r =? 9 then "\t"
  else if r =? 11 then "\v"
  else if (r <? 32) || (r =? 127) then "\x" +:+ hex 2 r
  else if r <? 65536 then "\u" +:+ hex 4 r
  else "\U" +:+ hex 8 r.

(** The body of the quoting loop; [n] bounds the number of runes, and the
    length of the string is enough (see [escape_enough]). *)
Fixpoint escape (n : nat) (s : string) : string :=
  match n, s with
  | S k, String c0 t =>
      match decode c0 t with
      | Invalid => "\x" +:+ hex 2 (byte c0) +:+ escape k t
      | Rune r raw rest => escapedRune r raw +:+ escape k rest
      end
  | _, _ => EmptyString
  end.

Definition Quote (s : string) : string :=
  String dquote (escape (String.length s) s) +:+ String dquote EmptyString.

End Quote.

End strconv.

(** ** Attribute paths *)

Section NixAttr.

Variable isPrintWide : Z → bool.

Definition quoteName (name : string) : string :=
  if negb (regexp.MatchString nixIdentRe name) || nixKeyword_at name
  then strconv.Quote isPrintWide name
  else name.

Definition NixAttr (p : Path) : string :=
  let names := strings.Split p "/" in
  strings.Join (quoteName <$> names) ".".

End NixAttr.

(** ** Failures

    [panic] and [os.Exit] end the run; a computation either returns a
    value or one of these. *)

Inductive Failure : Type :=
| PanicPkgErrors (errs : list string)   (* panic(err), err from pkgErrors *)
| PanicError (msg : string)             (* panic(fmt.Errorf(...)) *)
| PanicNilDereference                   (* runtime error: nil pointer *)
| PanicIO (err : string)                (* panic(err) of an I/O error *)
| Exit1 (stderr : string)               (* diagnostic, then os.Exit(1) *)
| Unallocated.                          (* an address outside the heap:
                                           impossible in Go, and never
                                           the outcome of a run, see
                                           [emitAll_never_unallocated] *)

Inductive Result (A : Type) : Type :=
| Ok (a : A)
| Fail (f : Failure).
Arguments Ok {A} a.
Arguments Fail {A} f.

Definition bind {A B} (r : Result A) (k : A → Result B) : Result B :=
  match r with
  | Ok a => k a
  | Fail f => Fail f
  end.

Notation "x <~ r ;; k" := (bind r (fun x => k))
  (at level 100, r at next level, right associativity, only parsing).

(** ** Module records *)

Abbreviation PackageSet := (gset string).

Module PackageSet.

(** [s[p] = struct{}{}] *)
Definition Add (s : gset string) (p : Path) : gset string := {[ p ]} ∪ s.

End PackageSet.

Module Mod.

(** The program's [Module] struct. [Deps] is keyed by [*Module], here the
    address of the record in the heap. *)
Record t : Type := mk {
  Path : string;
  Version : string;
  Dir : string;
  ReplacePath : string;
  Deps : gmap nat (gset string)
}.

Definition setVersion (v : string) (m : t) : t :=
  mk (Path m) v (Dir m) (ReplacePath m) (Deps m).

Definition setReplacePath (r : string) (m : t) : t :=
  mk (Path m) (Version m) (Dir m) r (Deps m).

Definition setDeps (d : gmap nat (gset string)) (m : t) : t :=
  mk (Path m) (Version m) (Dir m) (ReplacePath m) d.

(** [m.Dep(d)]: the set stored under [d], created empty when the key is
    missing ([m.Deps[d]] reads as the nil map then). Returns the record
    after the possible store together with the set. *)
Definition Dep (m : t) (d : nat) : t * gset string :=
  match Deps m !! d with
  | Some pkgs => (m, pkgs)
  | None => (setDeps (<[d := ∅]> (Deps m)) m, ∅)
  end.

(** [m.Dep(d).Add(p)]: the set returned by [Dep] is the very map stored
    under [m.Deps[d]], so adding to it updates that entry. *)
Definition DepAdd (m : t) (d : nat) (p : string) : t :=
  let '(m1, depSet) := Dep m d in
  setDeps (<[d := PackageSet.Add depSet p]> (Deps m1)) m1.

Definition IsExternal (m : t) : bool :=
  negb (strings.HasPrefix (Path m) "example.com/").

End Mod.

(** The registry [modules : map[Path]*Module] together with the heap the
    pointers point into. A record is allocated at the end of the heap and
    is never moved or freed. *)
Record Registry : Type := mkRegistry {
  modules : gmap string nat;
  heap : list Mod.t
}.

Definition emptyRegistry : Registry := mkRegistry ∅ [].

(** ** The Module Aggregator: the [post] callback of [packages.Visit] *)

(** [pkgErrors]: the accumulated errors; the empty list is the nil error. *)
Definition pkgErrors (pkg : Package) : list string :=
  packages.Errors pkg
  ++ match packages.Module_ pkg with
     | Some m => match packages.Error m with
                 | Some e => [e]
                 | None => []
                 end
     | None => []
     end.

(** The record built on the first visit of a module (mud.go, 119-131). *)
Definition newModule (pm : ModuleInfo) : Mod.t :=
  let mod_ := Mod.mk (packages.Path pm) (packages.Version pm)
                    (packages.Dir pm) EmptyString ∅ in
  let mod_ :=
    match packages.Replace pm with
    | Some r =>
        Mod.setVersion (packages.Version r)
          (Mod.setReplacePath (packages.Path r) mod_)
    | None => mod_
    end in
  Mod.setVersion (strings.TrimPrefix (Mod.Version mod_) "v") mod_.

(** [mod := modules[Path(pkg.Module.Path)]], creating and registering the
    record when the lookup yields nil. *)
Definition resolveModule (pm : ModuleInfo) (st : Registry) : nat * Registry :=
  match modules st !! packages.Path pm with
  | Some a => (a, st)
  | None =>
      let mod_ := newModule pm in
      let a := length (heap st) in
      (a, mkRegistry (<[Mod.Path mod_ := a]> (modules st)) (heap st ++ [mod_]))
  end.

(** One iteration of the loop over [pkg.Imports] (mud.go, 136-146). *)
Definition addImport (mod_ : nat) (dep : Package) (st : Registry) : Result Registry :=
  if isBuiltin dep then Ok st
  else
    match packages.Module_ dep with
    | None => Fail PanicNilDereference            (* dep.Module.Path *)
    | Some dm =>
        match modules st !! packages.Path dm with
        | None => Fail PanicNilDereference        (* depMod.Path *)
        | Some depMod =>
            match heap st !! depMod, heap st !! mod_ with
            | Some d, Some m =>
                if String.eqb (Mod.Path d) (Mod.Path m) then Ok st
                else
                  Ok (mkRegistry (modules st)
                        (<[mod_ := Mod.DepAdd m depMod (packages.PkgPath dep)]>
                           (heap st)))
            | _, _ => Fail Unallocated
            end
        end
    end.

Fixpoint importLoop (mod_ : nat) (imports : list (string * Package))
    (st : Registry) : Result Registry :=
  match imports with
  | [] => Ok st
  | (_, dep) :: rest =>
      st' <~ addImport mod_ dep st ;;
      importLoop mod_ rest st'
  end.

Definition post (pkg : Package) (st : Registry) : Result Registry :=
  if isBuiltin pkg then Ok st
  else
    match pkgErrors pkg with
    | (_ :: _) as errs => Fail (PanicPkgErrors errs)
    | [] =>
        match packages.Module_ pkg with
        | None =>
            if String.eqb (packages.Name pkg) "main"
               && strings.HasSuffix (packages.PkgPath pkg) ".test"
            then Ok st
            else if strings.HasSuffix (packages.PkgPath pkg) "_test"
            then Ok st
            else Fail (PanicError ("package without a module: "
                                   +:+ packages.PkgPath pkg))
        | Some pm =>
            let '(mod_, st1) := resolveModule pm st in
            importLoop mod_ (packages.Imports pkg) st1
        end
    end.

(** [packages.Visit] calls [post] once for every package it reaches;
    [visited] lists those packages in the order of the calls. *)
Fixpoint walk (visited : list Package) (st : Registry) : Result Registry :=
  match visited with
  | [] => Ok st
  | pkg :: rest =>
      st' <~ post pkg st ;;
      walk rest st'
  end.

(** ** Ordering of paths *)

(** [sortPaths] sorts with [xs[i] < xs[j]], the byte-wise lexicographic
    order of Go strings. [String.le] is that order and is total and
    antisymmetric, so the sorted arrangement of a list is unique (see
    [sortPaths_unique]) and any sorting algorithm computes it; merge sort
    stands for [sort.Slice]. *)
Definition sortPaths (xs : list Path) : list Path := merge_sort String.le xs.

(** Go ranges over a map in an unspecified order. A [RangeOrder] picks,
    for the list of entries of a map, the order in which one [range]
    statement yields them. *)
Record RangeOrder : Type := mkRangeOrder {
  range : ∀ A : Type, list A → list A;
  range_Permutation : ∀ (A : Type) (l : list A), range A l ≡ₚ l
}.
Arguments range _ {A} _.

(** ** [path.Clean] and [path.Join] (imported as [slashpath]) *)

Module slashpath.

(** One name of the path against the names kept so far, innermost first:
    empty names and [.] are dropped, [..] removes the name before it, is
    dropped at the root and is kept where nothing can be removed. *)
Definition cleanStep (rooted : bool) (out : list string) (name : string) : list string :=
  if String.eqb name "" || String.eqb name "." then out
  else if String.eqb name ".." then
    match out with
    | top :: below => if String.eqb top ".." then name :: out else below
    | [] => if rooted then [] else [name]
    end
  else name :: out.

Definition Clean (path : string) : string :=
  if String.eqb path "" then "."
  else
    let rooted := strings.HasPrefix path "/" in
    let out := fold_left (cleanStep rooted) (strings.Split path "/") [] in
    let body := strings.Join (reverse out) "/" in
    if rooted then String "/" body
    else if String.eqb body "" then "." else body.

(** The buffer [Join] builds before cleaning it: the elements separated
    by slashes, leading empty elements ignored. *)
Fixpoint joinBuf (buf : string) (elem : list string) : string :=
  match elem with
  | [] => buf
  | e :: rest =>
      if negb (String.eqb buf "") then joinBuf (buf +:+ String "/" e) rest
      else if negb (String.eqb e "") then joinBuf (buf +:+ e) rest
      else joinBuf buf rest
  end.

Definition Join (elem : list string) : string :=
  if (fold_right (λ e n, String.length e + n) 0 elem =? 0)%nat then ""
  else Clean (joinBuf "" elem).

End slashpath.

(** ** The outside world during emission *)

Inductive Event : Type :=
| Hashed (dir : string)               (* the tree at [dir] was read and hashed *)
| Wrote (dir name data : string).     (* [writeFile] put [data] at [dir/name] *)

(** An emission step runs against the events so far and either returns a
    value or fails, leaving the events that happened. *)
Definition IO (A : Type) : Type := list Event → Result A * list Event.

Definition ret {A} (a : A) : IO A := λ tr, (Ok a, tr).
Definition fail {A} (f : Failure) : IO A := λ tr, (Fail f, tr).
Definition emit (e : Event) : IO unit := λ tr, (Ok tt, tr ++ [e]).
Definition iobind {A B} (c : IO A) (k : A → IO B) : IO B :=
  λ tr, match c tr with
        | (Ok a, tr') => k a tr'
        | (Fail f, tr') => (Fail f, tr')
        end.

Notation "x <~~ c ;; k" := (iobind c (fun x => k))
  (at level 100, c at next level, right associativity, only parsing).

(** ** The Descriptor Synthesizer *)

Definition nl : string := String "010" EmptyString.
Definition dq : string := String strconv.dquote EmptyString.

Section Synthesizer.

(** The collaborators of the synthesizer: the Unicode tables behind [%q],
    the content hash of a directory ([archive.CopyPath] into
    [archive.WriteDump] of a SHA-256, then [base32.Encode]; [inr] is the
    error of [CopyPath]), the outcome of [writeFile] ([Some] is its
    error), and the order of every [range] over a map. *)
Variable isPrintWide : Z → bool.
Variable hashDir : string → string + string.
Variable writeError : string → string → string → option string.
Variable ro : RangeOrder.

(** [m.Imports()] *)
Definition Imports (m : Mod.t) : list Path :=
  let imports :=
    range ro (map_to_list (Mod.Deps m))
      ≫= (λ dep : nat * gset string, range ro (elements (snd dep))) in
  sortPaths imports.

(** [m.ModSHA256()] *)
Definition ModSHA256 (m : Mod.t) : IO string :=
  if String.eqb (Mod.Dir m) "" then
    fail (PanicError ("module without a dir: " +:+ Mod.Path m))
  else
    _ <~~ emit (Hashed (Mod.Dir m)) ;;
    match hashDir (Mod.Dir m) with
    | inl digest => ret digest
    | inr err => fail (PanicIO err)
    end.

(** The text the template produces from its four actions. *)
Definition render (path version sha256 : string) (imports : list Path) : string :=
  "# generator //tools/mud (DO NOT EDIT)" +:+ nl +:+
  "{ platform, pkgs, ... }:" +:+ nl +:+
  nl +:+
  "platform.buildGo.external rec {" +:+ nl +:+
  "  path = " +:+ dq +:+ path +:+ dq +:+ ";" +:+ nl +:+
  "  src = platform.lib.fetchGoModule {" +:+ nl +:+
  "    inherit path;" +:+ nl +:+
  "    version = " +:+ dq +:+ version +:+ dq +:+ ";" +:+ nl +:+
  "    sha256 = " +:+ dq +:+ sha256 +:+ dq +:+ ";" +:+ nl +:+
  "  };" +:+
  match imports with
  | [] => ""
  | _ :: _ =>
      nl +:+ "  deps = with platform.third_party; [" +:+
      foldr (λ p acc, nl +:+ "    gopkgs." +:+ NixAttr isPrintWide p +:+ acc)
            "" imports +:+
      nl +:+ "  ];"
  end +:+
  nl +:+ "}" +:+ nl.

(** [tmpl.Execute(&buffer, mod)]: the actions run in template order, and
    only [.ModSHA256] can fail. Its panic ends the run whether it passes
    through [Execute] or comes back as the error that [main] panics with;
    the buffer filled so far is dropped with it. *)
Definition Execute (m : Mod.t) : IO string :=
  sha <~~ ModSHA256 m ;;
  ret (render (Mod.Path m) (Mod.Version m) sha (Imports m)).

Definition writeFile (dir name data : string) : IO unit :=
  match writeError dir name data with
  | Some err => fail (PanicIO err)
  | None => emit (Wrote dir name data)
  end.

(** The body of the loop over the sorted paths (mud.go, 159-186). *)
Definition emitModule (m : Mod.t) : IO unit :=
  if negb (Mod.IsExternal m) then ret tt
  else
    let outDir := slashpath.Join ["third_party/gopkgs"; Mod.Path m] in
    if negb (String.eqb (Mod.ReplacePath m) "")
       && strings.HasPrefix (Mod.ReplacePath m) "."
    then
      if negb (String.eqb (Mod.ReplacePath m) ("./" +:+ outDir))
      then fail (Exit1 ("replace points at //" +:+ Mod.ReplacePath m
                        +:+ ", expected it to point at //" +:+ outDir +:+ nl))
      else ret tt
    else
      data <~~ Execute m ;;
      writeFile outDir "default.nix" data.

Fixpoint emitLoop (st : Registry) (paths : list Path) : IO unit :=
  match paths with
  | [] => ret tt
  | path :: rest =>
      match modules st !! path ≫= (λ a, heap st !! a) with
      | None => fail Unallocated
      | Some m =>
          _ <~~ emitModule m ;;
          emitLoop st rest
      end
  end.

(** The paths of the registry, collected by a [range] and sorted. *)
Definition sortedPaths (st : Registry) : list Path :=
  sortPaths (range ro ((map_to_list (modules st)).*1)).

Definition emitAll (st : Registry) : IO unit :=
  emitLoop st (sortedPaths st).

(** The program from the loaded graph on: the walk, then the emission. *)
Definition run (visited : list Package) : Result unit * list Event :=
  match walk visited emptyRegistry with
  | Ok st => emitAll st []
  | Fail f => (Fail f, [])
  end.

End Synthesizer.

(** ** Vocabulary of the specification *)

(** *** Identifiers and keywords, as the specification describes them *)

Definition isLetter (c : ascii) : bool :=
  let n := nat_of_ascii c in
  ((97 <=? n) && (n <=? 122))%nat || ((65 <=? n) && (n <=? 90))%nat.

Definition isDigit (c : ascii) : bool :=
  let n := nat_of_ascii c in ((48 <=? n) && (n <=? 57))%nat.

Definition identStart (c : ascii) : bool :=
  isLetter c || Ascii.eqb c "_".

Definition identRest (c : ascii) : bool :=
  isLetter c || isDigit c || Ascii.eqb c "_" || Ascii.eqb c "'" || Ascii.eqb c "-".

Fixpoint allBytes (f : ascii → bool) (s : string) : bool :=
  match s with
  | EmptyString => true
  | String c t => f c && allBytes f t
  end.

(** A valid bare identifier: a letter or underscore, then letters, digits,
    underscores, apostrophes and hyphens. *)
Definition isBareIdent (s : string) : bool :=
  match s with
  | EmptyString => false
  | String c t => identStart c && allBytes identRest t
  end.

Definition reservedKeywords : list string :=
  ["if"; "then"; "else"; "assert"; "with"; "let"; "in"; "rec"; "inherit"; "or"].

Definition isReserved (s : string) : bool := bool_decide (s ∈ reservedKeywords).

(** Bytes that [%q] copies unchanged: printable ASCII other than the
    double quote and the backslash. *)
Definition plainByte (c : ascii) : bool :=
  let b := strconv.byte c in
  (32 <=? b) && (b <? 127) && negb (b =? 34) && negb (b =? 92).

(** A segment is rendered bare when it is a valid identifier that is not
    reserved, and quoted otherwise. *)
Definition renderSegment (isPrintWide : Z → bool) (seg : string) : string :=
  if isBareIdent seg && negb (isReserved seg) then seg
  else strconv.Quote isPrintWide seg.

(** *** The conventional vendoring location *)

Definition vendorPath (modulePath : string) : string :=
  "./third_party/gopkgs/" +:+ modulePath.

(** A module path as the Go tool chain accepts them: slash-separated
    names, none of them empty, [.] or [..]. *)
Definition cleanName (name : string) : bool :=
  negb (String.eqb name "" || String.eqb name "." || String.eqb name "..").

Definition isCleanPath (p : string) : bool :=
  forallb cleanName (strings.Split p "/").

(** A replace path is local when it begins with a dot. *)
Definition isLocalReplace (m : Mod.t) : bool :=
  negb (String.eqb (Mod.ReplacePath m) "")
  && strings.HasPrefix (Mod.ReplacePath m) ".".

(** *** Invariants of the registry *)

(** No module is a key of its own dependency map. *)
Definition NoSelfEdge (st : Registry) : Prop :=
  ∀ a m, heap st !! a = Some m → Mod.Deps m !! a = None.

(** Every registered path leads to a record carrying that path, and every
    record is registered under its path at its own address. *)
Definition WellFormed (st : Registry) : Prop :=
  (∀ p a, modules st !! p = Some a →
          ∃ m, heap st !! a = Some m ∧ Mod.Path m = p)
  ∧ (∀ a m, heap st !! a = Some m → modules st !! Mod.Path m = Some a).

(** *** What a visited package contributes *)

(** The module a visited package is filed under, if the walk files it. *)
Definition pkgModule (pkg : Package) : option ModuleInfo :=
  if isBuiltin pkg then None else packages.Module_ pkg.

(** The module and package path an import leads to, builtins apart. *)
Definition edgeTo (dep : Package) : option (string * string) :=
  if isBuiltin dep then None
  else (λ dm, (packages.Path dm, packages.PkgPath dep)) <$> packages.Module_ dep.

(** The dependency edges (importer module, imported module, imported
    package) that the imports of a package of module [p] give rise to. *)
Definition edgesFrom (p : string) (imports : list (string * Package))
    : list (string * string * string) :=
  imports ≫= (λ kd : string * Package,
                match edgeTo (snd kd) with
                | Some (q, x) => if decide (q = p) then [] else [(p, q, x)]
                | None => []
                end).

Definition modulesOf (visited : list Package) : list ModuleInfo :=
  omap pkgModule visited.

Definition edgesOf (visited : list Package) : list (string * string * string) :=
  visited ≫= (λ pkg, match pkgModule pkg with
                     | Some pm => edgesFrom (packages.Path pm) (packages.Imports pkg)
                     | None => []
                     end).

(** The fields of a record other than its dependencies. *)
Definition metaOf (m : Mod.t) : string * string * string * string :=
  (Mod.Path m, Mod.Version m, Mod.Dir m, Mod.ReplacePath m).

(** The registry holds exactly what a set of module records and edges
    says it should. *)
Record Represents (reg : list ModuleInfo) (done : list (string * string * string))
    (st : Registry) : Prop := mkRepresents {
  rep_wf : WellFormed st;
  rep_dom : ∀ p, is_Some (modules st !! p) ↔ ∃ pm, pm ∈ reg ∧ packages.Path pm = p;
  rep_meta : ∀ a m, heap st !! a = Some m →
               ∃ pm, pm ∈ reg ∧ metaOf m = metaOf (newModule pm);
  rep_keys : ∀ a m b s, heap st !! a = Some m → Mod.Deps m !! b = Some s →
               is_Some (heap st !! b);
  rep_edges : ∀ p q x,
      (p, q, x) ∈ done
      ↔ ∃ a m b d s, heap st !! a = Some m ∧ Mod.Path m = p
                     ∧ Mod.Deps m !! b = Some s ∧ x ∈ s
                     ∧ heap st !! b = Some d ∧ Mod.Path d = q
}.

(** The path of the record at an address. *)
Definition pathAt (st : Registry) (b : nat) : string :=
  match heap st !! b with
  | Some d => Mod.Path d
  | None => ""
  end.

(** The dependencies of a record as pairs of the path of the module
    depended on and the package taken from it. *)
Definition depPairs (st : Registry) (m : Mod.t) : list (string * string) :=
  map_to_list (Mod.Deps m)
    ≫= (λ dep : nat * gset string, (λ x, (pathAt st (fst dep), x)) <$> elements (snd dep)).

(** Every import of a package that the walk files leads to a builtin, or
    to a package with a module that is the package's own or is already
    registered. *)
Definition importsResolved (st : Registry) (pkg : Package) : bool :=
  match pkgModule pkg with
  | None => true
  | Some pm =>
      forallb (λ kd : string * Package,
                 isBuiltin (snd kd)
                 || match packages.Module_ (snd kd) with
                    | Some dm =>
                        String.eqb (packages.Path dm) (packages.Path pm)
                        || bool_decide (is_Some (modules st !! packages.Path dm))
                    | None => false
                    end)
              (packages.Imports pkg)
  end.

(** *** Two traversals of one graph *)

(** The same package, its import map ranged over in another order. *)
Definition reorderedImports (p q : Package) : Prop :=
  packages.Name p = packages.Name q
  ∧ packages.PkgPath p = packages.PkgPath q
  ∧ packages.Errors p = packages.Errors q
  ∧ packages.Module_ p = packages.Module_ q
  ∧ packages.Imports p ≡ₚ packages.Imports q.

(** Two visiting orders of the same packages. *)
Definition sameGraph (v1 v2 : list Package) : Prop :=
  ∃ v, Forall2 reorderedImports v1 v ∧ v ≡ₚ v2.

(** The loader describes a module identically on each of its packages,
    as far as the record built from the description goes. *)
Definition ModulesAgree (visited : list Package) : Prop :=
  ∀ pm qm, pm ∈ modulesOf visited → qm ∈ modulesOf visited →
           packages.Path pm = packages.Path qm →
           metaOf (newModule pm) = metaOf (newModule qm).

(** *** Counting *)

Definition occurrences (p : string) (l : list string) : nat :=
  length (filter (λ x, x = p) l).

(** [n] imports of the package [p] of module [d] by packages of [m]. *)
Definition addTimes (n : nat) (m : Mod.t) (d : nat) (p : string) : Mod.t :=
  Nat.iter n (λ m, Mod.DepAdd m d p) m.

(** ** Sample data *)

Module sample.

(** The environment of a run in which hashing and writing succeed and
    every map is ranged over in the order of its entries. *)
Definition isPrintWide (r : Z) : bool := false.
Definition hashDir (dir : string) : string + string := inl ("sha256-of:" +:+ dir).
Definition writeError (dir name data : string) : option string := None.
Definition inOrder : RangeOrder := mkRangeOrder (λ A l, l) (λ A l, reflexivity l).
Definition reversed : RangeOrder :=
  mkRangeOrder (λ A l, reverse l) (λ A l, reverse_Permutation l).

Definition moduleInfo (path version dir : string) : ModuleInfo :=
  packages.mkModuleInfo path version None dir None.

(** A module-less package whose path ends in [.test] and whose name is
    not [main]. *)
Definition oddTest : Package :=
  packages.mkPackage "x" "a.example/x.test" [] None [].

(** The synthetic test binary of a package, without a module. *)
Definition testMain : Package :=
  packages.mkPackage "main" "alpha.example/foo/a.test" [] None [].

(** A module replaced by another module, not by a local directory. *)
Definition forked : ModuleInfo :=
  packages.mkModuleInfo "alpha.example/foo" "v0.1.0"
    (Some (packages.mkModuleInfo "fork.example/foo" "v0.2.0" None
             "/gomod/fork.example/foo@v0.2.0" None))
    "/gomod/fork.example/foo@v0.2.0" None.

Definition forkedPkg : Package :=
  packages.mkPackage "foo" "alpha.example/foo" [] (Some forked) [].

(** The scenario of the specification: two packages of one module import
    the same package of another module. *)
Definition barMod : ModuleInfo := moduleInfo "beta.example/bar" "v1.0.0" "/gomod/bar".
Definition fooMod : ModuleInfo := moduleInfo "alpha.example/foo" "v0.1.0" "/gomod/foo".
Definition fmtPkg : Package := packages.mkPackage "fmt" "fmt" [] None [].
Definition barX : Package :=
  packages.mkPackage "x" "beta.example/bar/x" [] (Some barMod) [("fmt", fmtPkg)].
Definition fooA : Package :=
  packages.mkPackage "a" "alpha.example/foo/a" [] (Some fooMod)
    [("beta.example/bar/x", barX); ("fmt", fmtPkg)].
Definition fooA' : Package :=
  packages.mkPackage "a" "alpha.example/foo/a" [] (Some fooMod)
    [("fmt", fmtPkg); ("beta.example/bar/x", barX)].
Definition fooB : Package :=
  packages.mkPackage "b" "alpha.example/foo/b" [] (Some fooMod)
    [("beta.example/bar/x", barX); ("alpha.example/foo/a", fooA)].

(** A test-augmentation package, without a module, and a package with a
    module that imports it. *)
Definition fooXTest : Package :=
  packages.mkPackage "foo_test" "alpha.example/foo_test" [] None [].
Definition fooTestMain : Package :=
  packages.mkPackage "main" "alpha.example/foo.test" [] (Some fooMod)
    [("alpha.example/foo_test", fooXTest)].

(** A record without a source directory. *)
Definition noDir : Mod.t := Mod.mk "alpha.example/foo" "0.1.0" "" "" ∅.

(** Records vendored in the tree, at the conventional place and elsewhere. *)
Definition vendored : Mod.t :=
  Mod.mk "alpha.example/foo" "" "/src/third_party/gopkgs/alpha.example/foo"
         "./third_party/gopkgs/alpha.example/foo" ∅.
Definition misplaced : Mod.t :=
  Mod.mk "alpha.example/foo" "" "/src/vendor/foo" "./vendor/foo" ∅.

(** Registries holding one of these records. *)
Definition vendoredRegistry : Registry :=
  mkRegistry {[ "alpha.example/foo" := 0%nat ]} [vendored].
Definition misplacedRegistry : Registry :=
  mkRegistry {[ "alpha.example/foo" := 0%nat ]} [misplaced].

End sample.

(** ** Further vocabulary *)

(** One registry extends another: every registered path keeps its
    address, every record keeps its place and its fields, and every
    dependency set keeps its packages. *)
Definition Grows (st st' : Registry) : Prop :=
  (∀ p a, modules st !! p = Some a → modules st' !! p = Some a)
  ∧ ∀ a m, heap st !! a = Some m →
      ∃ m', heap st' !! a = Some m' ∧ metaOf m' = metaOf m
            ∧ ∀ b s, Mod.Deps m !! b = Some s →
                ∃ s', Mod.Deps m' !! b = Some s' ∧ s ⊆ s'.

(** No dependency set is empty. *)
Definition NonEmptyDeps (st : Registry) : Prop :=
  ∀ a m b s, heap st !! a = Some m → Mod.Deps m !! b = Some s → s ≠ ∅.

(** ** Further sample data *)

Module cases.

(** A package that failed to load, in a module that failed to load. *)
Definition brokenMod : ModuleInfo :=
  packages.mkModuleInfo "gamma.example/baz" "v0.3.0" None "" (Some "no go.mod").
Definition broken : Package :=
  packages.mkPackage "baz" "gamma.example/baz" ["syntax error"; "type error"]
    (Some brokenMod) [].

(** A second description of the module of [sample.fooA], with another
    version and directory. *)
Definition fooMod' : ModuleInfo :=
  sample.moduleInfo "alpha.example/foo" "v9.9.9" "/elsewhere".
Definition fooC : Package :=
  packages.mkPackage "c" "alpha.example/foo/c" [] (Some fooMod') [].

End cases.

(** ** The plan of an emission *)

(** An import changes nothing any more: it is builtin, or leads to the
    importer's own module, or its package is already in the set. *)
Definition Absorbs (st : Registry) (a : nat) (dep : Package) : Prop :=
  isBuiltin dep = true
  ∨ ∃ dm b d m,
      edgeTo dep = Some (packages.Path dm, packages.PkgPath dep)
      ∧ modules st !! packages.Path dm = Some b
      ∧ heap st !! b = Some d ∧ heap st !! a = Some m
      ∧ (Mod.Path d = Mod.Path m
         ∨ ∃ s, Mod.Deps m !! b = Some s ∧ packages.PkgPath dep ∈ s).

(** A descriptor is due for the external modules that are not replaced
    by a local path. *)
Definition emittable (m : Mod.t) : bool :=
  Mod.IsExternal m && negb (isLocalReplace m).

(** The directory of the descriptor of a module. *)
Definition outDirOf (m : Mod.t) : string :=
  slashpath.Join ["third_party/gopkgs"; Mod.Path m].

Section Plan.

Variable isPrintWide : Z → bool.
Variable hashDir : string → string + string.
Variable ro : RangeOrder.

Definition digestOf (m : Mod.t) : string :=
  match hashDir (Mod.Dir m) with
  | inl digest => digest
  | inr _ => ""
  end.

(** What the emission of one record does when nothing fails. *)
Definition descriptorEvents (m : Mod.t) : list Event :=
  if emittable m
  then [Hashed (Mod.Dir m);
        Wrote (outDirOf m) "default.nix"
              (render isPrintWide (Mod.Path m) (Mod.Version m) (digestOf m)
                      (Imports ro m))]
  else [].

(** The records registered under the given paths, in that order. *)
Definition recordsAt (st : Registry) (paths : list Path) : list Mod.t :=
  omap (λ p, modules st !! p ≫= λ a, heap st !! a) paths.

Definition plannedEvents (st : Registry) (paths : list Path) : list Event :=
  recordsAt st paths ≫= descriptorEvents.

End Plan.

(** ** The Atomic Writer, call by call

    [writeFile] as the sequence of calls it makes to the operating system
    and to the [tempfile] package. What each call does to the file system
    is not modelled; the system decides which calls fail. *)

Module os.

(** An error, with what [os.IsNotExist] says of it. *)
Record Error : Type := mkError {
  IsNotExist : bool;
  Msg : string
}.

Inductive Call : Type :=
| MkdirAll (path : string) (perm : Z)
| TempfileOpen (dir name : string) (perm : Z)
| Write (file data : string)
| Remove (path : string)
| TempfileCommit (file : string)
| Rename (oldpath newpath : string)
| Close (file : string).

End os.

Section WriteFile.

(** The error of each call, if any, and the name [f.Name()] of the file
    that [tempfile.Open] returns. *)
Variable sys : os.Call → option os.Error.
Variable fileName : string → string → string.

(** The calls after [tempfile.Open] has returned the file [f], and the
    error returned. *)
Definition writeOpened (f dir name data : string) : list os.Call * option os.Error :=
  match sys (os.Write f data) with
  | Some err => ([os.Write f data], Some err)
  | None =>
      let removed :=
        match sys (os.Remove f) with
        | Some err => if negb (os.IsNotExist err) then Some err else None
        | None => None
        end in
      match removed with
      | Some err => ([os.Write f data; os.Remove f], Some err)
      | None =>
          match sys (os.TempfileCommit f) with
          | Some err =>
              ([os.Write f data; os.Remove f; os.TempfileCommit f], Some err)
          | None =>
              let final := slashpath.Join [dir; name] in
              ([os.Write f data; os.Remove f; os.TempfileCommit f;
                os.Rename f final],
               sys (os.Rename f final))
          end
      end
  end.

(** [writeFile(dir, name, data)]; the deferred [f.Close()] runs last once
    the file is open. [0755] is 493 and [0644] is 420. *)
Definition writeFileCalls (dir name data : string) : list os.Call * option os.Error :=
  match sys (os.MkdirAll dir 493) with
  | Some err => ([os.MkdirAll dir 493], Some err)
  | None =>
      let tmp := name +:+ ".tmp" in
      match sys (os.TempfileOpen dir tmp 420) with
      | Some err => ([os.MkdirAll dir 493; os.TempfileOpen dir tmp 420], Some err)
      | None =>
          let f := fileName dir tmp in
          let '(calls, err) := writeOpened f dir name data in
          ([os.MkdirAll dir 493; os.TempfileOpen dir tmp 420] ++ calls
           ++ [os.Close f], err)
      end
  end.

(** The outcome of [writeFile] as the emission sees it. *)
Definition writeErrorOf (dir name data : string) : option string :=
  os.Msg <$> (writeFileCalls dir name data).2.

(** Everything before the rename went well: the only error passed over
    is that of a [Remove] that found nothing to remove. *)
Definition readyToRename (dir name data : string) : Prop :=
  let f := fileName dir (name +:+ ".tmp") in
  sys (os.MkdirAll dir 493) = None
  ∧ sys (os.TempfileOpen dir (name +:+ ".tmp") 420) = None
  ∧ sys (os.Write f data) = None
  ∧ (∀ err, sys (os.Remove f) = Some err → os.IsNotExist err = true)
  ∧ sys (os.TempfileCommit f) = None.

End WriteFile.

Definition isRename (c : os.Call) : bool :=
  match c with
  | os.Rename _ _ => true
  | _ => false
  end.

Definition isClose (c : os.Call) : bool :=
  match c with
  | os.Close _ => true
  | _ => false
  end.

Section Passes.

Variable sys : os.Call → option os.Error.

(** A call after which [writeFile] goes on: it returned no error, or it
    is the [Remove] and found nothing to remove. *)
Definition passes (c : os.Call) : bool :=
  match sys c with
  | None => true
  | Some err =>
      match c with
      | os.Remove _ => os.IsNotExist err
      | _ => false
      end
  end.

End Passes.

Module calls.

(** A system in which removing the temporary name finds nothing and
    every other call succeeds. *)
Definition sys (c : os.Call) : option os.Error :=
  match c with
  | os.Remove _ => Some (os.mkError true "no such file or directory")
  | _ => None
  end.

Definition fileName (dir name : string) : string := dir +:+ "/" +:+ name.

End calls.

(** ** The order of the visit *)

(** The order that [packages.Visit] promises for the calls of [post]: a
    package into which [pre] lets the traversal go comes after every
    package it imports. *)
Definition PostOrdered (visited : list Package) : Prop :=
  ∀ l1 p l2 k d, visited = l1 ++ p :: l2 → isBuiltin p = false →
    (k, d) ∈ packages.Imports p → d ∈ l1.

(** Every import that the walk files leads to a package with a module. *)
Definition ImportsHaveModules (visited : list Package) : Prop :=
  ∀ p pm k d, p ∈ visited → pkgModule p = Some pm →
    (k, d) ∈ packages.Imports p → isBuiltin d = false →
    is_Some (packages.Module_ d).

(** A package on its own gives [post] no reason to panic: it is builtin,
    or it has no errors and has a module or is one of the test packages
    that come without one. *)
Definition accepted (pkg : Package) : bool :=
  isBuiltin pkg
  || (bool_decide (pkgErrors pkg = [])
      && match packages.Module_ pkg with
         | Some _ => true
         | None =>
             (String.eqb (packages.Name pkg) "main"
              && strings.HasSuffix (packages.PkgPath pkg) ".test")
             || strings.HasSuffix (packages.PkgPath pkg) "_test"
         end).

Module visits.

(** The sample packages in an order of [packages.Visit]. *)
Definition order : list Package :=
  [sample.fmtPkg; sample.barX; sample.fooA; sample.fooB].

End visits.

(** ** [main] *)

(** The load modes and the fields of [packages.Config] that [main]
    sets. *)
Inductive LoadMode : Type := NeedName | NeedImports | NeedDeps | NeedModule.

Record Config : Type := mkConfig {
  Mode : list LoadMode;
  BuildFlags : list string;
  Tests : bool
}.

(** [os.IsNotExist(err)] for an [err] that may be nil. *)
Definition isNotExist (err : option os.Error) : bool :=
  match err with
  | Some e => os.IsNotExist e
  | None => false
  end.

Definition isExit1 (f : Failure) : bool :=
  match f with
  | Exit1 _ => true
  | _ => false
  end.

(** The diagnostic for a local replace path at another place than the
    conventional one. *)
Definition misplacedReplace (m : Mod.t) : string :=
  "replace points at //" +:+ Mod.ReplacePath m
  +:+ ", expected it to point at //" +:+ outDirOf m +:+ nl.

Section Main.

Variable isPrintWide : Z → bool.
Variable hashDir : string → string + string.
Variable writeError : string → string → string → option string.
Variable ro : RangeOrder.

(** The surroundings of a run: [os.Args], the error of [os.Stat],
    [packages.Load] ([inr] is its error), and for [packages.Visit] the
    arguments of the calls of [post] in their order. *)
Variable args : list string.
Variable stat : string → option os.Error.
Variable load : Config → list string → list Package + string.
Variable Visit : list Package → list Package.

Definition toolsConfig : Config :=
  mkConfig [NeedName; NeedImports] ["-tags"; "tools"] false.

Definition graphConfig : Config :=
  mkConfig [NeedName; NeedDeps; NeedImports; NeedModule] [] true.

(** The roots of the second load: the wildcard, then every import of
    every package of ./tools. *)
Definition rootsOf (tools : list Package) : list string :=
  "./..." :: (tools ≫= λ pkg, (packages.Imports pkg).*1).

(** [main]. A panic of [post] ends the traversal where it happens; as
    the traversal does not depend on what [post] does, that is the walk
    over the packages in the order of the calls, stopped at the first
    failure. *)
Definition main : Result unit * list Event :=
  if (1 <? length args)%nat
  then (Fail (Exit1 ("mud takes no arguments" +:+ nl)), [])
  else if isNotExist (stat ".git")
  then (Fail (Exit1 ("mud must be run from the repository root" +:+ nl)), [])
  else
    match load toolsConfig ["./tools"] with
    | inr err => (Fail (PanicIO err), [])
    | inl tools =>
        match load graphConfig (rootsOf tools) with
        | inr err => (Fail (PanicIO err), [])
        | inl pkgs => run isPrintWide hashDir writeError ro (Visit pkgs)
        end
    end.

End Main.

Module runs.

(** A tool package importing two commands, and the repository's graph. *)
Definition tools : Package :=
  packages.mkPackage "tools" "example.com/tools" [] None
    [("beta.example/bar/x", sample.barX); ("alpha.example/foo/b", sample.fooB)].

Definition load (cfg : Config) (patterns : list string) : list Package + string :=
  if Tests cfg then inl [sample.fooB] else inl [tools].

(** [packages.Visit] from the roots [[sample.fooB]]. *)
Definition Visit (pkgs : list Package) : list Package := visits.order.

(** [os.Stat] failing for want of permission. *)
Definition denied (path : string) : option os.Error :=
  Some (os.mkError false "permission denied").

End runs.

(** * Properties *)

(** ** Byte strings *)

Lemma IndexByte_ge (s : string) (c : ascii) : -1 ≤ strings.IndexByte s c.
Proof.
  induction s as [|a t IH]; simpl; [lia|].
  destruct (Ascii.eqb a c); [lia|].
  destruct (Z.eqb_spec (strings.IndexByte t c) (-1)); lia.
Qed.

Lemma IndexByte_absent (s : string) (c : ascii) :
  strings.IndexByte s c = -1 ↔ strings.Contains s c = false.
Proof.
  induction s as [|a t IH]; simpl; [done|].
  destruct (Ascii.eqb a c); simpl; [split; [lia|done]|].
  pose proof (IndexByte_ge t c).
  destruct (Z.eqb_spec (strings.IndexByte t c) (-1)) as [E|E].
  - rewrite <- IH. done.
  - rewrite <- IH. split; [lia|done].
Qed.

Lemma first_segment_slice (p : string) :
  first_segment p =
    if strings.IndexByte p "/" =? -1 then p
    else strings.slice_to p (Z.to_nat (strings.IndexByte p "/")).
Proof.
  induction p as [|a t IH]; simpl; [done|].
  destruct (Ascii.eqb a "/"); simpl; [done|].
  pose proof (IndexByte_ge t "/").
  rewrite IH.
  destruct (Z.eqb_spec (strings.IndexByte t "/") (-1)) as [E|E]; simpl; [done|].
  destruct (Z.eqb_spec (strings.IndexByte t "/" + 1) (-1)); [lia|].
  replace (Z.to_nat (strings.IndexByte t "/" + 1))
    with (S (Z.to_nat (strings.IndexByte t "/"))) by lia.
  done.
Qed.

Lemma first_segment_FirstSegment (p : string) : FirstSegment p (first_segment p).
Proof.
  induction p as [|a t [IH1 IH2]]; simpl.
  - split; [done|by left].
  - destruct (Ascii.eqb_spec a "/") as [->|Hne].
    + split; [done|]. right. by exists t.
    + split.
      * simpl. rewrite IH1. by apply Ascii.eqb_neq in Hne as ->.
      * destruct IH2 as [IH2|[rest IH2]].
        -- left. by rewrite <- IH2.
        -- right. exists rest. by rewrite IH2 at 1.
Qed.

Lemma FirstSegment_unique (p seg : string) :
  FirstSegment p seg → seg = first_segment p.
Proof.
  revert p. induction seg as [|c seg IH]; intros p [Hno Hp].
  - destruct Hp as [->|[rest ->]]; done.
  - simpl in Hno. apply orb_false_iff in Hno as [Hc Hno].
    destruct Hp as [->|[rest ->]]; simpl; rewrite Hc; f_equal; apply IH.
    + split; [done|by left].
    + split; [done|]. right. by exists rest.
Qed.

(** ** The Builtin Classifier *)

(** C6. For every import path, the classifier answers true exactly when
    the first segment of the path (what precedes the first slash, or the
    whole path when there is none) contains no dot. The classifier is a
    total function of the path alone. *)
Theorem isBuiltin_iff_first_segment_dotless (pkg : Package) :
  ∃ seg, FirstSegment (packages.PkgPath pkg) seg
         ∧ (∀ seg', FirstSegment (packages.PkgPath pkg) seg' → seg' = seg)
         ∧ (isBuiltin pkg = true ↔ strings.Contains seg "." = false).
Proof.
  exists (first_segment (packages.PkgPath pkg)).
  split; [apply first_segment_FirstSegment|].
  split; [apply FirstSegment_unique|].
  unfold isBuiltin. rewrite first_segment_slice.
  rewrite <- IndexByte_absent.
  destruct (strings.IndexByte (packages.PkgPath pkg) "/" =? -1); simpl;
    apply Z.eqb_eq.
Qed.

Lemma Split_nonempty (s : string) (sep : ascii) : strings.Split s sep ≠ [].
Proof. destruct s as [|a t]; simpl; [done|]. destruct (Ascii.eqb a sep); [done|]. by destruct (strings.Split t sep). Qed.

Lemma Split_no_sep (s : string) (sep : ascii) :
  Forall (λ seg, strings.Contains seg sep = false) (strings.Split s sep).
Proof.
  induction s as [|a t IH]; simpl; [by repeat constructor|].
  destruct (Ascii.eqb a sep) eqn:E; [by constructor|].
  destruct (strings.Split t sep) as [|h r]; [by repeat constructor; simpl; rewrite E|].
  inversion_clear IH. constructor; [|done]. simpl. by rewrite E.
Qed.

Lemma Join_Split (s : string) (sep : ascii) :
  strings.Join (strings.Split s sep) (String sep EmptyString) = s.
Proof.
  induction s as [|a t IH]; simpl; [done|].
  pose proof (Split_nonempty t sep) as Hne.
  destruct (Ascii.eqb_spec a sep) as [->|_].
  - destruct (strings.Split t sep) as [|h r] eqn:E; [done|].
    change (strings.Join (EmptyString :: h :: r) (String sep EmptyString))
      with (String sep (strings.Join (h :: r) (String sep EmptyString))).
    by rewrite IH.
  - destruct (strings.Split t sep) as [|h r] eqn:E; [done|].
    destruct r as [|h' r]; simpl in *; by rewrite <- IH.
Qed.

(** ** Identifiers *)

Lemma MatchString_Empty (s : string) : regexp.MatchString regexp.Empty s = false.
Proof. induction s; simpl; auto. Qed.

Lemma MatchString_Alt (r1 r2 : regexp.Regexp) (s : string) :
  regexp.MatchString (regexp.Alt r1 r2) s
  = regexp.MatchString r1 s || regexp.MatchString r2 s.
Proof. revert r1 r2. induction s as [|c t IH]; intros; simpl; [done|apply IH]. Qed.

Lemma MatchString_Cat_Empty (r : regexp.Regexp) (s : string) :
  regexp.MatchString (regexp.Cat regexp.Empty r) s = false.
Proof. induction s; simpl; auto. Qed.

Lemma MatchString_Cat_Eps (r : regexp.Regexp) (s : string) :
  regexp.MatchString (regexp.Cat regexp.Eps r) s = regexp.MatchString r s.
Proof.
  destruct s as [|c t]; simpl; [done|].
  by rewrite MatchString_Alt, MatchString_Cat_Empty.
Qed.

Lemma MatchString_Star_Class (rs : list (ascii * ascii)) (s : string) :
  regexp.MatchString (regexp.Star (regexp.Class rs)) s
  = allBytes (regexp.in_class rs) s.
Proof.
  induction s as [|c t IH]; simpl; [done|].
  destruct (regexp.in_class rs c); simpl.
  - by rewrite MatchString_Cat_Eps.
  - apply MatchString_Cat_Empty.
Qed.

Lemma allBytes_ext (f g : ascii → bool) (s : string) :
  (∀ c, f c = g c) → allBytes f s = allBytes g s.
Proof. intros H. induction s as [|c t IH]; simpl; [done|]. by rewrite H, IH. Qed.

Ltac each_byte c :=
  destruct c as [[] [] [] [] [] [] [] []]; vm_compute; reflexivity.

Lemma identStart_class (c : ascii) :
  regexp.in_class [("a", "z"); ("A", "Z"); ("_", "_")]%char c = identStart c.
Proof. each_byte c. Qed.

Lemma identRest_class (c : ascii) :
  regexp.in_class [("a", "z"); ("A", "Z"); ("0", "9");
                   ("_", "_"); ("'", "'"); ("-", "-")]%char c = identRest c.
Proof. each_byte c. Qed.

(** The regular expression of the source accepts exactly the identifiers
    of the specification. *)
Lemma nixIdentRe_isBareIdent (s : string) :
  regexp.MatchString nixIdentRe s = isBareIdent s.
Proof.
  destruct s as [|c t]; [done|].
  unfold nixIdentRe.
  cbn [regexp.MatchString regexp.deriv regexp.nullable andb].
  rewrite identStart_class. unfold isBareIdent.
  destruct (identStart c); simpl.
  - rewrite MatchString_Cat_Eps, MatchString_Star_Class.
    apply allBytes_ext, identRest_class.
  - apply MatchString_Cat_Empty.
Qed.

Lemma nixKeyword_isReserved (s : string) : nixKeyword_at s = isReserved s.
Proof.
  unfold nixKeyword_at, isReserved, nixKeyword, reservedKeywords.
  simpl list_to_map.
  repeat (rewrite lookup_insert; case_decide;
          [subst s; symmetry; apply bool_decide_eq_true; set_solver|]).
  rewrite lookup_empty. simpl. symmetry. apply bool_decide_eq_false.
  intros Hin.
  repeat (apply elem_of_cons in Hin as [Hin|Hin]; [congruence|]).
  by apply elem_of_nil in Hin.
Qed.

Lemma quoteName_renderSegment (isPrintWide : Z → bool) (name : string) :
  quoteName isPrintWide name = renderSegment isPrintWide name.
Proof.
  unfold quoteName, renderSegment.
  rewrite nixIdentRe_isBareIdent, nixKeyword_isReserved.
  by destruct (isBareIdent name), (isReserved name).
Qed.

(** C7. The attribute path of a package path is made of its
    slash-separated segments joined with dots, where a segment that is not
    a valid bare identifier or that is a reserved keyword is rendered as a
    quoted string and every other segment is rendered bare; the segment
    1bad is rendered quoted. *)
Theorem NixAttr_quotes_invalid_segments (isPrintWide : Z → bool) (p : Path) :
  NixAttr isPrintWide p
    = strings.Join (renderSegment isPrintWide <$> strings.Split p "/") "."
  ∧ strings.Join (strings.Split p "/") "/" = p
  ∧ Forall (λ seg, strings.Contains seg "/" = false) (strings.Split p "/")
  ∧ NixAttr isPrintWide "1bad" = dq +:+ "1bad" +:+ dq.
Proof.
  split; [|split; [apply Join_Split|split; [apply Split_no_sep|reflexivity]]].
  unfold NixAttr. f_equal. apply list_fmap_ext. intros _ name _.
  apply quoteName_renderSegment.
Qed.

(** ** Packages without a module *)

(** C3, as the code has it. A visited package that is not builtin, has no
    errors and has no module is skipped without an error when it is named
    main and its path ends in .test, or when its path ends in _test; any
    other such package ends the run with a panic whose message names the
    package path. A path ending in .test is not enough: the name must be
    main as well. *)
Theorem post_without_module (pkg : Package) (st : Registry) :
  isBuiltin pkg = false →
  pkgErrors pkg = [] →
  packages.Module_ pkg = None →
  post pkg st =
    if (String.eqb (packages.Name pkg) "main"
        && strings.HasSuffix (packages.PkgPath pkg) ".test")
       || strings.HasSuffix (packages.PkgPath pkg) "_test"
    then Ok st
    else Fail (PanicError ("package without a module: " +:+ packages.PkgPath pkg)).
Proof.
  intros Hb He Hm. unfold post. rewrite Hb, He, Hm.
  destruct (String.eqb (packages.Name pkg) "main"
            && strings.HasSuffix (packages.PkgPath pkg) ".test"); [done|].
  by destruct (strings.HasSuffix (packages.PkgPath pkg) "_test").
Qed.

Lemma post_without_module_witness :
  isBuiltin sample.testMain = false
  ∧ pkgErrors sample.testMain = []
  ∧ packages.Module_ sample.testMain = None
  ∧ post sample.testMain emptyRegistry = Ok emptyRegistry.
Proof.
  split; [reflexivity|]. split; [reflexivity|]. split; [reflexivity|].
  apply (post_without_module sample.testMain emptyRegistry); reflexivity.
Defined.

(** A module-less package whose path ends in .test but whose name is not
    main is not skipped: the run panics. *)
Lemma post_dot_test_not_main_panics :
  isBuiltin sample.oddTest = false
  ∧ pkgErrors sample.oddTest = []
  ∧ packages.Module_ sample.oddTest = None
  ∧ strings.HasSuffix (packages.PkgPath sample.oddTest) ".test" = true
  ∧ post sample.oddTest emptyRegistry
    = Fail (PanicError "package without a module: a.example/x.test")
  ∧ post sample.oddTest emptyRegistry ≠ Ok emptyRegistry.
Proof. repeat split; done. Qed.

(** ** Records built from the loader's description *)

Lemma newModule_fields (pm : ModuleInfo) :
  Mod.Path (newModule pm) = packages.Path pm
  ∧ Mod.Dir (newModule pm) = packages.Dir pm
  ∧ Mod.Deps (newModule pm) = ∅
  ∧ Mod.ReplacePath (newModule pm)
    = match packages.Replace pm with
      | Some r => packages.Path r
      | None => ""
      end
  ∧ Mod.Version (newModule pm)
    = strings.TrimPrefix
        match packages.Replace pm with
        | Some r => packages.Version r
        | None => packages.Version pm
        end "v".
Proof. unfold newModule. by destruct (packages.Replace pm). Qed.
(** ** Dependency sets *)

Lemma DepAdd_Deps (m : Mod.t) (d : nat) (p : string) :
  Mod.Deps (Mod.DepAdd m d p)
  = <[d := {[ p ]} ∪ default ∅ (Mod.Deps m !! d)]> (Mod.Deps m).
Proof.
  unfold Mod.DepAdd, Mod.Dep, PackageSet.Add.
  destruct (Mod.Deps m !! d) as [s|] eqn:E; simpl; [done|].
  by rewrite insert_insert_eq.
Qed.

Lemma DepAdd_metaOf (m : Mod.t) (d : nat) (p : string) :
  metaOf (Mod.DepAdd m d p) = metaOf m.
Proof. unfold Mod.DepAdd, Mod.Dep. by destruct (Mod.Deps m !! d). Qed.

Lemma DepAdd_Path (m : Mod.t) (d : nat) (p : string) :
  Mod.Path (Mod.DepAdd m d p) = Mod.Path m.
Proof. unfold Mod.DepAdd, Mod.Dep. by destruct (Mod.Deps m !! d). Qed.

(** ** The walk: what each step does *)

(** The successful outcomes of one loop iteration. *)
Lemma addImport_Ok (a : nat) (dep : Package) (st st' : Registry) :
  addImport a dep st = Ok st' →
  (edgeTo dep = None ∧ st' = st)
  ∨ ∃ dm b d m,
      edgeTo dep = Some (packages.Path dm, packages.PkgPath dep)
      ∧ modules st !! packages.Path dm = Some b
      ∧ heap st !! b = Some d ∧ heap st !! a = Some m
      ∧ ((Mod.Path d = Mod.Path m ∧ st' = st)
         ∨ (Mod.Path d ≠ Mod.Path m ∧ b ≠ a
            ∧ st' = mkRegistry (modules st)
                      (<[a := Mod.DepAdd m b (packages.PkgPath dep)]> (heap st)))).
Proof.
  unfold addImport, edgeTo. destruct (isBuiltin dep); [intros [= <-]; by left|].
  destruct (packages.Module_ dep) as [dm|]; [|done].
  destruct (modules st !! packages.Path dm) as [b|] eqn:Hb; [|done].
  destruct (heap st !! b) as [d|] eqn:Hd; [|done].
  destruct (heap st !! a) as [m|] eqn:Hm; [|done].
  intros H. right. exists dm, b, d, m. do 4 (split; [done|]).
  destruct (String.eqb_spec (Mod.Path d) (Mod.Path m)) as [E|E].
  - left. by injection H as <-.
  - right. injection H as <-. split; [done|]. split; [|done].
    intros ->. congruence.
Qed.

Lemma resolveModule_cases (pm : ModuleInfo) (st : Registry) :
  (∃ a, modules st !! packages.Path pm = Some a ∧ resolveModule pm st = (a, st))
  ∨ (modules st !! packages.Path pm = None
     ∧ resolveModule pm st
       = (length (heap st),
          mkRegistry (<[packages.Path pm := length (heap st)]> (modules st))
                     (heap st ++ [newModule pm]))).
Proof.
  unfold resolveModule. destruct (modules st !! packages.Path pm) as [a|]; [left; eauto|].
  right. split; [done|]. by destruct (newModule_fields pm) as [-> _].
Qed.

(** The successful outcomes of [post]. *)
Lemma post_Ok (pkg : Package) (st st' : Registry) :
  post pkg st = Ok st' →
  (pkgModule pkg = None ∧ st' = st)
  ∨ ∃ pm, pkgModule pkg = Some pm
          ∧ importLoop (resolveModule pm st).1 (packages.Imports pkg)
                       (resolveModule pm st).2 = Ok st'.
Proof.
  unfold post, pkgModule. destruct (isBuiltin pkg); [intros [= <-]; by left|].
  destruct (pkgErrors pkg); [|done].
  destruct (packages.Module_ pkg) as [pm|].
  - intros H. right. exists pm. split; [done|]. by destruct (resolveModule pm st).
  - intros H. left. split; [done|].
    destruct (_ && _); [by injection H|].
    destruct (strings.HasSuffix _ _); [by injection H|done].
Qed.

(** ** No module depends on itself *)

Lemma resolveModule_NoSelfEdge (pm : ModuleInfo) (st : Registry) :
  NoSelfEdge st → NoSelfEdge (resolveModule pm st).2.
Proof.
  intros H. destruct (resolveModule_cases pm st) as [(a & _ & ->)|[_ ->]]; [done|].
  intros a m [Hm|[_ Hm]]%lookup_app_Some; simpl in *; [by eapply H|].
  apply list_lookup_singleton_Some in Hm as [_ <-].
  destruct (newModule_fields pm) as (_ & _ & -> & _). apply lookup_empty.
Qed.

Lemma addImport_NoSelfEdge (a : nat) (dep : Package) (st st' : Registry) :
  NoSelfEdge st → addImport a dep st = Ok st' → NoSelfEdge st'.
Proof.
  intros H [[_ ->]|(dm & b & d & m & _ & _ & Hd & Hm & [[_ ->]|(_ & Hba & ->)])]%addImport_Ok;
    [done..|].
  intros a' m' Hm'. simpl in Hm'.
  apply list_lookup_insert_Some in Hm' as [(-> & <- & _)|[Hne Hm']]; [|by eapply H].
  rewrite DepAdd_Deps, lookup_insert_ne by done. by eapply H.
Qed.

Lemma importLoop_NoSelfEdge (a : nat) (imports : list (string * Package))
    (st st' : Registry) :
  NoSelfEdge st → importLoop a imports st = Ok st' → NoSelfEdge st'.
Proof.
  revert st. induction imports as [|[k dep] rest IH]; intros st H; simpl.
  - by intros [= <-].
  - destruct (addImport a dep st) as [st1|] eqn:E; simpl; [|done].
    apply IH. by eapply addImport_NoSelfEdge.
Qed.

Lemma post_NoSelfEdge (pkg : Package) (st st' : Registry) :
  NoSelfEdge st → post pkg st = Ok st' → NoSelfEdge st'.
Proof.
  intros H [[_ ->]|(pm & _ & Hl)]%post_Ok; [done|].
  eapply importLoop_NoSelfEdge; [|done]. by apply resolveModule_NoSelfEdge.
Qed.

Lemma walk_NoSelfEdge (visited : list Package) (st st' : Registry) :
  NoSelfEdge st → walk visited st = Ok st' → NoSelfEdge st'.
Proof.
  revert st. induction visited as [|pkg rest IH]; intros st H; simpl.
  - by intros [= <-].
  - destruct (post pkg st) as [st1|] eqn:E; simpl; [|done].
    apply IH. by eapply post_NoSelfEdge.
Qed.

(** ** The registry represents the packages walked *)

Lemma Represents_empty : Represents [] [] emptyRegistry.
Proof.
  unfold emptyRegistry. split; simpl.
  - split; intros ??; simpl; [by rewrite lookup_empty|by rewrite lookup_nil].
  - intros p. rewrite lookup_empty. split; [by intros [??]|].
    intros (pm & []%elem_of_nil & _).
  - intros ??. by rewrite lookup_nil.
  - intros ????. by rewrite lookup_nil.
  - intros p q x. split; [by intros ?%elem_of_nil|].
    intros (a & m & _ & _ & _ & Hm & _). by rewrite lookup_nil in Hm.
Qed.

Lemma Represents_resolveModule (reg : list ModuleInfo)
    (done : list (string * string * string)) (pm : ModuleInfo) (st : Registry) :
  Represents reg done st →
  Represents (reg ++ [pm]) done (resolveModule pm st).2
  ∧ ∃ m, heap (resolveModule pm st).2 !! (resolveModule pm st).1 = Some m
         ∧ Mod.Path m = packages.Path pm.
Proof.
  intros [[Hwf1 Hwf2] Hdom Hmeta Hkeys Hedges].
  destruct (resolveModule_cases pm st) as [(a & Ha & ->)|[Hnew ->]]; simpl.
  - split; [|by apply Hwf1]. split; [done|..|done|done].
    + intros p. rewrite Hdom. split.
      * intros (pm' & ? & ?). exists pm'. split; [|done]. apply elem_of_app; by left.
      * intros (pm' & [?|Hs%list_elem_of_singleton]%elem_of_app & Hp); [by exists pm'|].
        subst pm' p. apply Hdom. by rewrite Ha.
    + intros a' m' Hm'. destruct (Hmeta a' m' Hm') as (pm' & ? & ?).
      exists pm'. split; [|done]. apply elem_of_app; by left.
  - assert (Hp : Mod.Path (newModule pm) = packages.Path pm)
      by apply newModule_fields.
    split.
    2:{ exists (newModule pm). split; [|done]. by apply list_lookup_middle. }
    split; simpl.
    + split.
      * intros p a. simpl. destruct (decide (p = packages.Path pm)) as [->|Hne].
        -- rewrite lookup_insert_eq. intros [= <-]. exists (newModule pm).
           split; [|done]. by apply list_lookup_middle.
        -- rewrite lookup_insert_ne by done. intros (m & Hm & ?)%Hwf1.
           exists m. split; [|done]. by apply lookup_app_l_Some.
      * intros a m [Hm|[Ha Hm]]%lookup_app_Some; simpl.
        -- rewrite lookup_insert_ne; [by apply Hwf2|].
           intros E. apply Hwf2 in Hm. rewrite <- E in Hm. congruence.
        -- apply list_lookup_singleton_Some in Hm as [Hz <-].
           rewrite Hp. replace a with (length (heap st)) by lia.
           apply lookup_insert_eq.
    + intros p. destruct (decide (p = packages.Path pm)) as [->|Hne].
      * rewrite lookup_insert_eq. split; [|by eauto].
        intros _. exists pm. split; [|done]. apply elem_of_app. right. by left.
      * rewrite lookup_insert_ne by done. rewrite Hdom. split.
        -- intros (pm' & ? & ?). exists pm'. split; [|done]. apply elem_of_app; by left.
        -- intros (pm' & [?|Hs%list_elem_of_singleton]%elem_of_app & Hp');
             [by exists pm'|by subst pm'].
    + intros a m [Hm|[Ha Hm]]%lookup_app_Some.
      * destruct (Hmeta a m Hm) as (pm' & ? & ?).
        exists pm'. split; [|done]. apply elem_of_app; by left.
      * apply list_lookup_singleton_Some in Hm as [_ <-].
        exists pm. split; [|done]. apply elem_of_app. right. by left.
    + intros a m b s [Hm|[Ha Hm]]%lookup_app_Some Hb.
      * destruct (Hkeys a m b s Hm Hb) as [d Hd]. exists d. by apply lookup_app_l_Some.
      * apply list_lookup_singleton_Some in Hm as [_ <-].
        destruct (newModule_fields pm) as (_ & _ & HD & _).
        rewrite HD in Hb. by rewrite lookup_empty in Hb.
    + intros p q x. rewrite Hedges. split.
      * intros (a & m & b & d & s & Hm & ? & ? & ? & Hd & ?).
        exists a, m, b, d, s. repeat split; try done; by apply lookup_app_l_Some.
      * intros (a & m & b & d & s & [Hm|[Ha Hm]]%lookup_app_Some & ? & Hb & ? & Hd & ?).
        -- destruct (Hkeys a m b s Hm Hb) as [d' Hd'].
           rewrite (lookup_app_l_Some _ _ _ _ Hd') in Hd. injection Hd as ->.
           by exists a, m, b, d, s.
        -- apply list_lookup_singleton_Some in Hm as [_ <-].
           destruct (newModule_fields pm) as (_ & _ & HD & _).
           rewrite HD in Hb. by rewrite lookup_empty in Hb.
Qed.

(** Replacing a record by one with the same path keeps every address
    and every path in place. *)
Lemma heap_insert_forward (h : list Mod.t) (a : nat) (m m' : Mod.t) :
  h !! a = Some m → Mod.Path m' = Mod.Path m →
  ∀ i y, h !! i = Some y →
    ∃ y', <[a := m']> h !! i = Some y' ∧ Mod.Path y' = Mod.Path y
          ∧ (i = a → y' = m') ∧ (i ≠ a → y' = y).
Proof.
  intros Hm Hp i y Hy. destruct (decide (i = a)) as [->|Hne].
  - exists m'. rewrite list_lookup_insert_eq by (by eapply lookup_lt_Some).
    split; [done|]. split; [congruence|done].
  - exists y. rewrite list_lookup_insert_ne by done. done.
Qed.

Lemma heap_insert_backward (h : list Mod.t) (a : nat) (m m' : Mod.t) :
  h !! a = Some m → Mod.Path m' = Mod.Path m →
  ∀ i y', <[a := m']> h !! i = Some y' →
    ∃ y, h !! i = Some y ∧ Mod.Path y = Mod.Path y'
         ∧ (i = a → y' = m') ∧ (i ≠ a → y' = y).
Proof.
  intros Hm Hp i y' [(-> & <- & _)|[Hne Hy]]%list_lookup_insert_Some.
  - exists m. done.
  - exists y'. done.
Qed.

Lemma Represents_addImport (reg : list ModuleInfo)
    (done : list (string * string * string)) (k : string) (dep : Package)
    (a : nat) (m : Mod.t) (st st' : Registry) :
  Represents reg done st → heap st !! a = Some m →
  addImport a dep st = Ok st' →
  Represents reg (done ++ edgesFrom (Mod.Path m) [(k, dep)]) st'
  ∧ ∃ m', heap st' !! a = Some m' ∧ Mod.Path m' = Mod.Path m.
Proof.
  intros HR Hm Hadd. unfold edgesFrom. simpl. rewrite app_nil_r.
  destruct (addImport_Ok _ _ _ _ Hadd)
    as [[-> ->]|(dm & b & d & m0 & -> & Hb & Hd & Hm0 & Hcase)].
  { rewrite app_nil_r. split; [done|by exists m]. }
  assert (m0 = m) as -> by congruence.
  assert (Hdp : Mod.Path d = packages.Path dm).
  { destruct (proj1 (rep_wf _ _ _ HR) _ _ Hb) as (d' & Hd' & ?). congruence. }
  destruct Hcase as [[Heq ->]|(Hne & Hba & ->)].
  { rewrite decide_True by congruence. rewrite app_nil_r.
    split; [done|by exists m]. }
  rewrite decide_False by congruence.
  pose proof (DepAdd_Path m b (packages.PkgPath dep)) as Hp'.
  pose proof (DepAdd_metaOf m b (packages.PkgPath dep)) as HM.
  pose proof (DepAdd_Deps m b (packages.PkgPath dep)) as HD.
  remember (packages.PkgPath dep) as x eqn:Ex. clear Ex.
  remember (Mod.DepAdd m b x) as m' eqn:Em'. clear Em' Hadd.
  pose proof (heap_insert_forward _ _ _ _ Hm Hp') as Hfw.
  pose proof (heap_insert_backward _ _ _ _ Hm Hp') as Hbw.
  destruct HR as [[Hwf1 Hwf2] Hdom Hmeta Hkeys Hedges].
  split.
  2:{ destruct (Hfw _ _ Hm) as (y' & Hy' & ? & _). by exists y'. }
  split; simpl.
  - split; simpl.
    + intros p a0 (y & Hy & <-)%Hwf1.
      destruct (Hfw _ _ Hy) as (y' & ? & ? & _). by exists y'.
    + intros a0 y' Hy'. destruct (Hbw _ _ Hy') as (y & Hy & <- & _).
      by apply Hwf2.
  - done.
  - intros a0 y' Hy'. destruct (Hbw _ _ Hy') as (y & Hy & _ & He & Hn).
    destruct (decide (a0 = a)) as [->|Hna].
    + rewrite (He eq_refl), HM. by eapply Hmeta.
    + rewrite (Hn Hna). by eapply Hmeta.
  - intros a0 y' b0 s Hy' Hb0.
    assert (is_Some (heap st !! b0)) as [d0 Hd0].
    { destruct (Hbw _ _ Hy') as (y & Hy & _ & He & Hn).
      destruct (decide (a0 = a)) as [->|Hna].
      - rewrite (He eq_refl), HD in Hb0.
        apply lookup_insert_Some in Hb0 as [[<- _]|[_ Hb0]]; [by eauto|].
        assert (y = m) as -> by congruence. by eapply Hkeys.
      - rewrite (Hn Hna) in Hb0. by eapply Hkeys. }
    destruct (Hfw _ _ Hd0) as (d' & ? & _). by exists d'.
  - intros p q x'. rewrite elem_of_app, list_elem_of_singleton, Hedges. split.
    + intros [(a0 & m0 & b0 & d0 & s0 & Hm0' & Hp0 & Hs0 & Hx & Hd0 & Hq)|[= -> -> ->]].
      * destruct (Hfw _ _ Hm0') as (y' & Hy' & Hyp & He & Hn).
        destruct (Hfw _ _ Hd0) as (d' & Hd' & Hdp' & _).
        destruct (decide (a0 = a)) as [->|Hna].
        -- assert (m0 = m) as -> by congruence.
           pose proof (He eq_refl) as ->.
           exists a, m', b0, d'. rewrite HD.
           destruct (decide (b0 = b)) as [->|Hnb].
           ++ exists ({[x]} ∪ default ∅ (Mod.Deps m !! b)).
              rewrite lookup_insert_eq, Hs0. simpl.
              repeat split; try done; try congruence.
              apply elem_of_union. by right.
           ++ exists s0. rewrite lookup_insert_ne by done.
              repeat split; try done; congruence.
        -- exists a0, y', b0, d', s0. rewrite (Hn Hna).
           rewrite (Hn Hna) in Hy'. repeat split; try done; congruence.
      * destruct (Hfw _ _ Hm) as (y' & Hy' & Hyp & He & _).
        destruct (Hfw _ _ Hd) as (d' & Hd' & Hdp' & _).
        pose proof (He eq_refl) as ->.
        exists a, m', b, d', ({[x]} ∪ default ∅ (Mod.Deps m !! b)).
        rewrite HD, lookup_insert_eq.
        repeat split; try done; try congruence.
        apply elem_of_union. left. by apply elem_of_singleton.
    + intros (a0 & y' & b0 & d' & s' & Hy' & Hp0 & Hs' & Hx & Hd' & Hq).
      destruct (Hbw _ _ Hy') as (y & Hy & Hyp & He & Hn).
      destruct (Hbw _ _ Hd') as (d0 & Hd0 & Hdp0 & Hed & Hnd).
      destruct (decide (a0 = a)) as [->|Hna].
      * assert (y = m) as -> by congruence.
        rewrite (He eq_refl), HD in Hs'.
        apply lookup_insert_Some in Hs' as [[<- <-]|[Hnb Hs']].
        -- apply elem_of_union in Hx as [->%elem_of_singleton|Hx].
           ++ right. pose proof (Hnd Hba) as ->.
              assert (d0 = d) as -> by congruence.
              repeat f_equal; congruence.
           ++ left. destruct (Mod.Deps m !! b) as [s0|] eqn:Hs0;
                [|by apply elem_of_empty in Hx].
              exists a, m, b, d0, s0. repeat split; try done; congruence.
        -- left. exists a, m, b0, d0, s'. repeat split; try done; congruence.
      * left. rewrite (Hn Hna) in *.
        exists a0, y, b0, d0, s'. repeat split; try done; congruence.
Qed.

Lemma edgesFrom_cons (p : string) (kd : string * Package)
    (rest : list (string * Package)) :
  edgesFrom p (kd :: rest) = edgesFrom p [kd] ++ edgesFrom p rest.
Proof. unfold edgesFrom. simpl. by rewrite app_nil_r. Qed.

Lemma modulesOf_cons (pkg : Package) (rest : list Package) :
  modulesOf (pkg :: rest) = modulesOf [pkg] ++ modulesOf rest.
Proof. unfold modulesOf. simpl. by destruct (pkgModule pkg). Qed.

Lemma edgesOf_cons (pkg : Package) (rest : list Package) :
  edgesOf (pkg :: rest) = edgesOf [pkg] ++ edgesOf rest.
Proof. unfold edgesOf. simpl. by rewrite app_nil_r. Qed.

Lemma Represents_importLoop (reg : list ModuleInfo)
    (done : list (string * string * string)) (a : nat) (m : Mod.t)
    (imports : list (string * Package)) (st st' : Registry) :
  Represents reg done st → heap st !! a = Some m →
  importLoop a imports st = Ok st' →
  Represents reg (done ++ edgesFrom (Mod.Path m) imports) st'.
Proof.
  revert done m st.
  induction imports as [|[k dep] rest IH]; intros done m st HR Hm;
    cbn [importLoop].
  - intros [= <-]. unfold edgesFrom. simpl. by rewrite app_nil_r.
  - destruct (addImport a dep st) as [st1|] eqn:E; cbn [bind]; [|done].
    intros Hloop.
    destruct (Represents_addImport _ _ k _ _ _ _ _ HR Hm E) as [HR1 (m1 & Hm1 & Hp1)].
    rewrite edgesFrom_cons, app_assoc, <- Hp1.
    eapply IH; [|done..]. by rewrite Hp1.
Qed.

Lemma Represents_post (reg : list ModuleInfo)
    (done : list (string * string * string)) (pkg : Package) (st st' : Registry) :
  Represents reg done st → post pkg st = Ok st' →
  Represents (reg ++ modulesOf [pkg]) (done ++ edgesOf [pkg]) st'.
Proof.
  intros HR [[Hn ->]|(pm & Hpm & Hloop)]%post_Ok;
    unfold modulesOf, edgesOf; simpl.
  - rewrite Hn. by rewrite !app_nil_r.
  - rewrite Hpm, app_nil_r.
    destruct (Represents_resolveModule _ _ pm _ HR) as [HR1 (m & Hm & <-)].
    by eapply Represents_importLoop.
Qed.

Lemma Represents_walk (reg : list ModuleInfo)
    (done : list (string * string * string)) (visited : list Package)
    (st st' : Registry) :
  Represents reg done st → walk visited st = Ok st' →
  Represents (reg ++ modulesOf visited) (done ++ edgesOf visited) st'.
Proof.
  revert reg done st.
  induction visited as [|pkg rest IH]; intros reg done st HR; cbn [walk].
  - intros [= <-]. unfold modulesOf, edgesOf. simpl. by rewrite !app_nil_r.
  - destruct (post pkg st) as [st1|] eqn:E; cbn [bind]; [|done].
    intros Hw. rewrite modulesOf_cons, edgesOf_cons, !app_assoc.
    eapply IH; [|done]. by eapply Represents_post.
Qed.

Lemma walk_Represents (visited : list Package) (st : Registry) :
  walk visited emptyRegistry = Ok st →
  Represents (modulesOf visited) (edgesOf visited) st.
Proof. apply (Represents_walk [] [] visited), Represents_empty. Qed.

(** An address outside the heap is never met. *)
Lemma walk_never_unallocated (visited : list Package) :
  walk visited emptyRegistry ≠ Fail Unallocated.
Proof.
  assert (Hgen : ∀ reg es st, Represents reg es st →
                   walk visited st ≠ Fail Unallocated);
    [|by eapply Hgen, Represents_empty].
  induction visited as [|pkg rest IH]; intros reg es st HR; simpl; [done|].
  destruct (post pkg st) as [st1|f] eqn:E; simpl.
  { eapply IH. by eapply Represents_post. }
  intros [= ->]. revert E. unfold post.
  destruct (isBuiltin pkg); [done|]. destruct (pkgErrors pkg); [|done].
  destruct (packages.Module_ pkg) as [pm|];
    [|by repeat (case_match; try done)].
  destruct (Represents_resolveModule _ _ pm _ HR) as [HR1 (m & Hm & _)].
  destruct (resolveModule pm st) as [a st0]. simpl in *.
  clear HR. revert es m st0 HR1 Hm.
  induction (packages.Imports pkg) as [|[k dep] imports IHi];
    intros es m st0 HR1 Hm; simpl; [done|].
  destruct (addImport a dep st0) as [st2|f] eqn:Ea; simpl.
  - destruct (Represents_addImport _ _ k _ _ _ _ _ HR1 Hm Ea) as [HR2 (m2 & Hm2 & _)].
    by eapply IHi.
  - intros [= ->]. revert Ea. unfold addImport.
    destruct (isBuiltin dep); [done|].
    destruct (packages.Module_ dep) as [dm|]; [|done].
    destruct (modules st0 !! packages.Path dm) as [b|] eqn:Hb; [|done].
    destruct (proj1 (rep_wf _ _ _ HR1) _ _ Hb) as (d & -> & _).
    rewrite Hm. by case_match.
Qed.

(** ** C2: no self-edges *)

Lemma edgeTo_Module (dep : Package) (q x : string) :
  edgeTo dep = Some (q, x) →
  isBuiltin dep = false
  ∧ ∃ dm, packages.Module_ dep = Some dm ∧ packages.Path dm = q.
Proof.
  unfold edgeTo. destruct (isBuiltin dep); [done|].
  destruct (packages.Module_ dep) as [dm|]; [|done].
  intros [= <- <-]. eauto.
Qed.

Lemma addImport_same_module (reg : list ModuleInfo)
    (es : list (string * string * string)) (a : nat) (m : Mod.t)
    (dep : Package) (dm : ModuleInfo) (st st' : Registry) :
  Represents reg es st → heap st !! a = Some m →
  packages.Module_ dep = Some dm → packages.Path dm = Mod.Path m →
  addImport a dep st = Ok st' → st' = st.
Proof.
  intros HR Hm Hdm Hp
    [[_ ->]|(dm' & b & d & m0 & He & Hb & Hd & Hm0 & [[_ ->]|(Hne & _)])]%addImport_Ok;
    [done..|].
  apply edgeTo_Module in He as (_ & dm'' & Hdm'' & He).
  destruct (proj1 (rep_wf _ _ _ HR) _ _ Hb) as (d' & Hd' & Hdp).
  congruence.
Qed.

(** C2. At every point of the walk no module is a key of its own
    dependency map: this holds after any number of visited packages and,
    while the next package is being processed, after its module has been
    resolved and any number of its imports have been handled. An import of
    a package that belongs to the importer's own module leaves the
    registry as it is. *)
Theorem no_self_dependency (visited : list Package) (st : Registry) :
  walk visited emptyRegistry = Ok st →
  NoSelfEdge st
  ∧ ∀ pm imports st',
      importLoop (resolveModule pm st).1 imports (resolveModule pm st).2 = Ok st' →
      NoSelfEdge st'
      ∧ ∀ a m dep dm st'',
          heap st' !! a = Some m →
          packages.Module_ dep = Some dm →
          packages.Path dm = Mod.Path m →
          addImport a dep st' = Ok st'' → st'' = st'.
Proof.
  intros Hw.
  assert (Hn : NoSelfEdge st).
  { eapply walk_NoSelfEdge; [|done]. intros a m. unfold emptyRegistry. simpl.
    by rewrite lookup_nil. }
  split; [done|]. intros pm imports st' Hl. split.
  - eapply importLoop_NoSelfEdge; [|done]. by apply resolveModule_NoSelfEdge.
  - apply walk_Represents in Hw.
    destruct (Represents_resolveModule _ _ pm _ Hw) as [HR1 (m1 & Hm1 & _)].
    pose proof (Represents_importLoop _ _ _ _ _ _ _ HR1 Hm1 Hl) as HR2.
    intros a m dep dm st''. by eapply addImport_same_module.
Qed.

Lemma no_self_dependency_witness :
  ∃ st, walk [sample.barX; sample.fooA; sample.fooB] emptyRegistry = Ok st
        ∧ NoSelfEdge st.
Proof.
  eexists. split; [vm_compute; reflexivity|].
  apply (no_self_dependency [sample.barX; sample.fooA; sample.fooB]).
  vm_compute; reflexivity.
Defined.

(** ** C4: the fields of a record *)

Lemma TrimPrefix_v (s : string) :
  strings.TrimPrefix (String "v" s) "v" = s
  ∧ (strings.HasPrefix s "v" = false → strings.TrimPrefix s "v" = s).
Proof.
  split; [reflexivity|]. unfold strings.TrimPrefix. by intros ->.
Qed.

(** What the walk stores. Every record in the registry was built from
    the module description of a visited package. Its replace path is the
    path of the replacement when the description carries one, local or
    not, and is empty otherwise; its version is the version of the
    replacement when there is one and of the module otherwise, one
    leading v removed; its directory is the directory the description
    gives. *)
Lemma module_record_fields (visited : list Package) (st : Registry)
    (a : nat) (m : Mod.t) :
  walk visited emptyRegistry = Ok st →
  heap st !! a = Some m →
  ∃ pkg pm,
    pkg ∈ visited ∧ packages.Module_ pkg = Some pm
    ∧ Mod.Path m = packages.Path pm
    ∧ Mod.Dir m = packages.Dir pm
    ∧ Mod.ReplacePath m
      = match packages.Replace pm with
        | Some r => packages.Path r
        | None => ""
        end
    ∧ Mod.Version m
      = strings.TrimPrefix
          match packages.Replace pm with
          | Some r => packages.Version r
          | None => packages.Version pm
          end "v".
Proof.
  intros Hw Hm. apply walk_Represents in Hw.
  destruct (rep_meta _ _ _ Hw _ _ Hm) as (pm & Hpm & Hmeta).
  apply list_elem_of_omap in Hpm as (pkg & Hpkg & Hpm).
  exists pkg, pm. split; [done|]. split.
  { unfold pkgModule in Hpm. by destruct (isBuiltin pkg). }
  unfold metaOf in Hmeta. injection Hmeta as -> -> -> ->.
  destruct (newModule_fields pm) as (? & ? & _ & ? & ?). done.
Qed.

(** C4. The claim fails at a module replaced by another module, as by
    the directive replace alpha.example/foo => fork.example/foo v0.2.0.
    Its record gets a replace path that is not empty although the module
    is not redirected to a local path: what is stored is the module path
    of the replacement, which is no place in the repository, against the
    comment on the field. The version stored is the replacement's, one
    leading v removed. The record then passes for an ordinary external
    module, and a descriptor is written under the original path with the
    version of the replacement. *)
Lemma replacePath_of_module_replacement :
  ∃ st m, walk [sample.forkedPkg] emptyRegistry = Ok st
          ∧ heap st !! 0%nat = Some m
          ∧ Mod.ReplacePath m = "fork.example/foo"
          ∧ Mod.ReplacePath m ≠ ""
          ∧ strings.HasPrefix (Mod.ReplacePath m) "." = false
          ∧ strings.HasPrefix (Mod.ReplacePath m) "/" = false
          ∧ Mod.Version m = "0.2.0"
          ∧ isLocalReplace m = false
          ∧ run sample.isPrintWide sample.hashDir sample.writeError
                sample.inOrder [sample.forkedPkg]
            = (Ok tt,
               [Hashed "/gomod/fork.example/foo@v0.2.0";
                Wrote "third_party/gopkgs/alpha.example/foo" "default.nix"
                      (render sample.isPrintWide "alpha.example/foo" "0.2.0"
                              "sha256-of:/gomod/fork.example/foo@v0.2.0" [])]).
Proof.
  eexists _, _. split; [vm_compute; reflexivity|]. split; [reflexivity|].
  repeat split; first [done|vm_compute; reflexivity].
Qed.

(** ** C10: imports that resolve *)

Lemma importsResolved_spec (st : Registry) (pkg : Package) (pm : ModuleInfo) :
  pkgModule pkg = Some pm →
  importsResolved st pkg = true
  ↔ ∀ k dep, (k, dep) ∈ packages.Imports pkg → isBuiltin dep = false →
      ∃ dm, packages.Module_ dep = Some dm
            ∧ (packages.Path dm = packages.Path pm
               ∨ is_Some (modules st !! packages.Path dm)).
Proof.
  intros Hpm. unfold importsResolved. rewrite Hpm, forallb_forall. split.
  - intros H k dep Hin%list_elem_of_In Hb. specialize (H _ Hin). simpl in H.
    rewrite Hb in H. simpl in H.
    destruct (packages.Module_ dep) as [dm|]; [|done].
    exists dm. split; [done|].
    apply orb_true_iff in H as [H%String.eqb_eq|H%bool_decide_eq_true]; auto.
  - intros H [k dep] Hin%list_elem_of_In. simpl.
    destruct (isBuiltin dep) eqn:Hb; [done|]. simpl.
    destruct (H k dep Hin Hb) as (dm & -> & [Hp|Hs]).
    + apply orb_true_iff. left. by apply String.eqb_eq.
    + apply orb_true_iff. right. by apply bool_decide_eq_true.
Qed.

Lemma addImport_resolved (reg : list ModuleInfo)
    (es : list (string * string * string)) (a : nat) (m : Mod.t)
    (dep : Package) (st : Registry) :
  Represents reg es st → heap st !! a = Some m →
  (isBuiltin dep = false →
   ∃ dm, packages.Module_ dep = Some dm
         ∧ is_Some (modules st !! packages.Path dm)) →
  ∃ st', addImport a dep st = Ok st' ∧ modules st' = modules st.
Proof.
  intros HR Hm H. unfold addImport.
  destruct (isBuiltin dep); [by eauto|].
  destruct (H eq_refl) as (dm & -> & [b Hb]). rewrite Hb.
  destruct (proj1 (rep_wf _ _ _ HR) _ _ Hb) as (d & -> & _). rewrite Hm.
  destruct (String.eqb _ _); eauto.
Qed.

Lemma importLoop_resolved (reg : list ModuleInfo)
    (es : list (string * string * string)) (a : nat) (m : Mod.t)
    (imports : list (string * Package)) (st : Registry) :
  Represents reg es st → heap st !! a = Some m →
  (∀ k dep, (k, dep) ∈ imports → isBuiltin dep = false →
     ∃ dm, packages.Module_ dep = Some dm
           ∧ is_Some (modules st !! packages.Path dm)) →
  ∃ st', importLoop a imports st = Ok st'.
Proof.
  revert es m st. induction imports as [|[k dep] rest IH]; intros es m st HR Hm H;
    cbn [importLoop]; [by eauto|].
  destruct (addImport_resolved _ _ _ _ dep _ HR Hm) as (st1 & E & Hmod).
  { intros Hb. eapply H; [|done]. by left. }
  rewrite E. cbn [bind].
  destruct (Represents_addImport _ _ k _ _ _ _ _ HR Hm E) as [HR1 (m1 & Hm1 & _)].
  eapply IH; [done..|]. intros k' dep' Hin Hb. rewrite Hmod.
  eapply H; [|done]. by right.
Qed.

Lemma resolveModule_modules (pm : ModuleInfo) (st : Registry) (p : string) :
  p = packages.Path pm ∨ is_Some (modules st !! p) →
  is_Some (modules (resolveModule pm st).2 !! p).
Proof.
  destruct (resolveModule_cases pm st) as [(a & Ha & ->)|[Hnew ->]]; simpl.
  - intros [->|?]; [by rewrite Ha|done].
  - intros [->|?]; [by rewrite lookup_insert_eq|].
    destruct (decide (p = packages.Path pm)) as [->|?];
      [by rewrite lookup_insert_eq|by rewrite lookup_insert_ne].
Qed.

(** C10. At any point of the walk, when every import of the package
    visited next that is not builtin has a module, and that module is the
    package's own or is already registered, processing the package never
    dereferences a nil pointer; if the package has no errors either, it
    is processed to the end. *)
Theorem resolved_imports_never_nil (visited : list Package) (st : Registry)
    (pkg : Package) :
  walk visited emptyRegistry = Ok st →
  importsResolved st pkg = true →
  post pkg st ≠ Fail PanicNilDereference
  ∧ (∀ pm, pkgModule pkg = Some pm → pkgErrors pkg = [] →
           ∃ st', post pkg st = Ok st').
Proof.
  intros Hw%walk_Represents Hres.
  assert (Hok : ∀ pm, packages.Module_ pkg = Some pm → isBuiltin pkg = false →
                  ∃ st', importLoop (resolveModule pm st).1 (packages.Imports pkg)
                                    (resolveModule pm st).2 = Ok st').
  { intros pm Hpm Hb.
    assert (Hpm' : pkgModule pkg = Some pm) by (unfold pkgModule; by rewrite Hb).
    destruct (Represents_resolveModule _ _ pm _ Hw) as [HR1 (m & Hm & _)].
    eapply importLoop_resolved; [done..|].
    intros k dep Hin Hbd.
    destruct (proj1 (importsResolved_spec _ _ _ Hpm') Hres k dep Hin Hbd)
      as (dm & Hdm & Hcase).
    exists dm. split; [done|]. by apply resolveModule_modules. }
  split.
  - unfold post. destruct (isBuiltin pkg) eqn:Hb; [done|].
    destruct (pkgErrors pkg); [|done].
    destruct (packages.Module_ pkg) as [pm|] eqn:Hpm.
    + destruct (Hok pm eq_refl eq_refl) as [st' Hst'].
      destruct (resolveModule pm st). simpl in Hst'. by rewrite Hst'.
    + by repeat case_match.
  - intros pm Hpm He. unfold pkgModule in Hpm. unfold post.
    destruct (isBuiltin pkg) eqn:Hb; [done|]. rewrite He, Hpm.
    destruct (Hok pm Hpm eq_refl) as [st' Hst'].
    destruct (resolveModule pm st). eauto.
Qed.

Lemma resolved_imports_never_nil_witness :
  ∃ st, walk [sample.barX] emptyRegistry = Ok st
        ∧ importsResolved st sample.fooA = true
        ∧ post sample.fooA st ≠ Fail PanicNilDereference.
Proof.
  eexists. split; [vm_compute; reflexivity|]. split; [vm_compute; reflexivity|].
  apply (resolved_imports_never_nil [sample.barX]); vm_compute; reflexivity.
Defined.

(** Without the precondition the dereference does fail: a package visited
    before the package it imports finds no record for it. *)
Lemma unresolved_import_nil_dereference :
  importsResolved emptyRegistry sample.fooA = false
  ∧ walk [sample.fooA; sample.barX] emptyRegistry = Fail PanicNilDereference.
Proof. split; vm_compute; reflexivity. Qed.

(** So does the import of a package without a module, although that
    package itself is skipped when it is visited first. *)
Lemma module_less_import_nil_dereference :
  post sample.fooXTest emptyRegistry = Ok emptyRegistry
  ∧ importsResolved emptyRegistry sample.fooTestMain = false
  ∧ walk [sample.fooXTest; sample.fooTestMain] emptyRegistry
    = Fail PanicNilDereference.
Proof. repeat split; vm_compute; reflexivity. Qed.

(** ** The conventional vendoring location *)

Lemma append_String (a : ascii) (s t : string) :
  String a s +:+ t = String a (s +:+ t).
Proof. reflexivity. Qed.

Lemma Split_append (s1 s2 : string) (sep : ascii) :
  strings.Split (s1 +:+ String sep s2) sep
  = strings.Split s1 sep ++ strings.Split s2 sep.
Proof.
  induction s1 as [|a t IH].
  - change (EmptyString +:+ String sep s2) with (String sep s2).
    simpl. by rewrite Ascii.eqb_refl.
  - rewrite append_String. simpl. rewrite IH.
    destruct (Ascii.eqb a sep); [done|].
    pose proof (Split_nonempty t sep).
    by destruct (strings.Split t sep).
Qed.

Lemma cleanStep_fold (rooted : bool) (names out : list string) :
  forallb cleanName names = true →
  fold_left (slashpath.cleanStep rooted) names out = reverse names ++ out.
Proof.
  revert out. induction names as [|name rest IH]; intros out; simpl; [done|].
  intros [Hn Hr]%andb_true_iff. rewrite reverse_cons, <- app_assoc. simpl.
  rewrite <- IH by done. f_equal.
  unfold slashpath.cleanStep, cleanName in *.
  apply negb_true_iff, orb_false_iff in Hn as [-> ->]. done.
Qed.

(** On a clean path [Join] is plain concatenation under the fixed root. *)
Lemma Join_vendor (p : string) :
  isCleanPath p = true →
  slashpath.Join ["third_party/gopkgs"; p] = "third_party/gopkgs/" +:+ p.
Proof.
  intros Hp. unfold slashpath.Join.
  change (slashpath.joinBuf "" ["third_party/gopkgs"; p])
    with ("third_party/gopkgs" +:+ String "/" p).
  simpl fold_right. cbn [Nat.add Nat.eqb].
  change ("third_party/gopkgs/" +:+ p) with ("third_party/gopkgs" +:+ String "/" p).
  unfold slashpath.Clean.
  change (String.eqb ("third_party/gopkgs" +:+ String "/" p) "") with false.
  change (strings.HasPrefix ("third_party/gopkgs" +:+ String "/" p) "/") with false.
  cbv iota.
  rewrite Split_append.
  rewrite cleanStep_fold.
  2:{ change (strings.Split "third_party/gopkgs" "/") with ["third_party"; "gopkgs"].
      simpl. exact Hp. }
  rewrite app_nil_r, reverse_involutive, <- Split_append.
  change "/"%string with (String "/" EmptyString) at 1.
  rewrite (Join_Split _ "/").
  reflexivity.
Qed.

Lemma vendorPath_Join (p : string) :
  isCleanPath p = true →
  "./" +:+ slashpath.Join ["third_party/gopkgs"; p] = vendorPath p.
Proof. intros Hp. by rewrite Join_vendor. Qed.

(** ** C5: modules replaced by a local path *)

(** C5. For an external module whose replace path is local (begins with
    a dot) and whose path is a clean slash-separated path: when the
    replace path differs from ./third_party/gopkgs/ followed by the module
    path, the run ends there with a diagnostic on standard error and exit
    status 1, nothing having been hashed or written for the module; when
    it equals it, nothing is emitted for the module and the loop goes on
    with the remaining modules. *)
Theorem local_replace_follows_convention
    (isPrintWide : Z → bool) (hashDir : string → string + string)
    (writeError : string → string → string → option string) (ro : RangeOrder)
    (st : Registry) (path : string) (rest : list Path) (a : nat) (m : Mod.t)
    (tr : list Event) :
  modules st !! path = Some a → heap st !! a = Some m →
  Mod.IsExternal m = true → isLocalReplace m = true →
  isCleanPath (Mod.Path m) = true →
  (Mod.ReplacePath m ≠ vendorPath (Mod.Path m) →
   emitLoop isPrintWide hashDir writeError ro st (path :: rest) tr
   = (Fail (Exit1 ("replace points at //" +:+ Mod.ReplacePath m
                   +:+ ", expected it to point at //third_party/gopkgs/"
                   +:+ Mod.Path m +:+ nl)), tr))
  ∧ (Mod.ReplacePath m = vendorPath (Mod.Path m) →
     emitLoop isPrintWide hashDir writeError ro st (path :: rest) tr
     = emitLoop isPrintWide hashDir writeError ro st rest tr).
Proof.
  intros Ha Hm Hext Hloc Hclean.
  assert (Hone : emitLoop isPrintWide hashDir writeError ro st (path :: rest) tr
                 = iobind (emitModule isPrintWide hashDir writeError ro m)
                          (λ _, emitLoop isPrintWide hashDir writeError ro st rest) tr).
  { cbn [emitLoop]. rewrite Ha. simpl. by rewrite Hm. }
  rewrite Hone. unfold iobind, emitModule.
  rewrite Hext. cbn [negb]. unfold isLocalReplace in Hloc. rewrite Hloc.
  rewrite vendorPath_Join, Join_vendor by done.
  split; intros Hr.
  - apply String.eqb_neq in Hr. rewrite Hr. reflexivity.
  - apply String.eqb_eq in Hr. rewrite Hr. reflexivity.
Qed.

Lemma local_replace_follows_convention_witness :
  modules sample.vendoredRegistry !! "alpha.example/foo" = Some 0%nat
  ∧ heap sample.vendoredRegistry !! 0%nat = Some sample.vendored
  ∧ Mod.IsExternal sample.vendored = true
  ∧ isLocalReplace sample.vendored = true
  ∧ isCleanPath (Mod.Path sample.vendored) = true
  ∧ Mod.ReplacePath sample.vendored = vendorPath (Mod.Path sample.vendored)
  ∧ emitLoop sample.isPrintWide sample.hashDir sample.writeError sample.inOrder
      sample.vendoredRegistry ["alpha.example/foo"] []
    = (Ok tt, []).
Proof.
  do 6 (split; [vm_compute; reflexivity|]).
  apply (local_replace_follows_convention
           sample.isPrintWide sample.hashDir sample.writeError sample.inOrder
           sample.vendoredRegistry "alpha.example/foo" [] 0%nat sample.vendored []);
    vm_compute; reflexivity.
Defined.

(** A replace path elsewhere in the tree ends the run with exit status 1
    and nothing written. *)
Lemma misplaced_replace_exits :
  emitAll sample.isPrintWide sample.hashDir sample.writeError sample.inOrder
    sample.misplacedRegistry []
  = (Fail (Exit1 ("replace points at //./vendor/foo, expected it to point at "
                  +:+ "//third_party/gopkgs/alpha.example/foo" +:+ nl)), []).
Proof. vm_compute. reflexivity. Qed.

(** ** C9: hashing needs a source directory *)

(** C9. When the content hash of a module without a source directory is
    requested, the request panics with a message naming the module and
    nothing is hashed; rendering the descriptor fails with it, and so does
    the emission of the module, with nothing written. A module is hashed
    only when its source directory is not empty. *)
Theorem hash_needs_source_dir
    (isPrintWide : Z → bool) (hashDir : string → string + string)
    (writeError : string → string → string → option string) (ro : RangeOrder)
    (m : Mod.t) (tr : list Event) :
  (Mod.Dir m = "" →
   ModSHA256 hashDir m tr
   = (Fail (PanicError ("module without a dir: " +:+ Mod.Path m)), tr)
   ∧ Execute isPrintWide hashDir ro m tr
     = (Fail (PanicError ("module without a dir: " +:+ Mod.Path m)), tr)
   ∧ (Mod.IsExternal m = true → isLocalReplace m = false →
      emitModule isPrintWide hashDir writeError ro m tr
      = (Fail (PanicError ("module without a dir: " +:+ Mod.Path m)), tr)))
  ∧ (Mod.Dir m ≠ "" →
     ModSHA256 hashDir m tr
     = (match hashDir (Mod.Dir m) with
        | inl digest => Ok digest
        | inr err => Fail (PanicIO err)
        end, tr ++ [Hashed (Mod.Dir m)])).
Proof.
  split.
  - intros Hd.
    assert (H1 : ModSHA256 hashDir m tr
                 = (Fail (PanicError ("module without a dir: " +:+ Mod.Path m)), tr)).
    { unfold ModSHA256. by rewrite Hd. }
    split; [done|]. split.
    + unfold Execute, iobind. by rewrite H1.
    + intros Hext Hloc. unfold emitModule. rewrite Hext. cbn [negb].
      unfold isLocalReplace in Hloc. rewrite Hloc.
      unfold iobind, Execute, iobind. by rewrite H1.
  - intros Hd%String.eqb_neq. unfold ModSHA256. rewrite Hd.
    unfold iobind, emit, ret, fail. by destruct (hashDir (Mod.Dir m)).
Qed.

Lemma hash_needs_source_dir_witness :
  Mod.Dir sample.noDir = ""
  ∧ ModSHA256 sample.hashDir sample.noDir []
    = (Fail (PanicError "module without a dir: alpha.example/foo"), []).
Proof.
  split; [reflexivity|].
  apply (hash_needs_source_dir sample.isPrintWide sample.hashDir
           sample.writeError sample.inOrder sample.noDir []).
  reflexivity.
Defined.

(** ** Sorting *)

Lemma sortPaths_Sorted (xs : list Path) : Sorted String.le (sortPaths xs).
Proof. apply (Sorted_merge_sort String.le). Qed.

Lemma sortPaths_Permutation (xs : list Path) : sortPaths xs ≡ₚ xs.
Proof. apply (merge_sort_Permutation String.le). Qed.

(** The sorted arrangement of a list of paths is unique, so [sortPaths]
    yields what any correct sort yields. *)
Lemma sortPaths_unique (xs ys : list Path) :
  Sorted String.le ys → ys ≡ₚ xs → ys = sortPaths xs.
Proof.
  intros Hs Hp. apply (Sorted_unique String.le); [done|apply sortPaths_Sorted|].
  by rewrite sortPaths_Permutation.
Qed.

Lemma sortPaths_order_independent (xs ys : list Path) :
  xs ≡ₚ ys → sortPaths xs = sortPaths ys.
Proof.
  intros Hp. apply sortPaths_unique; [apply sortPaths_Sorted|].
  by rewrite sortPaths_Permutation.
Qed.

(** ** Dependency lists *)

Lemma bind_Permutation_pointwise {A B : Type} (f g : A → list B) (l : list A) :
  (∀ x, f x ≡ₚ g x) → l ≫= f ≡ₚ l ≫= g.
Proof.
  intros H. induction l as [|x l IH]; simpl; [done|]. by rewrite H, IH.
Qed.

(** The dependency list is the sorted arrangement of the packages of all
    dependency sets, whatever the order of iteration. *)
Lemma Imports_Permutation (ro : RangeOrder) (m : Mod.t) :
  Imports ro m
  ≡ₚ map_to_list (Mod.Deps m) ≫= (λ dep : nat * gset string, elements dep.2).
Proof.
  unfold Imports. rewrite sortPaths_Permutation, range_Permutation.
  apply bind_Permutation_pointwise. intros dep. apply range_Permutation.
Qed.

Lemma occurrences_Permutation (p : string) (l k : list string) :
  l ≡ₚ k → occurrences p l = occurrences p k.
Proof. intros H. unfold occurrences. by rewrite H. Qed.

Lemma occurrences_app (p : string) (l k : list string) :
  occurrences p (l ++ k) = (occurrences p l + occurrences p k)%nat.
Proof. unfold occurrences. by rewrite filter_app, length_app. Qed.

Lemma occurrences_absent (p : string) (l : list string) :
  p ∉ l → occurrences p l = 0%nat.
Proof.
  unfold occurrences. induction l as [|x l IH]; intros H; [done|].
  apply not_elem_of_cons in H as [Hne Hl].
  rewrite filter_cons_False by congruence. by apply IH.
Qed.

Lemma occurrences_NoDup (p : string) (l : list string) :
  NoDup l → p ∈ l → occurrences p l = 1%nat.
Proof.
  unfold occurrences. induction 1 as [|x l Hx Hnd IH]; intros Hin.
  - by apply elem_of_nil in Hin.
  - apply elem_of_cons in Hin as [->|Hin].
    + rewrite filter_cons_True by done. simpl. f_equal.
      by apply (occurrences_absent x l).
    + rewrite filter_cons_False; [by apply IH|]. intros ->. done.
Qed.

Lemma DepAdd_idempotent (m : Mod.t) (d : nat) (p : string) :
  Mod.DepAdd (Mod.DepAdd m d p) d p = Mod.DepAdd m d p.
Proof.
  pose proof (DepAdd_Deps (Mod.DepAdd m d p) d p) as H2.
  pose proof (DepAdd_metaOf (Mod.DepAdd m d p) d p) as M2.
  rewrite (DepAdd_Deps m d p), lookup_insert_eq in H2. simpl in H2.
  rewrite insert_insert_eq in H2.
  assert (Hs : {[p]} ∪ ({[p]} ∪ default ∅ (Mod.Deps m !! d))
               = ({[p]} ∪ default ∅ (Mod.Deps m !! d) : gset string)).
  { apply set_eq. intros x. rewrite !elem_of_union. tauto. }
  rewrite Hs, <- (DepAdd_Deps m d p) in H2.
  destruct (Mod.DepAdd (Mod.DepAdd m d p) d p), (Mod.DepAdd m d p).
  unfold metaOf in M2. simpl in *. congruence.
Qed.

Lemma addTimes_once (n : nat) (m : Mod.t) (d : nat) (p : string) :
  addTimes (S n) m d p = Mod.DepAdd m d p.
Proof.
  induction n as [|n IH]; [done|].
  change (addTimes (S (S n)) m d p) with (Mod.DepAdd (addTimes (S n) m d p) d p).
  by rewrite IH, DepAdd_idempotent.
Qed.

(** ** C8: dependency edges are sets *)

(** C8. However many times, at least once, a package path is added to
    the dependency set of a pair of modules, the outcome is that of adding
    it once: the set holds the path exactly once, and holds nothing else
    when the pair had no set before; and when no other dependency set of
    the importer holds that path, the dependency list of the importer's
    descriptor lists it exactly once. *)
Theorem repeated_import_listed_once (ro : RangeOrder) (n : nat) (m : Mod.t)
    (d : nat) (p : string) :
  (0 < n)%nat →
  addTimes n m d p = Mod.DepAdd m d p
  ∧ (∃ s, Mod.Deps (addTimes n m d p) !! d = Some s
          ∧ p ∈ s ∧ occurrences p (elements s) = 1%nat)
  ∧ (Mod.Deps m !! d = None →
     Mod.Deps (addTimes n m d p) !! d = Some {[ p ]})
  ∧ ((∀ d' s', d' ≠ d → Mod.Deps m !! d' = Some s' → p ∉ s') →
     occurrences p (Imports ro (addTimes n m d p)) = 1%nat).
Proof.
  intros Hn. destruct n as [|n]; [lia|]. rewrite addTimes_once.
  split; [done|].
  set (s := ({[p]} ∪ default ∅ (Mod.Deps m !! d) : gset string)).
  assert (Hp : p ∈ s) by (apply elem_of_union; left; by apply elem_of_singleton).
  assert (H1 : occurrences p (elements s) = 1%nat).
  { apply occurrences_NoDup; [apply NoDup_elements|by apply elem_of_elements]. }
  split; [|split].
  - exists s. by rewrite DepAdd_Deps, lookup_insert_eq.
  - intros Hnone. rewrite DepAdd_Deps, lookup_insert_eq, Hnone. simpl.
    by rewrite (right_id_L ∅ (∪)).
  - intros Hother.
    rewrite (occurrences_Permutation _ _ _ (Imports_Permutation ro _)).
    rewrite DepAdd_Deps. fold s.
    rewrite <- insert_delete_eq.
    rewrite (occurrences_Permutation _ _
               (((d, s) :: map_to_list (delete d (Mod.Deps m)))
                  ≫= (λ dep : nat * gset string, elements dep.2))).
    2:{ apply bind_Permutation, map_to_list_insert, lookup_delete_eq. }
    simpl. rewrite occurrences_app, H1.
    rewrite occurrences_absent; [done|].
    intros ([d' s'] & Hin & Hds)%list_elem_of_bind. simpl in *.
    apply elem_of_map_to_list in Hds.
    apply lookup_delete_Some in Hds as [Hne Hds].
    apply elem_of_elements in Hin. by eapply Hother.
Qed.

Lemma repeated_import_listed_once_witness :
  (0 < 2)%nat
  ∧ addTimes 2 (newModule sample.fooMod) 0 "beta.example/bar/x"
    = Mod.DepAdd (newModule sample.fooMod) 0 "beta.example/bar/x".
Proof.
  split; [lia|].
  apply (repeated_import_listed_once sample.inOrder 2 (newModule sample.fooMod)
           0 "beta.example/bar/x").
  lia.
Defined.

(** ** The registry determines the output *)

Lemma depPairs_snd (st : Registry) (m : Mod.t) :
  (depPairs st m).*2
  = map_to_list (Mod.Deps m) ≫= (λ dep : nat * gset string, elements dep.2).
Proof.
  unfold depPairs. induction (map_to_list (Mod.Deps m)) as [|[b s] l IH]; [done|].
  rewrite !bind_cons, fmap_app, IH. f_equal.
  rewrite <- list_fmap_compose. apply list_fmap_id.
Qed.

Lemma pathAt_inj (reg : list ModuleInfo) (es : list (string * string * string))
    (st : Registry) (b1 b2 : nat) :
  Represents reg es st →
  is_Some (heap st !! b1) → is_Some (heap st !! b2) →
  pathAt st b1 = pathAt st b2 → b1 = b2.
Proof.
  intros HR [d1 H1] [d2 H2]. unfold pathAt. rewrite H1, H2. intros Hp.
  apply (proj2 (rep_wf _ _ _ HR)) in H1, H2. congruence.
Qed.

Lemma depPairs_NoDup (reg : list ModuleInfo) (es : list (string * string * string))
    (st : Registry) (a : nat) (m : Mod.t) :
  Represents reg es st → heap st !! a = Some m → NoDup (depPairs st m).
Proof.
  intros HR Hm. unfold depPairs. apply NoDup_bind.
  - intros [b1 s1] [b2 s2] [q x] H1%elem_of_map_to_list H2%elem_of_map_to_list.
    simpl. intros (x1 & [= -> ->] & _)%list_elem_of_fmap
                  (x2 & [= Hq _] & _)%list_elem_of_fmap.
    assert (b1 = b2) as ->.
    { eapply pathAt_inj; [done|by eapply rep_keys..|done]. }
    congruence.
  - intros [b s] _. simpl. apply NoDup_fmap_2_strong; [|apply NoDup_elements].
    by intros x y _ _ [= ->].
  - apply NoDup_map_to_list.
Qed.

Lemma depPairs_elem (reg : list ModuleInfo) (es : list (string * string * string))
    (st : Registry) (a : nat) (m : Mod.t) (q x : string) :
  Represents reg es st → heap st !! a = Some m →
  (q, x) ∈ depPairs st m ↔ (Mod.Path m, q, x) ∈ es.
Proof.
  intros HR Hm. rewrite (rep_edges _ _ _ HR). unfold depPairs. split.
  - intros ([b s] & (x' & [= -> ->] & Hx%elem_of_elements)%list_elem_of_fmap
            & Hb%elem_of_map_to_list)%list_elem_of_bind.
    simpl in *. destruct (rep_keys _ _ _ HR _ _ _ _ Hm Hb) as [d Hd].
    exists a, m, b, d, s. unfold pathAt. rewrite Hd. done.
  - intros (a' & m' & b & d & s & Hm' & Hp & Hb & Hx & Hd & Hq).
    assert (a' = a) as ->.
    { apply (proj2 (rep_wf _ _ _ HR)) in Hm, Hm'. congruence. }
    assert (m' = m) as -> by congruence.
    apply list_elem_of_bind. exists (b, s). split.
    + simpl. apply list_elem_of_fmap. exists x. split.
      * unfold pathAt. rewrite Hd. by rewrite Hq.
      * by apply elem_of_elements.
    + by apply elem_of_map_to_list.
Qed.

Lemma Imports_determined (ro1 ro2 : RangeOrder)
    (reg1 reg2 : list ModuleInfo) (es1 es2 : list (string * string * string))
    (st1 st2 : Registry) (a1 a2 : nat) (m1 m2 : Mod.t) :
  Represents reg1 es1 st1 → Represents reg2 es2 st2 →
  (∀ e, e ∈ es1 ↔ e ∈ es2) →
  heap st1 !! a1 = Some m1 → heap st2 !! a2 = Some m2 →
  Mod.Path m1 = Mod.Path m2 →
  Imports ro1 m1 = Imports ro2 m2.
Proof.
  intros HR1 HR2 Hes H1 H2 Hp.
  transitivity (sortPaths ((depPairs st1 m1).*2)).
  { apply sortPaths_unique; [apply sortPaths_Sorted|].
    by rewrite depPairs_snd, Imports_Permutation. }
  symmetry. apply sortPaths_unique; [apply sortPaths_Sorted|].
  rewrite Imports_Permutation, <- (depPairs_snd st2).
  apply fmap_Permutation, NoDup_Permutation; [by eapply depPairs_NoDup..|].
  intros [q x]. rewrite !depPairs_elem by done. by rewrite Hp, Hes.
Qed.

Lemma elem_of_keys (ms : gmap string nat) (p : string) :
  p ∈ (map_to_list ms).*1 ↔ is_Some (ms !! p).
Proof.
  rewrite list_elem_of_fmap. split.
  - intros ([p' a] & -> & H%elem_of_map_to_list). by eexists.
  - intros [a Ha]. exists (p, a). split; [done|]. by apply elem_of_map_to_list.
Qed.

Lemma sortedPaths_determined (ro1 ro2 : RangeOrder) (st1 st2 : Registry) :
  (∀ p, is_Some (modules st1 !! p) ↔ is_Some (modules st2 !! p)) →
  sortedPaths ro1 st1 = sortedPaths ro2 st2.
Proof.
  intros H. unfold sortedPaths. apply sortPaths_order_independent.
  rewrite !range_Permutation.
  apply NoDup_Permutation; [apply NoDup_fst_map_to_list..|].
  intros p. by rewrite !elem_of_keys.
Qed.

Lemma emitModule_determined
    (isPrintWide : Z → bool) (hashDir : string → string + string)
    (writeError : string → string → string → option string)
    (ro1 ro2 : RangeOrder) (m1 m2 : Mod.t) (tr : list Event) :
  metaOf m1 = metaOf m2 → Imports ro1 m1 = Imports ro2 m2 →
  emitModule isPrintWide hashDir writeError ro1 m1 tr
  = emitModule isPrintWide hashDir writeError ro2 m2 tr.
Proof.
  unfold metaOf. intros [= Hp Hv Hd Hr] Hi.
  unfold emitModule, Execute, ModSHA256, Mod.IsExternal.
  by rewrite Hp, Hv, Hd, Hr, Hi.
Qed.

Lemma emitLoop_determined
    (isPrintWide : Z → bool) (hashDir : string → string + string)
    (writeError : string → string → string → option string)
    (ro1 ro2 : RangeOrder)
    (reg1 reg2 : list ModuleInfo) (es1 es2 : list (string * string * string))
    (st1 st2 : Registry) (paths : list Path) (tr : list Event) :
  Represents reg1 es1 st1 → Represents reg2 es2 st2 →
  (∀ pm, pm ∈ reg1 ↔ pm ∈ reg2) → (∀ e, e ∈ es1 ↔ e ∈ es2) →
  (∀ pm qm, pm ∈ reg1 → qm ∈ reg1 → packages.Path pm = packages.Path qm →
            metaOf (newModule pm) = metaOf (newModule qm)) →
  emitLoop isPrintWide hashDir writeError ro1 st1 paths tr
  = emitLoop isPrintWide hashDir writeError ro2 st2 paths tr.
Proof.
  intros HR1 HR2 Hreg Hes Hagree. revert tr.
  induction paths as [|p rest IH]; intros tr; [done|]. cbn [emitLoop].
  destruct (modules st1 !! p) as [a1|] eqn:E1.
  - destruct (proj1 (rep_wf _ _ _ HR1) _ _ E1) as (m1 & Hm1 & Hp1).
    assert (is_Some (modules st2 !! p)) as [a2 E2].
    { apply (rep_dom _ _ _ HR2). setoid_rewrite <- Hreg.
      apply (rep_dom _ _ _ HR1). by rewrite E1. }
    destruct (proj1 (rep_wf _ _ _ HR2) _ _ E2) as (m2 & Hm2 & Hp2).
    rewrite E2. simpl. rewrite Hm1, Hm2.
    assert (Hmeta : metaOf m1 = metaOf m2).
    { destruct (rep_meta _ _ _ HR1 _ _ Hm1) as (pm1 & Hin1 & M1).
      destruct (rep_meta _ _ _ HR2 _ _ Hm2) as (pm2 & Hin2 & M2).
      rewrite M1, M2. apply Hagree; [done|by apply Hreg|].
      destruct (newModule_fields pm1) as [<- _].
      destruct (newModule_fields pm2) as [<- _].
      unfold metaOf in M1, M2. congruence. }
    assert (Himp : Imports ro1 m1 = Imports ro2 m2).
    { eapply Imports_determined; [exact HR1|exact HR2|done..|congruence]. }
    unfold iobind.
    rewrite (emitModule_determined _ _ _ ro1 ro2 m1 m2 tr Hmeta Himp).
    destruct (emitModule _ _ _ _ m2 tr) as [[[]|f] tr']; [apply IH|done].
  - assert (modules st2 !! p = None) as ->; [|done].
    apply eq_None_not_Some. intros Hs.
    apply (rep_dom _ _ _ HR2) in Hs. setoid_rewrite <- Hreg in Hs.
    apply (rep_dom _ _ _ HR1) in Hs. rewrite E1 in Hs. by destruct Hs.
Qed.

(** ** Two traversals of one graph *)

Lemma reorderedImports_pkgModule (p q : Package) :
  reorderedImports p q → pkgModule p = pkgModule q.
Proof.
  intros (_ & Hp & _ & Hm & _). unfold pkgModule, isBuiltin. by rewrite Hp, Hm.
Qed.

Lemma reordered_modulesOf (v1 v : list Package) :
  Forall2 reorderedImports v1 v → modulesOf v1 = modulesOf v.
Proof.
  induction 1 as [|p q v1 v Hpq _ IH]; [done|].
  rewrite (modulesOf_cons p), (modulesOf_cons q), IH. f_equal.
  unfold modulesOf. simpl. by rewrite (reorderedImports_pkgModule p q).
Qed.

Lemma reordered_edgesOf (v1 v : list Package) :
  Forall2 reorderedImports v1 v → edgesOf v1 ≡ₚ edgesOf v.
Proof.
  induction 1 as [|p q v1 v Hpq _ IH]; [done|].
  rewrite (edgesOf_cons p), (edgesOf_cons q), IH.
  apply Permutation_app_tail. unfold edgesOf. simpl. rewrite !app_nil_r.
  rewrite (reorderedImports_pkgModule p q) by done.
  destruct (pkgModule q); [|done].
  destruct Hpq as (_ & _ & _ & _ & Hi). unfold edgesFrom. by rewrite Hi.
Qed.

Lemma sameGraph_contributions (v1 v2 : list Package) :
  sameGraph v1 v2 →
  modulesOf v1 ≡ₚ modulesOf v2 ∧ edgesOf v1 ≡ₚ edgesOf v2.
Proof.
  intros (v & Hf & Hp). split.
  - rewrite (reordered_modulesOf v1 v) by done. unfold modulesOf. by rewrite Hp.
  - rewrite (reordered_edgesOf v1 v) by done. unfold edgesOf. by rewrite Hp.
Qed.

(** ** C1: the output does not depend on the order of traversal *)

(** C1. Take two runs over the same package graph: the packages are
    visited in different orders, the import map of a package is ranged
    over in different orders, and so is every map during emission. When
    the loader describes each module alike on all its packages and both
    walks complete, the two runs hash and write the same things in the
    same sequence, with byte-identical descriptors, and end alike. The
    modules are taken in ascending order of their paths, and each
    dependency list is sorted. *)
Theorem output_independent_of_traversal
    (isPrintWide : Z → bool) (hashDir : string → string + string)
    (writeError : string → string → string → option string)
    (ro1 ro2 : RangeOrder) (v1 v2 : list Package) (st1 st2 : Registry) :
  sameGraph v1 v2 → ModulesAgree v1 →
  walk v1 emptyRegistry = Ok st1 → walk v2 emptyRegistry = Ok st2 →
  run isPrintWide hashDir writeError ro1 v1
  = run isPrintWide hashDir writeError ro2 v2
  ∧ sortedPaths ro1 st1 = sortedPaths ro2 st2
  ∧ Sorted String.le (sortedPaths ro1 st1)
  ∧ (∀ a m, heap st1 !! a = Some m →
            Imports ro1 m = Imports ro2 m ∧ Sorted String.le (Imports ro1 m)).
Proof.
  intros [Hreg Hes]%sameGraph_contributions Hagree Hw1 Hw2.
  pose proof (walk_Represents _ _ Hw1) as HR1.
  pose proof (walk_Represents _ _ Hw2) as HR2.
  assert (Hreg' : ∀ pm, pm ∈ modulesOf v1 ↔ pm ∈ modulesOf v2)
    by (intros pm; by rewrite Hreg).
  assert (Hes' : ∀ e, e ∈ edgesOf v1 ↔ e ∈ edgesOf v2)
    by (intros e; by rewrite Hes).
  assert (Hpaths : sortedPaths ro1 st1 = sortedPaths ro2 st2).
  { apply sortedPaths_determined. intros p.
    rewrite (rep_dom _ _ _ HR1), (rep_dom _ _ _ HR2).
    by setoid_rewrite Hreg'. }
  split; [|split; [done|split; [apply sortPaths_Sorted|]]].
  - unfold run, emitAll. rewrite Hw1, Hw2, Hpaths.
    by eapply emitLoop_determined.
  - intros a m Hm. split; [|apply sortPaths_Sorted].
    by eapply (Imports_determined ro1 ro2 _ _ _ _ st1 st1).
Qed.

Lemma sample_sameGraph :
  sameGraph [sample.barX; sample.fooA; sample.fooB]
            [sample.barX; sample.fooB; sample.fooA'].
Proof.
  exists [sample.barX; sample.fooA'; sample.fooB]. split.
  - repeat constructor.
  - apply perm_skip, perm_swap.
Qed.

Lemma sample_ModulesAgree :
  ModulesAgree [sample.barX; sample.fooA; sample.fooB].
Proof.
  intros pm qm.
  change (modulesOf [sample.barX; sample.fooA; sample.fooB])
    with [sample.barMod; sample.fooMod; sample.fooMod].
  rewrite !elem_of_cons, !elem_of_nil.
  intros [->|[->|[->|[]]]] [->|[->|[->|[]]]] Hp; done.
Qed.

Lemma output_independent_of_traversal_witness :
  ∃ st1 st2,
    sameGraph [sample.barX; sample.fooA; sample.fooB]
              [sample.barX; sample.fooB; sample.fooA']
    ∧ ModulesAgree [sample.barX; sample.fooA; sample.fooB]
    ∧ walk [sample.barX; sample.fooA; sample.fooB] emptyRegistry = Ok st1
    ∧ walk [sample.barX; sample.fooB; sample.fooA'] emptyRegistry = Ok st2
    ∧ run sample.isPrintWide sample.hashDir sample.writeError sample.inOrder
          [sample.barX; sample.fooA; sample.fooB]
      = run sample.isPrintWide sample.hashDir sample.writeError sample.reversed
            [sample.barX; sample.fooB; sample.fooA'].
Proof.
  eexists _, _.
  split; [exact sample_sameGraph|]. split; [exact sample_ModulesAgree|].
  split; [vm_compute; reflexivity|]. split; [vm_compute; reflexivity|].
  eapply (output_independent_of_traversal
            sample.isPrintWide sample.hashDir sample.writeError
            sample.inOrder sample.reversed);
    [exact sample_sameGraph|exact sample_ModulesAgree
    |vm_compute; reflexivity|vm_compute; reflexivity].
Defined.

(** ** The scenario of the specification *)

(** Two packages of one module import the same package of another module:
    the importer's descriptor lists that package once, and the imported
    module's descriptor has no dependency list. *)
Lemma scenario_two_importers :
  ∃ st foo bar,
    walk [sample.barX; sample.fooA; sample.fooB] emptyRegistry = Ok st
    ∧ (modules st !! "alpha.example/foo" ≫= λ a, heap st !! a) = Some foo
    ∧ (modules st !! "beta.example/bar" ≫= λ a, heap st !! a) = Some bar
    ∧ Imports sample.inOrder foo = ["beta.example/bar/x"]
    ∧ Imports sample.inOrder bar = []
    ∧ sortedPaths sample.inOrder st = ["alpha.example/foo"; "beta.example/bar"].
Proof.
  eexists _, _, _. split; [vm_compute; reflexivity|].
  split; [vm_compute; reflexivity|]. split; [vm_compute; reflexivity|].
  split; [vm_compute; reflexivity|]. split; vm_compute; reflexivity.
Qed.

(** ** Emission meets no address outside the heap *)

Lemma emitModule_allocated
    (isPrintWide : Z → bool) (hashDir : string → string + string)
    (writeError : string → string → string → option string) (ro : RangeOrder)
    (m : Mod.t) (tr : list Event) :
  (emitModule isPrintWide hashDir writeError ro m tr).1 ≠ Fail Unallocated.
Proof.
  unfold emitModule, Execute, ModSHA256, writeFile, iobind, emit, ret, fail.
  repeat (case_match; simplify_eq/=; try done).
Qed.

Lemma emitAll_never_unallocated
    (isPrintWide : Z → bool) (hashDir : string → string + string)
    (writeError : string → string → string → option string) (ro : RangeOrder)
    (visited : list Package) :
  (run isPrintWide hashDir writeError ro visited).1 ≠ Fail Unallocated.
Proof.
  unfold run. destruct (walk visited emptyRegistry) as [st|f] eqn:Hw.
  2:{ simpl. intros [= ->]. by apply walk_never_unallocated in Hw. }
  apply walk_Represents in Hw. unfold emitAll.
  assert (Hk : ∀ p, p ∈ sortedPaths ro st → is_Some (modules st !! p)).
  { intros p. unfold sortedPaths.
    by rewrite sortPaths_Permutation, range_Permutation, elem_of_keys. }
  generalize (@nil Event).
  induction (sortedPaths ro st) as [|p rest IH]; intros tr; [done|].
  cbn [emitLoop]. destruct (Hk p) as [a Ha]; [by left|]. rewrite Ha. simpl.
  destruct (proj1 (rep_wf _ _ _ Hw) _ _ Ha) as (m & -> & _).
  unfold iobind.
  pose proof (emitModule_allocated isPrintWide hashDir writeError ro m tr) as Hm.
  destruct (emitModule isPrintWide hashDir writeError ro m tr) as [[[]|f] tr'].
  - apply IH. intros q Hq. apply Hk. by right.
  - simpl in *. done.
Qed.

(** ** Quoting *)

Lemma decode_rest_length (c0 : ascii) (t : string) (r : Z) (raw rest : string) :
  strconv.decode c0 t = strconv.Rune r raw rest →
  (String.length rest ≤ String.length t)%nat.
Proof.
  unfold strconv.decode.
  repeat (case_match; simplify_eq/=; try done); intros; simplify_eq/=; lia.
Qed.

(** The bound on the number of runes does not cut the loop short: any
    bound from the length of the string on gives the same text. *)
Lemma escape_enough (isPrintWide : Z → bool) (n k : nat) (s : string) :
  (String.length s ≤ n)%nat → (String.length s ≤ k)%nat →
  strconv.escape isPrintWide n s = strconv.escape isPrintWide k s.
Proof.
  revert k s. induction n as [|n IH]; intros k s Hn Hk.
  - destruct s; simpl in *; [by destruct k|lia].
  - destruct s as [|c0 t]; [by destruct k|].
    destruct k as [|k]; simpl in Hn, Hk; [lia|].
    cbn [strconv.escape].
    destruct (strconv.decode c0 t) as [|r raw rest] eqn:Hd.
    + do 2 f_equal. apply IH; lia.
    + apply decode_rest_length in Hd. f_equal. apply IH; lia.
Qed.

Lemma escape_plain (isPrintWide : Z → bool) (s : string) :
  allBytes plainByte s = true →
  strconv.escape isPrintWide (String.length s) s = s.
Proof.
  induction s as [|c t IH]; [done|]. simpl.
  intros [Hc Ht]%andb_true_iff.
  unfold plainByte in Hc.
  apply andb_true_iff in Hc as [[[H1 H2]%andb_true_iff H3]%andb_true_iff H4].
  apply negb_true_iff in H3, H4. apply Z.leb_le in H1. apply Z.ltb_lt in H2.
  unfold strconv.decode.
  destruct (Z.ltb_spec (strconv.byte c) 128); [|lia].
  unfold strconv.escapedRune, strconv.IsPrint. rewrite H3, H4. simpl.
  destruct (Z.leb_spec (strconv.byte c) 255); [|lia].
  destruct (Z.leb_spec 32 (strconv.byte c)); [|lia].
  destruct (Z.ltb_spec (strconv.byte c) 127); [|lia].
  cbn [andb orb]. by rewrite (IH Ht).
Qed.

(** A segment made of such bytes is quoted by putting it between double
    quotes. *)
Lemma Quote_plain (isPrintWide : Z → bool) (s : string) :
  allBytes plainByte s = true →
  strconv.Quote isPrintWide s = dq +:+ s +:+ dq.
Proof. intros H. unfold strconv.Quote. by rewrite escape_plain. Qed.

(** A path that is not clean is cleaned by [Join] before the comparison
    with the replace path. *)
Lemma Join_cleans_module_path :
  isCleanPath "alpha.example//foo" = false
  ∧ slashpath.Join ["third_party/gopkgs"; "alpha.example//foo"]
    = "third_party/gopkgs/alpha.example/foo".
Proof. split; vm_compute; reflexivity. Qed.

(** ** Any order of iteration *)

(** Whatever arrangement of the packages of the dependency sets a run
    collects, sorting it gives the dependency list. *)
Lemma Imports_any_order (ro : RangeOrder) (m : Mod.t) (collected : list Path) :
  collected
    ≡ₚ map_to_list (Mod.Deps m) ≫= (λ dep : nat * gset string, elements dep.2) →
  sortPaths collected = Imports ro m.
Proof.
  intros H. symmetry. apply sortPaths_unique; [apply sortPaths_Sorted|].
  by rewrite H, Imports_Permutation.
Qed.

(** Whatever arrangement of the keys of the registry a run collects,
    sorting it gives the order of emission. *)
Lemma sortedPaths_any_order (ro : RangeOrder) (st : Registry) (collected : list Path) :
  collected ≡ₚ (map_to_list (modules st)).*1 →
  sortPaths collected = sortedPaths ro st.
Proof.
  intros H. apply sortPaths_order_independent.
  by rewrite H, range_Permutation.
Qed.

(** * Further properties *)

(** ** Errors abort the walk *)

Lemma walk_app (l1 l2 : list Package) (st : Registry) :
  walk (l1 ++ l2) st = bind (walk l1 st) (walk l2).
Proof.
  revert st. induction l1 as [|pkg l1 IH]; intros st; [done|].
  cbn [app walk]. destruct (post pkg st); cbn [bind]; [apply IH|done].
Qed.

Lemma walk_fails_where_post_fails (visited : list Package) (pkg : Package) :
  pkg ∈ visited → (∀ st, ∃ f, post pkg st = Fail f) →
  ∀ st, ∃ f, walk visited st = Fail f.
Proof.
  intros Hin Hfail. induction visited as [|q rest IH]; intros st.
  - by apply elem_of_nil in Hin.
  - cbn [walk]. destruct (post q st) as [st1|f] eqn:E; cbn [bind]; [|by eauto].
    apply elem_of_cons in Hin as [->|Hin]; [|by apply IH].
    destruct (Hfail st) as [f Hf]. congruence.
Qed.

Lemma elem_of_pkgErrors (pkg : Package) (e : string) :
  e ∈ pkgErrors pkg
  ↔ e ∈ packages.Errors pkg
    ∨ ∃ pm, packages.Module_ pkg = Some pm ∧ packages.Error pm = Some e.
Proof.
  unfold pkgErrors. rewrite elem_of_app.
  destruct (packages.Module_ pkg) as [pm|]; [destruct (packages.Error pm) as [e'|] eqn:E|].
  - rewrite list_elem_of_singleton. split; intros [?|H]; auto.
    + right. exists pm. by subst.
    + destruct H as (pm' & [= <-] & H). right. congruence.
  - rewrite elem_of_nil. split; intros [?|H]; auto; [done|].
    destruct H as (pm' & [= <-] & H). congruence.
  - rewrite elem_of_nil. split; intros [?|H]; auto; [done|].
    by destruct H as (pm' & [=] & _).
Qed.

(** X1. A visited package that is not builtin and carries an error of its
    own or of its module ends the walk, wherever it stands in the order of
    visit and whatever was registered before: its [post] panics with all
    these errors, those of the package first. A builtin package is passed
    over even when it carries errors. *)
Theorem package_error_aborts_walk (visited : list Package) (pkg : Package)
    (st : Registry) :
  pkg ∈ visited → isBuiltin pkg = false → pkgErrors pkg ≠ [] →
  post pkg st = Fail (PanicPkgErrors (pkgErrors pkg))
  ∧ (∀ e, e ∈ pkgErrors pkg
          ↔ e ∈ packages.Errors pkg
            ∨ ∃ pm, packages.Module_ pkg = Some pm ∧ packages.Error pm = Some e)
  ∧ (∃ f, walk visited st = Fail f)
  ∧ (∀ q st', isBuiltin q = true → post q st' = Ok st').
Proof.
  intros Hin Hb He.
  assert (Hpost : ∀ st0, post pkg st0 = Fail (PanicPkgErrors (pkgErrors pkg))).
  { intros st0. unfold post. rewrite Hb.
    destruct (pkgErrors pkg); [by destruct He|reflexivity]. }
  split; [done|]. split; [apply elem_of_pkgErrors|]. split.
  - apply (walk_fails_where_post_fails visited pkg); [done|]. by eauto.
  - intros q st' Hq. unfold post. by rewrite Hq.
Qed.

Lemma package_error_aborts_walk_witness :
  cases.broken ∈ [sample.barX; cases.broken; sample.fooA]
  ∧ isBuiltin cases.broken = false
  ∧ pkgErrors cases.broken ≠ []
  ∧ post cases.broken emptyRegistry
    = Fail (PanicPkgErrors ["syntax error"; "type error"; "no go.mod"]).
Proof.
  split; [apply elem_of_cons; right; by left|].
  split; [reflexivity|]. split; [done|].
  apply (package_error_aborts_walk
           [sample.barX; cases.broken; sample.fooA] cases.broken emptyRegistry);
    [apply elem_of_cons; right; by left|reflexivity|done].
Defined.

(** ** What the registry holds after a walk *)

Lemma elem_of_modulesOf (visited : list Package) (pm : ModuleInfo) :
  pm ∈ modulesOf visited ↔ ∃ pkg, pkg ∈ visited ∧ pkgModule pkg = Some pm.
Proof. apply list_elem_of_omap. Qed.

Lemma elem_of_edgesFrom (p q x : string) (p' : string)
    (imports : list (string * Package)) :
  (p, q, x) ∈ edgesFrom p' imports
  ↔ p = p' ∧ q ≠ p'
    ∧ ∃ k dep dm, (k, dep) ∈ imports ∧ isBuiltin dep = false
                  ∧ packages.Module_ dep = Some dm
                  ∧ packages.Path dm = q ∧ packages.PkgPath dep = x.
Proof.
  unfold edgesFrom. rewrite list_elem_of_bind. split.
  - intros ([k dep] & Hin & Hkd). simpl in Hin.
    destruct (edgeTo dep) as [[q' x']|] eqn:He; [|by apply elem_of_nil in Hin].
    destruct (decide (q' = p')); [by apply elem_of_nil in Hin|].
    apply list_elem_of_singleton in Hin as [= -> -> ->].
    split; [done|]. split; [done|].
    unfold edgeTo in He. destruct (isBuiltin dep) eqn:Hb; [done|].
    destruct (packages.Module_ dep) as [dm|] eqn:Hdm; [|done].
    injection He as <- <-. by exists k, dep, dm.
  - intros (-> & Hne & k & dep & dm & Hin & Hb & Hdm & <- & <-).
    exists (k, dep). split; [|done]. simpl. unfold edgeTo. rewrite Hb, Hdm. simpl.
    rewrite decide_False by done. by apply list_elem_of_singleton.
Qed.

Lemma elem_of_edgesOf (visited : list Package) (p q x : string) :
  (p, q, x) ∈ edgesOf visited
  ↔ ∃ pkg pm k dep dm,
      pkg ∈ visited ∧ pkgModule pkg = Some pm ∧ packages.Path pm = p
      ∧ (k, dep) ∈ packages.Imports pkg ∧ isBuiltin dep = false
      ∧ packages.Module_ dep = Some dm ∧ packages.Path dm = q ∧ q ≠ p
      ∧ packages.PkgPath dep = x.
Proof.
  unfold edgesOf. rewrite list_elem_of_bind. split.
  - intros (pkg & Hin & Hpkg).
    destruct (pkgModule pkg) as [pm|] eqn:Hpm; [|by apply elem_of_nil in Hin].
    apply elem_of_edgesFrom in Hin as (-> & Hne & k & dep & dm & ? & ? & ? & ? & ?).
    by exists pkg, pm, k, dep, dm.
  - intros (pkg & pm & k & dep & dm & Hin & Hpm & <- & Hkd & Hb & Hdm & Hq & Hne & Hx).
    exists pkg. split; [|done]. rewrite Hpm. apply elem_of_edgesFrom.
    split; [done|]. split; [done|]. by exists k, dep, dm.
Qed.

(** X2. After a walk that completes, the registered paths are exactly the
    module paths of the visited packages that are not builtin and have a
    module; each registered path leads to a record carrying that path, and
    each record is registered under its own path. *)
Theorem walk_registers_visited_modules (visited : list Package) (st : Registry) :
  walk visited emptyRegistry = Ok st →
  WellFormed st
  ∧ ∀ p, is_Some (modules st !! p)
         ↔ ∃ pkg pm, pkg ∈ visited ∧ isBuiltin pkg = false
                     ∧ packages.Module_ pkg = Some pm ∧ packages.Path pm = p.
Proof.
  intros HR%walk_Represents. split; [apply (rep_wf _ _ _ HR)|].
  intros p. rewrite (rep_dom _ _ _ HR). split.
  - intros (pm & (pkg & Hin & Hpm)%elem_of_modulesOf & Hp).
    exists pkg, pm. unfold pkgModule in Hpm.
    by destruct (isBuiltin pkg).
  - intros (pkg & pm & Hin & Hb & Hpm & Hp). exists pm. split; [|done].
    apply elem_of_modulesOf. exists pkg. split; [done|].
    unfold pkgModule. by rewrite Hb.
Qed.

Lemma walk_registers_visited_modules_witness :
  ∃ st, walk [sample.barX; sample.fooA; sample.fooB] emptyRegistry = Ok st
        ∧ WellFormed st.
Proof.
  eexists. split; [vm_compute; reflexivity|].
  apply (walk_registers_visited_modules [sample.barX; sample.fooA; sample.fooB]).
  vm_compute; reflexivity.
Defined.

Lemma elem_of_Imports (ro : RangeOrder) (reg : list ModuleInfo)
    (es : list (string * string * string)) (st : Registry) (a : nat)
    (m : Mod.t) (x : string) :
  Represents reg es st → heap st !! a = Some m →
  x ∈ Imports ro m ↔ ∃ q, (Mod.Path m, q, x) ∈ es.
Proof.
  intros HR Hm. rewrite Imports_Permutation, <- (depPairs_snd st).
  rewrite list_elem_of_fmap. split.
  - intros ([q x'] & -> & Hin). exists q. by eapply depPairs_elem.
  - intros (q & Hin). exists (q, x). split; [done|]. by eapply depPairs_elem.
Qed.

(** X3. After a walk that completes, the dependency list of a module
    holds a package path exactly when some visited package of the module
    imports a package with that path that is not builtin and belongs to
    another module. No builtin package is ever listed. *)
Theorem dependency_list_characterised (ro : RangeOrder)
    (visited : list Package) (st : Registry) (a : nat) (m : Mod.t) (x : string) :
  walk visited emptyRegistry = Ok st → heap st !! a = Some m →
  (x ∈ Imports ro m
   ↔ ∃ pkg pm k dep dm,
       pkg ∈ visited ∧ isBuiltin pkg = false
       ∧ packages.Module_ pkg = Some pm ∧ packages.Path pm = Mod.Path m
       ∧ (k, dep) ∈ packages.Imports pkg ∧ isBuiltin dep = false
       ∧ packages.Module_ dep = Some dm
       ∧ packages.Path dm ≠ Mod.Path m
       ∧ packages.PkgPath dep = x)
  ∧ (x ∈ Imports ro m →
     ∀ pkg, packages.PkgPath pkg = x → isBuiltin pkg = false).
Proof.
  intros HR%walk_Represents Hm.
  assert (Hiff : x ∈ Imports ro m
                 ↔ ∃ pkg pm k dep dm,
                     pkg ∈ visited ∧ isBuiltin pkg = false
                     ∧ packages.Module_ pkg = Some pm
                     ∧ packages.Path pm = Mod.Path m
                     ∧ (k, dep) ∈ packages.Imports pkg ∧ isBuiltin dep = false
                     ∧ packages.Module_ dep = Some dm
                     ∧ packages.Path dm ≠ Mod.Path m
                     ∧ packages.PkgPath dep = x).
  { rewrite (elem_of_Imports ro _ _ _ _ _ _ HR Hm). split.
    - intros (q & (pkg & pm & k & dep & dm & Hin & Hpm & Hp & Hkd & Hb & Hdm & Hq & Hne & Hx)%elem_of_edgesOf).
      exists pkg, pm, k, dep, dm. unfold pkgModule in Hpm.
      destruct (isBuiltin pkg); [done|]. repeat split; try done. congruence.
    - intros (pkg & pm & k & dep & dm & Hin & Hbp & Hpm & Hp & Hkd & Hb & Hdm & Hne & Hx).
      exists (packages.Path dm). apply elem_of_edgesOf.
      exists pkg, pm, k, dep, dm. unfold pkgModule. rewrite Hbp.
      repeat split; done. }
  split; [done|].
  intros (pkg & pm & k & dep & dm & _ & _ & _ & _ & _ & Hb & _ & _ & Hx)%Hiff q Hq.
  unfold isBuiltin in *. by rewrite Hq, <- Hx.
Qed.

Lemma dependency_list_characterised_witness :
  ∃ st m, walk [sample.barX; sample.fooA; sample.fooB] emptyRegistry = Ok st
          ∧ heap st !! 1%nat = Some m
          ∧ ∀ pkg, "beta.example/bar/x" ∈ Imports sample.inOrder m →
                   packages.PkgPath pkg = "beta.example/bar/x" →
                   isBuiltin pkg = false.
Proof.
  eexists _, _. split; [vm_compute; reflexivity|]. split; [reflexivity|].
  intros pkg Hin.
  eapply (dependency_list_characterised sample.inOrder
            [sample.barX; sample.fooA; sample.fooB] _ 1%nat);
    [vm_compute; reflexivity|reflexivity|exact Hin].
Defined.

(** ** Dependency maps *)

Lemma Mod_eq (m1 m2 : Mod.t) :
  metaOf m1 = metaOf m2 → Mod.Deps m1 = Mod.Deps m2 → m1 = m2.
Proof. destruct m1, m2. unfold metaOf. simpl. congruence. Qed.

Lemma resolveModule_NonEmptyDeps (pm : ModuleInfo) (st : Registry) :
  NonEmptyDeps st → NonEmptyDeps (resolveModule pm st).2.
Proof.
  intros H. destruct (resolveModule_cases pm st) as [(a & _ & ->)|[_ ->]]; [done|].
  intros a m b s [Hm|[_ Hm]]%lookup_app_Some; simpl in *; [by eapply H|].
  apply list_lookup_singleton_Some in Hm as [_ <-].
  destruct (newModule_fields pm) as (_ & _ & -> & _). by rewrite lookup_empty.
Qed.

Lemma addImport_NonEmptyDeps (a : nat) (dep : Package) (st st' : Registry) :
  NonEmptyDeps st → addImport a dep st = Ok st' → NonEmptyDeps st'.
Proof.
  intros H [[_ ->]|(dm & b & d & m & _ & _ & Hd & Hm & [[_ ->]|(_ & Hba & ->)])]%addImport_Ok;
    [done..|].
  intros a' m' b' s Hm'. simpl in Hm'.
  apply list_lookup_insert_Some in Hm' as [(-> & <- & _)|[Hne Hm']]; [|by eapply H].
  rewrite DepAdd_Deps. intros [[<- <-]|[_ Hs]]%lookup_insert_Some; [|by eapply H].
  intros He. assert (packages.PkgPath dep ∈ (∅ : gset string)); [|set_solver].
  rewrite <- He. apply elem_of_union. left. by apply elem_of_singleton.
Qed.

Lemma importLoop_NonEmptyDeps (a : nat) (imports : list (string * Package))
    (st st' : Registry) :
  NonEmptyDeps st → importLoop a imports st = Ok st' → NonEmptyDeps st'.
Proof.
  revert st. induction imports as [|[k dep] rest IH]; intros st H; cbn [importLoop].
  - by intros [= <-].
  - destruct (addImport a dep st) as [st1|] eqn:E; cbn [bind]; [|done].
    apply IH. by eapply addImport_NonEmptyDeps.
Qed.

Lemma walk_NonEmptyDeps (visited : list Package) (st st' : Registry) :
  NonEmptyDeps st → walk visited st = Ok st' → NonEmptyDeps st'.
Proof.
  revert st. induction visited as [|pkg rest IH]; intros st H; cbn [walk].
  - by intros [= <-].
  - destruct (post pkg st) as [st1|] eqn:E; cbn [bind]; [|done].
    apply IH. apply post_Ok in E as [[_ ->]|(pm & _ & Hl)]; [done|].
    eapply importLoop_NonEmptyDeps; [|done]. by apply resolveModule_NonEmptyDeps.
Qed.

(** X4. After a walk that completes, every key of a record's dependency
    map is the address of another record that is registered under its own
    path, and the set stored under the key holds at least one package. *)
Theorem dependency_keys_registered (visited : list Package) (st : Registry)
    (a b : nat) (m : Mod.t) (s : gset string) :
  walk visited emptyRegistry = Ok st →
  heap st !! a = Some m → Mod.Deps m !! b = Some s →
  b ≠ a ∧ s ≠ ∅
  ∧ ∃ d, heap st !! b = Some d ∧ modules st !! Mod.Path d = Some b
         ∧ Mod.Path d ≠ Mod.Path m.
Proof.
  intros Hw Hm Hb.
  assert (Hself : NoSelfEdge st).
  { eapply walk_NoSelfEdge; [|done]. intros ??. unfold emptyRegistry. simpl.
    by rewrite lookup_nil. }
  assert (Hne : NonEmptyDeps st).
  { eapply walk_NonEmptyDeps; [|done]. intros ????. unfold emptyRegistry. simpl.
    by rewrite lookup_nil. }
  apply walk_Represents in Hw.
  assert (Hba : b ≠ a).
  { intros ->. specialize (Hself _ _ Hm). congruence. }
  split; [done|]. split; [by eapply Hne|].
  destruct (rep_keys _ _ _ Hw _ _ _ _ Hm Hb) as [d Hd]. exists d.
  pose proof (proj2 (rep_wf _ _ _ Hw) _ _ Hd) as Hdb.
  pose proof (proj2 (rep_wf _ _ _ Hw) _ _ Hm) as Hma.
  split; [done|]. split; [done|]. intros Hp. congruence.
Qed.

Lemma dependency_keys_registered_witness :
  ∃ st m s, walk [sample.barX; sample.fooA; sample.fooB] emptyRegistry = Ok st
            ∧ heap st !! 1%nat = Some m ∧ Mod.Deps m !! 0%nat = Some s
            ∧ 0%nat ≠ 1%nat.
Proof.
  eexists _, _, _. split; [vm_compute; reflexivity|].
  split; [reflexivity|]. split; [vm_compute; reflexivity|].
  eapply (dependency_keys_registered [sample.barX; sample.fooA; sample.fooB] _ 1%nat 0%nat);
    [vm_compute; reflexivity|reflexivity|vm_compute; reflexivity].
Defined.

(** X5. Additions to dependency sets commute: adding two packages to the
    sets of one record, for the same or for different modules, gives the
    same record in either order. *)
Theorem DepAdd_commutes (m : Mod.t) (d d' : nat) (p q : string) :
  Mod.DepAdd (Mod.DepAdd m d p) d' q = Mod.DepAdd (Mod.DepAdd m d' q) d p.
Proof.
  apply Mod_eq; [by rewrite !DepAdd_metaOf|].
  rewrite !DepAdd_Deps. destruct (decide (d = d')) as [->|Hne].
  - rewrite !lookup_insert_eq, !insert_insert_eq. simpl. f_equal.
    apply set_eq. intros x. rewrite !elem_of_union. tauto.
  - rewrite !lookup_insert_ne by done. by rewrite insert_insert_ne.
Qed.

(** ** The registry only grows *)

Lemma Grows_refl (st : Registry) : Grows st st.
Proof. split; [done|]. intros a m Hm. exists m. repeat split; [done|]. eauto. Qed.

Lemma Grows_trans (st1 st2 st3 : Registry) :
  Grows st1 st2 → Grows st2 st3 → Grows st1 st3.
Proof.
  intros [Hm1 Hh1] [Hm2 Hh2]. split; [by eauto|].
  intros a m Hm. destruct (Hh1 _ _ Hm) as (m2 & H2 & M2 & D2).
  destruct (Hh2 _ _ H2) as (m3 & H3 & M3 & D3).
  exists m3. split; [done|]. split; [congruence|].
  intros b s Hb. destruct (D2 _ _ Hb) as (s2 & Hs2 & Hsub2).
  destruct (D3 _ _ Hs2) as (s3 & Hs3 & Hsub3).
  exists s3. split; [done|]. by transitivity s2.
Qed.

Lemma resolveModule_Grows (pm : ModuleInfo) (st : Registry) :
  WellFormed st → Grows st (resolveModule pm st).2.
Proof.
  intros [Hwf1 _].
  destruct (resolveModule_cases pm st) as [(a & _ & ->)|[Hnew ->]];
    [apply Grows_refl|]. split; simpl.
  - intros p a Hp. rewrite lookup_insert_ne; [done|]. intros <-. congruence.
  - intros a m Hm. exists m. split; [by apply lookup_app_l_Some|].
    split; [done|]. eauto.
Qed.

Lemma addImport_Grows (a : nat) (dep : Package) (st st' : Registry) :
  addImport a dep st = Ok st' → Grows st st'.
Proof.
  intros [[_ ->]|(dm & b & d & m & _ & _ & Hd & Hm & [[_ ->]|(_ & Hba & ->)])]%addImport_Ok;
    [apply Grows_refl..|].
  split; [done|]. simpl. intros a' m' Hm'.
  destruct (decide (a' = a)) as [->|Hne].
  - assert (m' = m) as -> by congruence.
    exists (Mod.DepAdd m b (packages.PkgPath dep)).
    split; [apply list_lookup_insert_eq; by eapply lookup_lt_Some|].
    split; [apply DepAdd_metaOf|].
    intros b' s Hs. rewrite DepAdd_Deps.
    destruct (decide (b' = b)) as [->|Hnb].
    + rewrite lookup_insert_eq, Hs. simpl. eexists. split; [done|].
      apply union_subseteq_r.
    + rewrite lookup_insert_ne by done. eauto.
  - exists m'. rewrite list_lookup_insert_ne by done. split; [done|].
    split; [done|]. eauto.
Qed.

Lemma importLoop_Grows (a : nat) (imports : list (string * Package))
    (st st' : Registry) :
  importLoop a imports st = Ok st' → Grows st st'.
Proof.
  revert st. induction imports as [|[k dep] rest IH]; intros st; cbn [importLoop].
  - intros [= <-]. apply Grows_refl.
  - destruct (addImport a dep st) as [st1|] eqn:E; cbn [bind]; [|done].
    intros Hl. eapply Grows_trans; [by eapply addImport_Grows|by apply IH].
Qed.

Lemma post_Grows (pkg : Package) (st st' : Registry) :
  WellFormed st → post pkg st = Ok st' → Grows st st'.
Proof.
  intros Hwf [[_ ->]|(pm & _ & Hl)]%post_Ok; [apply Grows_refl|].
  eapply Grows_trans; [by apply resolveModule_Grows|by eapply importLoop_Grows].
Qed.

Lemma walk_Grows (reg : list ModuleInfo) (es : list (string * string * string))
    (visited : list Package) (st st' : Registry) :
  Represents reg es st → walk visited st = Ok st' → Grows st st'.
Proof.
  revert reg es st. induction visited as [|pkg rest IH]; intros reg es st HR; cbn [walk].
  - intros [= <-]. apply Grows_refl.
  - destruct (post pkg st) as [st1|] eqn:E; cbn [bind]; [|done].
    intros Hw. eapply Grows_trans.
    + eapply post_Grows; [apply (rep_wf _ _ _ HR)|done].
    + eapply IH; [|done]. by eapply Represents_post.
Qed.

(** X6. The walk only adds to the registry. From one point of the walk
    to any later one, every registered path keeps its address, every
    record stays at its address with its path, version, directory and
    replace path unchanged, and every dependency set keeps the packages it
    had. *)
Theorem walk_only_grows (before after : list Package) (st st' : Registry) :
  walk before emptyRegistry = Ok st →
  walk (before ++ after) emptyRegistry = Ok st' →
  Grows st st'.
Proof.
  intros Hb Hw. rewrite walk_app, Hb in Hw. cbn [bind] in Hw.
  eapply walk_Grows; [|done]. by apply walk_Represents.
Qed.

Lemma walk_only_grows_witness :
  ∃ st st', walk [sample.barX; sample.fooA] emptyRegistry = Ok st
            ∧ walk ([sample.barX; sample.fooA] ++ [sample.fooB]) emptyRegistry = Ok st'
            ∧ Grows st st'.
Proof.
  eexists _, _. split; [vm_compute; reflexivity|].
  split; [vm_compute; reflexivity|].
  apply (walk_only_grows [sample.barX; sample.fooA] [sample.fooB]);
    vm_compute; reflexivity.
Defined.

(** X7. The first visited package of a module decides its record: the
    path, version, directory and replace path of the record are those
    built from the module description of that package, whatever the
    descriptions on the packages of the module visited later. *)
Theorem first_visit_decides_record (before after : list Package)
    (pkg : Package) (pm : ModuleInfo) (st : Registry) :
  walk (before ++ pkg :: after) emptyRegistry = Ok st →
  pkgModule pkg = Some pm →
  (∀ q qm, q ∈ before → pkgModule q = Some qm →
           packages.Path qm ≠ packages.Path pm) →
  ∃ a m, modules st !! packages.Path pm = Some a ∧ heap st !! a = Some m
         ∧ metaOf m = metaOf (newModule pm).
Proof.
  intros Hw Hpm Hfirst. rewrite walk_app in Hw.
  destruct (walk before emptyRegistry) as [st0|] eqn:H0; cbn [bind] in Hw; [|done].
  pose proof (walk_Represents _ _ H0) as HR0.
  cbn [walk] in Hw.
  destruct (post pkg st0) as [st1|] eqn:H1; cbn [bind] in Hw; [|done].
  pose proof (Represents_post _ _ _ _ _ HR0 H1) as HR1.
  pose proof (walk_Grows _ _ _ _ _ HR1 Hw) as [Gm Gh].
  assert (Hnew : modules st0 !! packages.Path pm = None).
  { apply eq_None_not_Some. intros Hs. apply (rep_dom _ _ _ HR0) in Hs.
    destruct Hs as (qm & (q & Hq & Hqm)%elem_of_modulesOf & Hp).
    by eapply Hfirst. }
  apply post_Ok in H1 as [[Hn _]|(pm' & Hpm' & Hl)]; [congruence|].
  assert (pm' = pm) as -> by congruence.
  destruct (resolveModule_cases pm st0) as [(a & Ha & _)|[_ Hres]]; [congruence|].
  rewrite Hres in Hl. simpl in Hl.
  apply importLoop_Grows in Hl as [Lm Lh].
  destruct (Lh (length (heap st0)) (newModule pm)) as (m1 & Hm1 & M1 & _).
  { simpl. by apply list_lookup_middle. }
  destruct (Gh _ _ Hm1) as (m2 & Hm2 & M2 & _).
  exists (length (heap st0)), m2. split; [|split; [done|congruence]].
  apply Gm, Lm. simpl. apply lookup_insert_eq.
Qed.

Lemma first_visit_decides_record_witness :
  ∃ st a m,
    walk ([sample.barX] ++ sample.fooA :: [cases.fooC]) emptyRegistry = Ok st
    ∧ modules st !! "alpha.example/foo" = Some a ∧ heap st !! a = Some m
    ∧ metaOf m = ("alpha.example/foo", "0.1.0", "/gomod/foo", "").
Proof.
  destruct (first_visit_decides_record [sample.barX] [cases.fooC] sample.fooA
              sample.fooMod
              (mkRegistry
                 (<["alpha.example/foo" := 1%nat]> (<["beta.example/bar" := 0%nat]> ∅))
                 [newModule sample.barMod;
                  Mod.DepAdd (newModule sample.fooMod) 0 "beta.example/bar/x"]))
    as (a & m & Ha & Hm & Hmeta).
  - vm_compute; reflexivity.
  - reflexivity.
  - intros q qm ->%list_elem_of_singleton [= <-]. done.
  - eexists _, a, m. split; [vm_compute; reflexivity|]. done.
Defined.

(** ** A package visited again *)

Lemma DepAdd_absorbed (m : Mod.t) (b : nat) (x : string) (s : gset string) :
  Mod.Deps m !! b = Some s → x ∈ s → Mod.DepAdd m b x = m.
Proof.
  intros Hs Hx. apply Mod_eq; [apply DepAdd_metaOf|].
  rewrite DepAdd_Deps, Hs. simpl. apply insert_id. rewrite Hs. f_equal.
  apply set_eq. intros y. rewrite elem_of_union, elem_of_singleton.
  split; [by auto|]. intros [Hy|Hy]; [by subst y|done].
Qed.

Lemma Absorbs_addImport (st : Registry) (a : nat) (dep : Package) :
  Absorbs st a dep → addImport a dep st = Ok st.
Proof.
  unfold Absorbs, addImport, edgeTo.
  intros [He|(dm & b & d & m & He & Hb & Hd & Hm & Hcase)].
  - by rewrite He.
  - destruct (isBuiltin dep); [done|].
    destruct (packages.Module_ dep) as [dm'|]; [|done].
    simpl in He. injection He as He. rewrite He, Hb, Hd, Hm.
    destruct (String.eqb_spec (Mod.Path d) (Mod.Path m)) as [|Hne]; [done|].
    destruct Hcase as [|(s & Hs & Hx)]; [done|].
    rewrite (DepAdd_absorbed _ _ _ _ Hs Hx), list_insert_id by done.
    by destruct st.
Qed.

Lemma addImport_Absorbs (st st' : Registry) (a : nat) (dep : Package) :
  addImport a dep st = Ok st' → Absorbs st' a dep.
Proof.
  intros Hadd. destruct (isBuiltin dep) eqn:Hbi; [by left|].
  destruct (addImport_Ok _ _ _ _ Hadd)
    as [[He ->]|(dm & b & d & m & He & Hb & Hd & Hm & [[Hp ->]|(Hne & Hba & ->)])].
  - unfold addImport, edgeTo in *. rewrite Hbi in *.
    by destruct (packages.Module_ dep).
  - right. exists dm, b, d, m. auto 10.
  - right. exists dm, b, d, (Mod.DepAdd m b (packages.PkgPath dep)). simpl.
    split; [done|]. split; [done|].
    split; [by rewrite list_lookup_insert_ne|].
    split; [apply list_lookup_insert_eq; by eapply lookup_lt_Some|].
    right. eexists. rewrite DepAdd_Deps, lookup_insert_eq. split; [done|].
    apply elem_of_union. left. by apply elem_of_singleton.
Qed.

Lemma Absorbs_Grows (st st' : Registry) (a : nat) (dep : Package) :
  Absorbs st a dep → Grows st st' → Absorbs st' a dep.
Proof.
  intros [He|(dm & b & d & m & He & Hb & Hd & Hm & Hcase)] [Gm Gh]; [by left|].
  destruct (Gh _ _ Hd) as (d' & Hd' & Md & _).
  destruct (Gh _ _ Hm) as (m' & Hm' & Mm & Dm).
  right. exists dm, b, d', m'. split; [done|]. split; [by apply Gm|].
  split; [done|]. split; [done|].
  unfold metaOf in Md, Mm. injection Md as Md _ _ _. injection Mm as Mm _ _ _.
  destruct Hcase as [Hp|(s & Hs & Hx)]; [left; congruence|].
  right. destruct (Dm _ _ Hs) as (s' & Hs' & Hsub). exists s'. split; [done|].
  by apply Hsub.
Qed.

Lemma importLoop_Absorbs (a : nat) (imports : list (string * Package))
    (st st' : Registry) :
  importLoop a imports st = Ok st' →
  ∀ k dep, (k, dep) ∈ imports → Absorbs st' a dep.
Proof.
  revert st. induction imports as [|[k0 dep0] rest IH]; intros st; cbn [importLoop].
  - intros _ k dep []%elem_of_nil.
  - destruct (addImport a dep0 st) as [st1|] eqn:E; cbn [bind]; [|done].
    intros Hl k dep [[= -> ->]|Hin]%elem_of_cons; [|by eapply IH].
    eapply Absorbs_Grows; [by eapply addImport_Absorbs|by eapply importLoop_Grows].
Qed.

Lemma importLoop_absorbed (a : nat) (imports : list (string * Package))
    (st : Registry) :
  (∀ k dep, (k, dep) ∈ imports → Absorbs st a dep) →
  importLoop a imports st = Ok st.
Proof.
  induction imports as [|[k dep] rest IH]; intros H; cbn [importLoop]; [done|].
  rewrite Absorbs_addImport by (eapply H; by left). cbn [bind].
  apply IH. intros k' dep' Hin. eapply H. by right.
Qed.

(** X8. Visiting a package a second time changes nothing: when [post]
    has completed on a package, calling it again on the same package at
    any later point of the walk completes and leaves the registry as it
    is. *)
Theorem post_again_changes_nothing (before between : list Package)
    (pkg : Package) (st st1 st2 : Registry) :
  walk before emptyRegistry = Ok st →
  post pkg st = Ok st1 → walk between st1 = Ok st2 →
  post pkg st2 = Ok st2.
Proof.
  intros Hb Hp Hw.
  assert (G : Grows st1 st2).
  { eapply walk_Grows; [|done].
    eapply Represents_post; [by apply walk_Represents|done]. }
  clear Hb Hw. revert Hp. unfold post.
  destruct (isBuiltin pkg); [done|].
  destruct (pkgErrors pkg); [|done].
  destruct (packages.Module_ pkg) as [pm|].
  2:{ intros H. destruct (_ && _); [done|].
      by destruct (strings.HasSuffix _ _). }
  assert (Hreg : modules (resolveModule pm st).2 !! packages.Path pm
                 = Some (resolveModule pm st).1).
  { destruct (resolveModule_cases pm st) as [(a & Ha & ->)|[_ ->]]; simpl;
      [done|apply lookup_insert_eq]. }
  destruct (resolveModule pm st) as [a st0]. simpl in Hreg. intros Hl.
  pose proof (importLoop_Grows _ _ _ _ Hl) as [Lm _].
  destruct G as [Gm Gh].
  unfold resolveModule. rewrite (Gm _ _ (Lm _ _ Hreg)).
  apply importLoop_absorbed. intros k dep Hin.
  eapply Absorbs_Grows; [by eapply importLoop_Absorbs|by split].
Qed.

Lemma post_again_changes_nothing_witness :
  ∃ st st1 st2,
    walk [sample.barX] emptyRegistry = Ok st
    ∧ post sample.fooA st = Ok st1
    ∧ walk [sample.fooB] st1 = Ok st2
    ∧ post sample.fooA st2 = Ok st2.
Proof.
  eexists _, _, _. split; [vm_compute; reflexivity|].
  split; [vm_compute; reflexivity|]. split; [vm_compute; reflexivity|].
  eapply (post_again_changes_nothing [sample.barX] [sample.fooB]);
    [vm_compute; reflexivity|vm_compute; reflexivity|vm_compute; reflexivity].
Defined.

(** ** Emission follows its plan *)

Lemma emitModule_prefix
    (isPrintWide : Z → bool) (hashDir : string → string + string)
    (writeError : string → string → string → option string) (ro : RangeOrder)
    (m : Mod.t) (tr : list Event) :
  ∃ k, (k ≤ length (descriptorEvents isPrintWide hashDir ro m))%nat
       ∧ (emitModule isPrintWide hashDir writeError ro m tr).2
         = tr ++ take k (descriptorEvents isPrintWide hashDir ro m)
       ∧ ((emitModule isPrintWide hashDir writeError ro m tr).1 = Ok tt →
          (emitModule isPrintWide hashDir writeError ro m tr).2
          = tr ++ descriptorEvents isPrintWide hashDir ro m).
Proof.
  unfold descriptorEvents, emittable, emitModule, isLocalReplace, outDirOf, digestOf.
  destruct (Mod.IsExternal m); cbn [negb andb].
  2:{ exists 0%nat. simpl. by rewrite app_nil_r. }
  destruct (negb (String.eqb (Mod.ReplacePath m) "")
            && strings.HasPrefix (Mod.ReplacePath m) "."); cbn [negb].
  { exists 0%nat. destruct (negb _); simpl; by rewrite app_nil_r. }
  unfold iobind, Execute, iobind, ModSHA256.
  destruct (String.eqb (Mod.Dir m) "").
  { exists 0%nat. simpl. split; [lia|]. by rewrite app_nil_r. }
  unfold iobind, emit, ret, fail, writeFile.
  destruct (hashDir (Mod.Dir m)) as [digest|err].
  2:{ exists 1%nat. simpl. split; [lia|done]. }
  destruct (writeError _ _ _).
  - exists 1%nat. simpl. split; [lia|done].
  - exists 2%nat. simpl. rewrite <- app_assoc. split; [lia|done].
Qed.

Lemma plannedEvents_cons
    (isPrintWide : Z → bool) (hashDir : string → string + string)
    (ro : RangeOrder) (st : Registry) (p : string) (rest : list Path) :
  plannedEvents isPrintWide hashDir ro st (p :: rest)
  = match modules st !! p ≫= (λ a, heap st !! a) with
    | Some m => descriptorEvents isPrintWide hashDir ro m
    | None => []
    end ++ plannedEvents isPrintWide hashDir ro st rest.
Proof.
  unfold plannedEvents, recordsAt. cbn [omap list_omap].
  by destruct (modules st !! p ≫= (λ a, heap st !! a)).
Qed.

Lemma emitLoop_prefix
    (isPrintWide : Z → bool) (hashDir : string → string + string)
    (writeError : string → string → string → option string) (ro : RangeOrder)
    (st : Registry) (paths : list Path) (tr : list Event) :
  ∃ k, (emitLoop isPrintWide hashDir writeError ro st paths tr).2
       = tr ++ take k (plannedEvents isPrintWide hashDir ro st paths)
       ∧ ((emitLoop isPrintWide hashDir writeError ro st paths tr).1 = Ok tt →
          (emitLoop isPrintWide hashDir writeError ro st paths tr).2
          = tr ++ plannedEvents isPrintWide hashDir ro st paths).
Proof.
  revert tr. induction paths as [|p rest IH]; intros tr.
  { exists 0%nat. unfold plannedEvents, ret. simpl. rewrite app_nil_r. by split. }
  rewrite plannedEvents_cons. cbn [emitLoop].
  destruct (modules st !! p ≫= (λ a, heap st !! a)) as [m|].
  2:{ exists 0%nat. unfold fail. simpl. rewrite app_nil_r. by split. }
  unfold iobind.
  destruct (emitModule_prefix isPrintWide hashDir writeError ro m tr)
    as (k1 & Hk1 & Htr1 & Hok1).
  destruct (emitModule isPrintWide hashDir writeError ro m tr) as [[[]|f] tr1];
    simpl in *.
  - specialize (Hok1 eq_refl). subst tr1.
    destruct (IH (tr ++ descriptorEvents isPrintWide hashDir ro m)) as (k2 & Htr2 & Hok2).
    exists (length (descriptorEvents isPrintWide hashDir ro m) + k2)%nat.
    rewrite take_app_add, app_assoc, Hok1. split; [done|].
    intros Hok. by rewrite (Hok2 Hok), app_assoc.
  - exists k1. rewrite take_app_le by done. done.
Qed.

(** X9. Emission follows a fixed plan: for each registered path in
    ascending order, and only for the external modules not replaced by a
    local path, the source directory is hashed and then the descriptor is
    written as default.nix under the directory of the module. What a run
    hashes and writes is always an initial part of this plan without gaps,
    and the whole plan when the run succeeds. *)
Theorem emission_follows_plan
    (isPrintWide : Z → bool) (hashDir : string → string + string)
    (writeError : string → string → string → option string) (ro : RangeOrder)
    (st : Registry) (tr : list Event) :
  Sorted String.le (sortedPaths ro st)
  ∧ ∃ k, (emitAll isPrintWide hashDir writeError ro st tr).2
         = tr ++ take k (plannedEvents isPrintWide hashDir ro st (sortedPaths ro st))
         ∧ ((emitAll isPrintWide hashDir writeError ro st tr).1 = Ok tt →
            (emitAll isPrintWide hashDir writeError ro st tr).2
            = tr ++ plannedEvents isPrintWide hashDir ro st (sortedPaths ro st)).
Proof. split; [apply sortPaths_Sorted|apply emitLoop_prefix]. Qed.

(** X10. For an external module that is not replaced by a local path, has
    a source directory and a clean path, when hashing and writing succeed,
    the emission hashes the directory and then writes the rendered
    descriptor as default.nix under third_party/gopkgs/ followed by the
    module path. *)
Theorem emitModule_writes_descriptor
    (isPrintWide : Z → bool) (hashDir : string → string + string)
    (writeError : string → string → string → option string) (ro : RangeOrder)
    (m : Mod.t) (digest : string) (tr : list Event) :
  emittable m = true → Mod.Dir m ≠ "" → isCleanPath (Mod.Path m) = true →
  hashDir (Mod.Dir m) = inl digest →
  writeError ("third_party/gopkgs/" +:+ Mod.Path m) "default.nix"
    (render isPrintWide (Mod.Path m) (Mod.Version m) digest (Imports ro m)) = None →
  emitModule isPrintWide hashDir writeError ro m tr
  = (Ok tt,
     tr ++ [Hashed (Mod.Dir m);
            Wrote ("third_party/gopkgs/" +:+ Mod.Path m) "default.nix"
                  (render isPrintWide (Mod.Path m) (Mod.Version m) digest
                          (Imports ro m))]).
Proof.
  unfold emittable, isLocalReplace.
  intros [Hext Hloc%negb_true_iff]%andb_true_iff Hd%String.eqb_neq Hclean Hh Hw.
  unfold emitModule. rewrite Hext, Hloc. cbn [negb].
  rewrite Join_vendor by done.
  unfold iobind, Execute, iobind, ModSHA256. rewrite Hd.
  unfold iobind, emit, ret, writeFile. rewrite Hh, Hw.
  unfold emit. by rewrite <- app_assoc.
Qed.

Lemma emitModule_writes_descriptor_witness :
  emittable (newModule sample.barMod) = true
  ∧ Mod.Dir (newModule sample.barMod) ≠ ""
  ∧ isCleanPath (Mod.Path (newModule sample.barMod)) = true
  ∧ (emitModule sample.isPrintWide sample.hashDir sample.writeError
       sample.inOrder (newModule sample.barMod) []).1 = Ok tt.
Proof.
  split; [reflexivity|]. split; [done|]. split; [reflexivity|].
  rewrite (emitModule_writes_descriptor sample.isPrintWide sample.hashDir
             sample.writeError sample.inOrder (newModule sample.barMod)
             "sha256-of:/gomod/bar" []); done.
Defined.

(** ** The workspace's own modules *)

Lemma HasPrefix_spec (s prefix : string) :
  strings.HasPrefix s prefix = true ↔ ∃ rest, s = prefix +:+ rest.
Proof.
  revert s. induction prefix as [|c prefix IH]; intros s; simpl.
  - split; [by exists s|done].
  - destruct s as [|a s].
    + split; [done|]. by intros [rest [=]].
    + rewrite andb_true_iff, IH. split.
      * intros [->%Ascii.eqb_eq [rest ->]]. by exists rest.
      * intros [rest [= -> ->]]. rewrite Ascii.eqb_refl. eauto.
Qed.

(** X11. A module is the workspace's own exactly when its path begins
    with example.com/; for such a module nothing is hashed or written and
    the emission goes on. *)
Theorem workspace_module_not_emitted
    (isPrintWide : Z → bool) (hashDir : string → string + string)
    (writeError : string → string → string → option string) (ro : RangeOrder)
    (m : Mod.t) (tr : list Event) :
  (Mod.IsExternal m = false ↔ ∃ rest, Mod.Path m = "example.com/" +:+ rest)
  ∧ (Mod.IsExternal m = false →
     emitModule isPrintWide hashDir writeError ro m tr = (Ok tt, tr)).
Proof.
  split.
  - unfold Mod.IsExternal. rewrite negb_false_iff. apply HasPrefix_spec.
  - intros H. unfold emitModule. by rewrite H.
Qed.

(** ** Attribute paths of ordinary import paths *)

Lemma allBytes_Split (f : ascii → bool) (s : string) (sep : ascii) :
  allBytes f s = true →
  Forall (λ seg, allBytes f seg = true) (strings.Split s sep).
Proof.
  induction s as [|a t IH]; simpl; [by repeat constructor|].
  intros [Ha Ht]%andb_true_iff. specialize (IH Ht).
  destruct (Ascii.eqb a sep); [by constructor|].
  destruct (strings.Split t sep) as [|h r]; [by repeat constructor; simpl; rewrite Ha|].
  inversion_clear IH. constructor; [|done]. simpl. by rewrite Ha.
Qed.

(** X12. For a package path made of printable ASCII bytes other than the
    double quote and the backslash, as every import path is, the
    attribute path keeps each segment's bytes unchanged: a segment that is
    a valid identifier and not a keyword stands bare, any other segment
    stands between two double quotes. *)
Theorem NixAttr_of_plain_path (isPrintWide : Z → bool) (p : Path) :
  allBytes plainByte p = true →
  NixAttr isPrintWide p
  = strings.Join
      ((λ seg, if isBareIdent seg && negb (isReserved seg) then seg
               else dq +:+ seg +:+ dq) <$> strings.Split p "/") ".".
Proof.
  intros Hp. unfold NixAttr. f_equal. apply Forall_fmap_ext.
  eapply Forall_impl; [by apply allBytes_Split|].
  intros seg Hseg. simpl in *. rewrite quoteName_renderSegment. unfold renderSegment.
  destruct (isBareIdent seg && negb (isReserved seg)); [done|].
  by apply Quote_plain.
Qed.

Lemma NixAttr_of_plain_path_witness :
  allBytes plainByte "golang.org/x/tools/go/packages" = true
  ∧ NixAttr sample.isPrintWide "golang.org/x/tools/go/packages"
    = dq +:+ "golang.org" +:+ dq +:+ ".x.tools.go.packages".
Proof.
  split; [reflexivity|].
  rewrite (NixAttr_of_plain_path sample.isPrintWide
             "golang.org/x/tools/go/packages"); reflexivity.
Defined.

(** ** Sorting paths *)

(** X13. [sortPaths] arranges its input in ascending byte-wise order: the
    result is sorted, has the same paths with the same multiplicities, is
    the only list with these two properties, and sorting it again changes
    nothing. *)
Theorem sortPaths_ascending (xs : list Path) :
  Sorted String.le (sortPaths xs)
  ∧ sortPaths xs ≡ₚ xs
  ∧ (∀ ys, Sorted String.le ys → ys ≡ₚ xs → ys = sortPaths xs)
  ∧ sortPaths (sortPaths xs) = sortPaths xs.
Proof.
  split; [apply sortPaths_Sorted|]. split; [apply sortPaths_Permutation|].
  split; [apply sortPaths_unique|].
  apply sortPaths_order_independent, sortPaths_Permutation.
Qed.

(** ** Version normalisation *)

(** X14. The stored version is the version taken from the loader (of the
    replacement when there is one) with one leading v removed and no more:
    a version that begins with v loses that one byte, any other version,
    the empty one included, is stored unchanged. *)
Theorem newModule_strips_one_v (pm : ModuleInfo) :
  let raw := match packages.Replace pm with
             | Some r => packages.Version r
             | None => packages.Version pm
             end in
  (∀ s, raw = String "v" s → Mod.Version (newModule pm) = s)
  ∧ (strings.HasPrefix raw "v" = false → Mod.Version (newModule pm) = raw)
  ∧ (raw = String "v" (Mod.Version (newModule pm))
     ∨ raw = Mod.Version (newModule pm)).
Proof.
  intros raw. destruct (newModule_fields pm) as (_ & _ & _ & _ & Hv).
  fold raw in Hv. rewrite Hv. clear Hv. generalize raw. clear. intros raw.
  split; [|split].
  - intros s ->. apply TrimPrefix_v.
  - apply TrimPrefix_v.
  - unfold strings.TrimPrefix. destruct raw as [|c t]; [by right|]. simpl.
    destruct (Ascii.eqb_spec c "v") as [->|]; [by left|by right].
Qed.

(** ** The Atomic Writer *)

Section WriteFileProperties.

Variable sys : os.Call → option os.Error.
Variable fileName : string → string → string.

Lemma removed_passes (f : string) :
  match sys (os.Remove f) with
  | Some err => if negb (os.IsNotExist err) then Some err else None
  | None => None
  end = if passes sys (os.Remove f) then None else sys (os.Remove f).
Proof.
  unfold passes. destruct (sys (os.Remove f)) as [[[] msg]|]; reflexivity.
Qed.

Lemma passes_Remove (f : string) :
  passes sys (os.Remove f) = true
  ↔ ∀ err, sys (os.Remove f) = Some err → os.IsNotExist err = true.
Proof.
  unfold passes. destruct (sys (os.Remove f)) as [err|]; split; try done.
  - by intros H ? [= <-].
  - intros H. by apply H.
Qed.

Lemma writeFileCalls_cases (dir name data : string) :
  let tmp := name +:+ ".tmp" in
  let f := fileName dir tmp in
  let final := slashpath.Join [dir; name] in
  let mk := os.MkdirAll dir 493 in
  let op := os.TempfileOpen dir tmp 420 in
  let r := writeFileCalls sys fileName dir name data in
  (∃ e, sys mk = Some e ∧ r = ([mk], Some e))
  ∨ (∃ e, sys mk = None ∧ sys op = Some e ∧ r = ([mk; op], Some e))
  ∨ (∃ e, sys mk = None ∧ sys op = None ∧ sys (os.Write f data) = Some e
          ∧ r = ([mk; op; os.Write f data; os.Close f], Some e))
  ∨ (∃ e, sys mk = None ∧ sys op = None ∧ sys (os.Write f data) = None
          ∧ sys (os.Remove f) = Some e ∧ os.IsNotExist e = false
          ∧ r = ([mk; op; os.Write f data; os.Remove f; os.Close f], Some e))
  ∨ (∃ e, sys mk = None ∧ sys op = None ∧ sys (os.Write f data) = None
          ∧ passes sys (os.Remove f) = true ∧ sys (os.TempfileCommit f) = Some e
          ∧ r = ([mk; op; os.Write f data; os.Remove f; os.TempfileCommit f;
                  os.Close f], Some e))
  ∨ (sys mk = None ∧ sys op = None ∧ sys (os.Write f data) = None
     ∧ passes sys (os.Remove f) = true ∧ sys (os.TempfileCommit f) = None
     ∧ r = ([mk; op; os.Write f data; os.Remove f; os.TempfileCommit f;
             os.Rename f final; os.Close f], sys (os.Rename f final))).
Proof.
  intros tmp f final mk op r. subst r. unfold writeFileCalls, writeOpened.
  fold tmp. fold f. fold final. fold mk. fold op. rewrite removed_passes.
  destruct (sys mk) as [e1|]; [left; by exists e1|right].
  destruct (sys op) as [e2|]; [left; by exists e2|right].
  destruct (sys (os.Write f data)) as [e3|]; [left; by exists e3|right].
  destruct (passes sys (os.Remove f)) eqn:Hr.
  - right. destruct (sys (os.TempfileCommit f)) as [e5|]; [left; by exists e5|right].
    done.
  - left. unfold passes in Hr. destruct (sys (os.Remove f)) as [e4|]; [|done].
    by exists e4.
Qed.

Ltac writeFile_cases dir name data :=
  let Hc := fresh "Hc" in
  pose proof (writeFileCalls_cases dir name data) as Hc; cbv zeta in Hc;
  destruct Hc
    as [(e & H1 & ->)|[(e & H1 & H2 & ->)|[(e & H1 & H2 & H3 & ->)
        |[(e & H1 & H2 & H3 & H4 & H4' & ->)|[(e & H1 & H2 & H3 & H4 & H5 & ->)
        |(H1 & H2 & H3 & H4 & H5 & ->)]]]]].

(** X15. [writeFile] reaches the rename exactly when every call before it
    went well, a [Remove] that found nothing to remove being passed over;
    it has then made seven calls: create the directory, open the
    temporary file, write, remove, commit, rename to [dir/name], close;
    and its result is the result of the rename. *)
Theorem writeFile_renames_iff_ready (dir name data : string) :
  let f := fileName dir (name +:+ ".tmp") in
  let final := slashpath.Join [dir; name] in
  (existsb isRename (writeFileCalls sys fileName dir name data).1 = true
   ↔ readyToRename sys fileName dir name data)
  ∧ (readyToRename sys fileName dir name data →
     writeFileCalls sys fileName dir name data
     = ([os.MkdirAll dir 493; os.TempfileOpen dir (name +:+ ".tmp") 420;
         os.Write f data; os.Remove f; os.TempfileCommit f;
         os.Rename f final; os.Close f],
        sys (os.Rename f final))).
Proof.
  cbv zeta. unfold readyToRename. rewrite <- passes_Remove.
  writeFile_cases dir name data; cbn [fst existsb isRename orb].
  - split; [split; [done|]|]; intros (? & _); congruence.
  - split; [split; [done|]|]; intros (_ & ? & _); congruence.
  - split; [split; [done|]|]; intros (_ & _ & ? & _); congruence.
  - assert (passes sys (os.Remove (fileName dir (name +:+ ".tmp"))) = false) as Hp
      by (unfold passes; by rewrite H4).
    split; [split; [done|]|]; intros (_ & _ & _ & ? & _); congruence.
  - split; [split; [done|]|]; intros (_ & _ & _ & _ & ?); congruence.
  - split; [split; done|done].
Qed.

(** X16. [writeFile] closes the temporary file exactly when it has opened
    it: on every path from a successful [tempfile.Open], failing or not,
    [Close] is the last call and is made once, on the file opened; when
    the directory cannot be made or the file cannot be opened nothing is
    closed. *)
Theorem writeFile_closes_what_it_opens (dir name data : string) :
  let f := fileName dir (name +:+ ".tmp") in
  let calls := (writeFileCalls sys fileName dir name data).1 in
  (existsb isClose calls = true
   ↔ sys (os.MkdirAll dir 493) = None
     ∧ sys (os.TempfileOpen dir (name +:+ ".tmp") 420) = None)
  ∧ (existsb isClose calls = true →
     ∃ earlier, calls = earlier ++ [os.Close f]
                ∧ existsb isClose earlier = false).
Proof.
  cbv zeta.
  writeFile_cases dir name data; cbn [fst existsb isClose orb].
  - split; [split; [done|]|done]. intros (? & _); congruence.
  - split; [split; [done|]|done]. intros (_ & ?); congruence.
  - split; [done|]. intros _. by eexists [_; _; _].
  - split; [done|]. intros _. by eexists [_; _; _; _].
  - split; [done|]. intros _. by eexists [_; _; _; _; _].
  - split; [done|]. intros _. by eexists [_; _; _; _; _; _].
Qed.

(** X17. [writeFile] stops at the first call that does not pass: every
    call before the last one that is not the closing [Close] has passed,
    the result is the error of that last call, or nil when it passed, and
    only a rename comes last and passes. *)
Theorem writeFile_stops_at_first_failure (dir name data : string) :
  let f := fileName dir (name +:+ ".tmp") in
  ∃ earlier c closing,
    (writeFileCalls sys fileName dir name data).1 = earlier ++ c :: closing
    ∧ forallb (passes sys) earlier = true
    ∧ isClose c = false
    ∧ (closing = [] ∨ closing = [os.Close f])
    ∧ (writeFileCalls sys fileName dir name data).2
      = (if passes sys c then None else sys c)
    ∧ (passes sys c = true → isRename c = true).
Proof.
  cbv zeta.
  assert (Hfail : ∀ c e, sys c = Some e →
            (∀ g, c ≠ os.Remove g) → passes sys c = false).
  { intros c e He Hc. unfold passes. rewrite He. destruct c; try done.
    by destruct (Hc path). }
  assert (Hpass : ∀ c, sys c = None → passes sys c = true).
  { intros c Hc. unfold passes. by rewrite Hc. }
  writeFile_cases dir name data; cbn [fst snd].
  - exists [], (os.MkdirAll dir 493), [].
    rewrite (Hfail _ _ H1) by done. rewrite H1. repeat split; auto; done.
  - exists [os.MkdirAll dir 493], (os.TempfileOpen dir (name +:+ ".tmp") 420), [].
    rewrite (Hfail _ _ H2) by done. rewrite H2. cbn [forallb]. rewrite (Hpass _ H1).
    repeat split; auto; done.
  - eexists [_; _], (os.Write (fileName dir (name +:+ ".tmp")) data), [_]. split; [reflexivity|].
    rewrite (Hfail _ _ H3) by done. rewrite H3. cbn [forallb].
    rewrite (Hpass _ H1), (Hpass _ H2). repeat split; auto; done.
  - eexists [_; _; _], (os.Remove (fileName dir (name +:+ ".tmp"))), [_]. split; [reflexivity|].
    assert (passes sys (os.Remove (fileName dir (name +:+ ".tmp"))) = false) as ->
      by (unfold passes; by rewrite H4).
    rewrite H4. cbn [forallb].
    rewrite (Hpass _ H1), (Hpass _ H2), (Hpass _ H3). repeat split; auto; done.
  - eexists [_; _; _; _], (os.TempfileCommit (fileName dir (name +:+ ".tmp"))), [_]. split; [reflexivity|].
    rewrite (Hfail _ _ H5) by done. rewrite H5. cbn [forallb].
    rewrite (Hpass _ H1), (Hpass _ H2), (Hpass _ H3), H4. repeat split; auto; done.
  - eexists [_; _; _; _; _], (os.Rename (fileName dir (name +:+ ".tmp")) (slashpath.Join [dir; name])), [_].
    split; [reflexivity|]. cbn [forallb].
    rewrite (Hpass _ H1), (Hpass _ H2), (Hpass _ H3), H4, (Hpass _ H5).
    split; [done|]. split; [done|]. split; [by right|]. split; [|done].
    unfold passes. by destruct (sys (os.Rename (fileName dir (name +:+ ".tmp")) (slashpath.Join [dir; name]))).
Qed.

Lemma writeErrorOf_None (dir name data : string) :
  writeErrorOf sys fileName dir name data = None
  ↔ readyToRename sys fileName dir name data
    ∧ sys (os.Rename (fileName dir (name +:+ ".tmp")) (slashpath.Join [dir; name]))
      = None.
Proof.
  unfold writeErrorOf, readyToRename. rewrite <- passes_Remove, fmap_None.
  writeFile_cases dir name data; cbn [snd].
  - split; [done|]. intros ((? & _) & _); congruence.
  - split; [done|]. intros ((_ & ? & _) & _); congruence.
  - split; [done|]. intros ((_ & _ & ? & _) & _); congruence.
  - assert (passes sys (os.Remove (fileName dir (name +:+ ".tmp"))) = false) as Hp
      by (unfold passes; by rewrite H4).
    split; [done|]. intros ((_ & _ & _ & ? & _) & _); congruence.
  - split; [done|]. intros ((_ & _ & _ & _ & ?) & _); congruence.
  - split; [by intros ->|by intros [_ ->]].
Qed.

End WriteFileProperties.

(** ** Descriptors and renames *)

Lemma emitModule_wrote
    (isPrintWide : Z → bool) (hashDir : string → string + string)
    (writeError : string → string → string → option string) (ro : RangeOrder)
    (m : Mod.t) (tr : list Event) (dir name data : string) :
  Wrote dir name data ∈ (emitModule isPrintWide hashDir writeError ro m tr).2 →
  Wrote dir name data ∈ tr
  ∨ (name = "default.nix" ∧ writeError dir name data = None).
Proof.
  unfold emitModule.
  destruct (negb (Mod.IsExternal m)); [by left|].
  destruct (negb (String.eqb (Mod.ReplacePath m) "")
            && strings.HasPrefix (Mod.ReplacePath m) ".").
  { destruct (negb _); by left. }
  unfold iobind, Execute, iobind, ModSHA256.
  destruct (String.eqb (Mod.Dir m) ""); [by left|].
  unfold iobind, emit, ret, fail, writeFile.
  destruct (hashDir (Mod.Dir m)) as [digest|err]; simpl.
  2:{ rewrite elem_of_app, list_elem_of_singleton. intros [?|?]; [by left|done]. }
  destruct (writeError _ _ _) eqn:Hw; simpl.
  - rewrite elem_of_app, list_elem_of_singleton. intros [?|?]; [by left|done].
  - rewrite !elem_of_app, !list_elem_of_singleton.
    intros [[?|?]|[= -> -> ->]]; [by left|done|by right].
Qed.

Lemma emitLoop_wrote
    (isPrintWide : Z → bool) (hashDir : string → string + string)
    (writeError : string → string → string → option string) (ro : RangeOrder)
    (st : Registry) (paths : list Path) (tr : list Event) (dir name data : string) :
  Wrote dir name data ∈ (emitLoop isPrintWide hashDir writeError ro st paths tr).2 →
  Wrote dir name data ∈ tr
  ∨ (name = "default.nix" ∧ writeError dir name data = None).
Proof.
  revert tr. induction paths as [|p rest IH]; intros tr; cbn [emitLoop].
  { by left. }
  destruct (modules st !! p ≫= (λ a, heap st !! a)) as [m|]; [|by left].
  unfold iobind.
  pose proof (emitModule_wrote isPrintWide hashDir writeError ro m tr dir name data) as Hm.
  destruct (emitModule isPrintWide hashDir writeError ro m tr) as [[[]|f] tr1];
    simpl in *; [|done].
  intros [H|H]%IH; [by apply Hm|by right].
Qed.

(** X18. A descriptor counts as written only after its rename: whenever a
    run records that a file was written, the file is a default.nix, every
    call of [writeFile] before the rename went well (a [Remove] that found
    nothing apart) and the rename into place returned no error. *)
Theorem descriptor_written_only_after_rename
    (isPrintWide : Z → bool) (hashDir : string → string + string)
    (ro : RangeOrder) (sys : os.Call → option os.Error)
    (fileName : string → string → string)
    (visited : list Package) (dir name data : string) :
  Wrote dir name data
    ∈ (run isPrintWide hashDir (writeErrorOf sys fileName) ro visited).2 →
  name = "default.nix"
  ∧ readyToRename sys fileName dir name data
  ∧ sys (os.Rename (fileName dir (name +:+ ".tmp")) (slashpath.Join [dir; name]))
    = None.
Proof.
  unfold run, emitAll. destruct (walk visited emptyRegistry) as [st|f]; cbn [snd].
  2:{ by intros ?%elem_of_nil. }
  intros [?%elem_of_nil|[-> H]]%emitLoop_wrote; [done|].
  split; [done|]. by apply writeErrorOf_None.
Qed.

Lemma descriptor_written_only_after_rename_witness :
  ∃ dir name data,
    Wrote dir name data
      ∈ (run sample.isPrintWide sample.hashDir
             (writeErrorOf calls.sys calls.fileName) sample.inOrder
             [sample.barX]).2
    ∧ readyToRename calls.sys calls.fileName dir name data.
Proof.
  assert (∃ dir data,
    (run sample.isPrintWide sample.hashDir
       (writeErrorOf calls.sys calls.fileName) sample.inOrder [sample.barX]).2
    = [Hashed "/gomod/bar"; Wrote dir "default.nix" data]) as (dir & data & Htr).
  { eexists _, _. vm_compute. reflexivity. }
  exists dir, "default.nix", data.
  assert (Wrote dir "default.nix" data
            ∈ (run sample.isPrintWide sample.hashDir
                 (writeErrorOf calls.sys calls.fileName) sample.inOrder
                 [sample.barX]).2) as Hin.
  { rewrite Htr. apply list_elem_of_further, list_elem_of_here. }
  split; [exact Hin|].
  exact (proj1 (proj2 (descriptor_written_only_after_rename _ _ _ _ _ _ _ _ _ Hin))).
Defined.

(** ** The walk in the order of [packages.Visit] *)

Lemma accepted_of_post (pkg : Package) (st st' : Registry) :
  post pkg st = Ok st' → accepted pkg = true.
Proof.
  unfold post, accepted. destruct (isBuiltin pkg); [done|].
  destruct (pkgErrors pkg); [|done]. cbn [orb].
  rewrite bool_decide_eq_true_2 by done. cbn [andb].
  destruct (packages.Module_ pkg); [done|].
  destruct (String.eqb _ _ && _); [done|].
  by destruct (strings.HasSuffix _ "_test").
Qed.

Lemma rejected_post (pkg : Package) (st : Registry) :
  accepted pkg = false →
  ∃ f, post pkg st = Fail f ∧ f ≠ PanicNilDereference.
Proof.
  unfold post, accepted. destruct (isBuiltin pkg); [done|]. cbn [orb].
  destruct (pkgErrors pkg) as [|e errs]; [|by eauto].
  rewrite bool_decide_eq_true_2 by done. cbn [andb].
  destruct (packages.Module_ pkg); [done|].
  destruct (String.eqb _ _ && _); [done|]. cbn [orb].
  destruct (strings.HasSuffix _ "_test"); [done|]. by eauto.
Qed.

Lemma accepted_post (before : list Package) (pkg : Package) (st : Registry) :
  walk before emptyRegistry = Ok st →
  accepted pkg = true →
  (∀ k d, isBuiltin pkg = false → (k, d) ∈ packages.Imports pkg → d ∈ before) →
  (∀ pm k d, pkgModule pkg = Some pm → (k, d) ∈ packages.Imports pkg →
             isBuiltin d = false → is_Some (packages.Module_ d)) →
  ∃ st', post pkg st = Ok st'.
Proof.
  intros Hw Hacc Hord Hmods. pose proof (walk_Represents _ _ Hw) as HR.
  unfold post. unfold accepted in Hacc.
  destruct (isBuiltin pkg) eqn:Hb; [by eauto|]. cbn [orb] in Hacc.
  apply andb_true_iff in Hacc as [He%bool_decide_eq_true Hacc]. rewrite He.
  destruct (packages.Module_ pkg) as [pm|] eqn:Hpm.
  2:{ destruct (String.eqb _ _ && _); [by eauto|]. cbn [orb] in Hacc.
      rewrite Hacc. by eauto. }
  assert (Hpm' : pkgModule pkg = Some pm) by (unfold pkgModule; by rewrite Hb).
  destruct (Represents_resolveModule _ _ pm _ HR) as [HR1 (m & Hm & _)].
  destruct (importLoop_resolved _ _ _ _ (packages.Imports pkg) _ HR1 Hm)
    as [st' Hst'].
  { intros k dep Hin Hbd.
    destruct (Hmods pm k dep Hpm' Hin Hbd) as [dm Hdm]. exists dm. split; [done|].
    apply resolveModule_modules. right.
    apply (rep_dom _ _ _ HR). exists dm. split; [|done].
    apply elem_of_modulesOf. exists dep.
    split; [by eapply Hord|]. unfold pkgModule. by rewrite Hbd. }
  destruct (resolveModule pm st). by eauto.
Qed.

Lemma walk_in_postorder (rest before : list Package) (st : Registry) :
  PostOrdered (before ++ rest) → ImportsHaveModules (before ++ rest) →
  walk before emptyRegistry = Ok st →
  (forallb accepted rest = true → ∃ st', walk rest st = Ok st')
  ∧ walk rest st ≠ Fail PanicNilDereference.
Proof.
  revert before st. induction rest as [|pkg rest IH]; intros before st Hord Hmods Hw.
  { cbn [walk]. split; [by eauto|done]. }
  cbn [walk forallb]. destruct (accepted pkg) eqn:Hacc.
  - destruct (accepted_post before pkg st Hw Hacc) as [st1 Hst1].
    { intros k d Hb Hin. by eapply (Hord before pkg rest). }
    { intros pm k d Hpm Hin Hb. eapply (Hmods pkg); [|done..].
      apply elem_of_app. right. by left. }
    rewrite Hst1. cbn [bind andb]. apply (IH (before ++ [pkg])).
    + by rewrite <- app_assoc.
    + by rewrite <- app_assoc.
    + rewrite walk_app, Hw. cbn [bind walk]. by rewrite Hst1.
  - destruct (rejected_post pkg st Hacc) as (f & -> & Hf). cbn [bind andb].
    split; [done|congruence].
Qed.

Lemma walk_accepts (visited : list Package) (st st' : Registry) :
  walk visited st = Ok st' → forallb accepted visited = true.
Proof.
  revert st. induction visited as [|pkg rest IH]; intros st; cbn [walk forallb]; [done|].
  destruct (post pkg st) as [st1|] eqn:E; cbn [bind]; [|done].
  intros Hw. rewrite (accepted_of_post _ _ _ E). by eapply IH.
Qed.

(** X19. In the order of [packages.Visit], where a package comes after the
    packages it imports, and when every import that is not builtin has a
    module, the walk never dereferences a nil pointer, and it completes
    exactly when every visited package is acceptable on its own: builtin,
    or free of errors and either with a module or one of the test
    packages that come without. *)
Theorem postorder_walk_completes (visited : list Package) :
  PostOrdered visited → ImportsHaveModules visited →
  ((∃ st, walk visited emptyRegistry = Ok st) ↔ forallb accepted visited = true)
  ∧ walk visited emptyRegistry ≠ Fail PanicNilDereference.
Proof.
  intros Hord Hmods.
  destruct (walk_in_postorder visited [] emptyRegistry Hord Hmods eq_refl)
    as [Hok Hnil].
  split; [|done]. split; [|done]. intros [st Hst]. by eapply walk_accepts.
Qed.

Lemma order_PostOrdered : PostOrdered visits.order.
Proof.
  intros l1 p l2 k d Heq Hb Hin. unfold visits.order in Heq.
  destruct l1 as [|a [|b [|c [|e l1]]]]; simplify_eq/=; try (by destruct l1);
    repeat (apply elem_of_cons in Hin as [[= -> ->]|Hin]);
    try (by apply elem_of_nil in Hin);
    repeat first [apply list_elem_of_here|apply list_elem_of_further].
Qed.

Lemma order_ImportsHaveModules : ImportsHaveModules visits.order.
Proof.
  intros p pm k d Hp Hpm Hin Hb. unfold visits.order in Hp.
  repeat (apply elem_of_cons in Hp as [->|Hp]); [..|by apply elem_of_nil in Hp];
    simpl in Hin;
    repeat (apply elem_of_cons in Hin as [[= -> ->]|Hin]);
    try (by apply elem_of_nil in Hin); try done; by eauto.
Qed.

Lemma postorder_walk_completes_witness :
  PostOrdered visits.order ∧ ImportsHaveModules visits.order
  ∧ walk visits.order emptyRegistry ≠ Fail PanicNilDereference.
Proof.
  split; [exact order_PostOrdered|]. split; [exact order_ImportsHaveModules|].
  exact (proj2 (postorder_walk_completes visits.order
                  order_PostOrdered order_ImportsHaveModules)).
Defined.

(** ** The whole program *)

Section MainProperties.

Variable isPrintWide : Z → bool.
Variable hashDir : string → string + string.
Variable writeError : string → string → string → option string.
Variable ro : RangeOrder.
Variable args : list string.
Variable stat : string → option os.Error.
Variable load : Config → list string → list Package + string.
Variable Visit : list Package → list Package.

(** X20. [main] hashes or writes something only when it was given no
    argument, [.git] was not found missing, both loads succeeded, and the
    walk over all the packages visited completed: every one of them is
    builtin, or free of errors and with a module or one of the test
    packages without. One package with an error anywhere in the graph and
    no descriptor is touched. *)
Theorem main_output_needs_clean_graph :
  (main isPrintWide hashDir writeError ro args stat load Visit).2 ≠ [] →
  (length args ≤ 1)%nat
  ∧ isNotExist (stat ".git") = false
  ∧ ∃ tools pkgs st,
      load toolsConfig ["./tools"] = inl tools
      ∧ load graphConfig ("./..." :: (tools ≫= λ pkg, (packages.Imports pkg).*1))
        = inl pkgs
      ∧ walk (Visit pkgs) emptyRegistry = Ok st
      ∧ forallb accepted (Visit pkgs) = true.
Proof.
  unfold main. destruct (1 <? length args)%nat eqn:Ha; [done|].
  apply Nat.ltb_ge in Ha. destruct (isNotExist (stat ".git")); [done|].
  destruct (load toolsConfig ["./tools"]) as [tools|err]; [|done].
  unfold rootsOf. destruct (load graphConfig _) as [pkgs|err] eqn:Hg; [|done].
  unfold run. destruct (walk (Visit pkgs) emptyRegistry) as [st|f] eqn:Hw; [|done].
  intros _. split; [done|]. split; [done|]. exists tools, pkgs, st.
  split; [done|]. split; [done|]. split; [done|]. by eapply walk_accepts.
Qed.

(** X21. Only a missing [.git] stops [main]: when [os.Stat] fails with
    any other error, [main] goes on as if it had succeeded. *)
Theorem main_ignores_other_stat_errors (err : os.Error) :
  stat ".git" = Some err → os.IsNotExist err = false →
  main isPrintWide hashDir writeError ro args stat load Visit
  = main isPrintWide hashDir writeError ro args (λ _, None) load Visit.
Proof. intros Hs He. unfold main, isNotExist. by rewrite Hs, He. Qed.

End MainProperties.

Lemma post_not_Exit1 (pkg : Package) (st : Registry) (f : Failure) :
  post pkg st = Fail f → isExit1 f = false.
Proof.
  unfold post. destruct (isBuiltin pkg); [done|].
  destruct (pkgErrors pkg); [|by intros [= <-]].
  destruct (packages.Module_ pkg) as [pm|].
  2:{ destruct (_ && _); [done|]. destruct (strings.HasSuffix _ "_test"); [done|].
      by intros [= <-]. }
  destruct (resolveModule pm st) as [a st1]. generalize st1.
  induction (packages.Imports pkg) as [|[k dep] rest IH]; intros st2;
    cbn [importLoop]; [done|].
  destruct (addImport a dep st2) as [st3|f'] eqn:E; cbn [bind]; [apply IH|].
  intros [= <-]. unfold addImport in E. by repeat case_match; simplify_eq.
Qed.

Lemma walk_not_Exit1 (visited : list Package) (st : Registry) (f : Failure) :
  walk visited st = Fail f → isExit1 f = false.
Proof.
  revert st. induction visited as [|pkg rest IH]; intros st; cbn [walk]; [done|].
  destruct (post pkg st) as [st1|f'] eqn:E; cbn [bind]; [apply IH|].
  intros [= <-]. by eapply post_not_Exit1.
Qed.

Lemma emitModule_Exit1
    (isPrintWide : Z → bool) (hashDir : string → string + string)
    (writeError : string → string → string → option string) (ro : RangeOrder)
    (m : Mod.t) (tr : list Event) (msg : string) :
  (emitModule isPrintWide hashDir writeError ro m tr).1 = Fail (Exit1 msg) →
  Mod.IsExternal m = true ∧ isLocalReplace m = true
  ∧ Mod.ReplacePath m ≠ "./" +:+ outDirOf m ∧ msg = misplacedReplace m.
Proof.
  unfold emitModule, isLocalReplace, misplacedReplace, outDirOf.
  destruct (Mod.IsExternal m); [|done]. cbn [negb].
  destruct (negb (String.eqb (Mod.ReplacePath m) "")
            && strings.HasPrefix (Mod.ReplacePath m) ".").
  { destruct (String.eqb (Mod.ReplacePath m) _) eqn:E; [done|]. cbn [negb].
    apply String.eqb_neq in E. by intros [= <-]. }
  unfold iobind, Execute, iobind, ModSHA256.
  destruct (String.eqb (Mod.Dir m) ""); [done|].
  unfold iobind, emit, ret, fail, writeFile.
  destruct (hashDir (Mod.Dir m)) as [digest|err]; [|done].
  by destruct (writeError _ _ _).
Qed.

Lemma emitLoop_Exit1
    (isPrintWide : Z → bool) (hashDir : string → string + string)
    (writeError : string → string → string → option string) (ro : RangeOrder)
    (st : Registry) (paths : list Path) (tr : list Event) (msg : string) :
  (emitLoop isPrintWide hashDir writeError ro st paths tr).1 = Fail (Exit1 msg) →
  ∃ p a m, p ∈ paths ∧ modules st !! p = Some a ∧ heap st !! a = Some m
           ∧ Mod.IsExternal m = true ∧ isLocalReplace m = true
           ∧ Mod.ReplacePath m ≠ "./" +:+ outDirOf m
           ∧ msg = misplacedReplace m.
Proof.
  revert tr. induction paths as [|p rest IH]; intros tr; cbn [emitLoop]; [done|].
  destruct (modules st !! p) as [a|] eqn:Hp; cbn [mbind option_bind]; [|done].
  destruct (heap st !! a) as [m|] eqn:Ha; [|done].
  unfold iobind.
  pose proof (emitModule_Exit1 isPrintWide hashDir writeError ro m tr msg) as Hm.
  destruct (emitModule isPrintWide hashDir writeError ro m tr) as [[[]|f] tr1];
    simpl in *.
  - intros (q & b & n & Hq & H)%IH. exists q, b, n. split; [by right|done].
  - intros [= ->]. destruct (Hm eq_refl) as (? & ? & ? & ?).
    exists p, a, m. split; [by left|done].
Qed.

(** X22. [main] ends with exit status 1 in three cases only, each with
    its own diagnostic: it was given an argument; [.git] is missing; or,
    both loads and the walk having completed, a registered external module
    has a local replace path at another place than the conventional one.
    Every other failure is a panic. *)
Theorem main_exit_status_1
    (isPrintWide : Z → bool) (hashDir : string → string + string)
    (writeError : string → string → string → option string) (ro : RangeOrder)
    (args : list string) (stat : string → option os.Error)
    (load : Config → list string → list Package + string)
    (Visit : list Package → list Package) (msg : string) :
  (main isPrintWide hashDir writeError ro args stat load Visit).1
    = Fail (Exit1 msg) →
  ((1 < length args)%nat ∧ msg = "mud takes no arguments" +:+ nl)
  ∨ ((length args ≤ 1)%nat ∧ isNotExist (stat ".git") = true
     ∧ msg = "mud must be run from the repository root" +:+ nl)
  ∨ ((length args ≤ 1)%nat ∧ isNotExist (stat ".git") = false
     ∧ ∃ tools pkgs st p a m,
         load toolsConfig ["./tools"] = inl tools
         ∧ load graphConfig (rootsOf tools) = inl pkgs
         ∧ walk (Visit pkgs) emptyRegistry = Ok st
         ∧ modules st !! p = Some a ∧ heap st !! a = Some m
         ∧ Mod.IsExternal m = true ∧ isLocalReplace m = true
         ∧ Mod.ReplacePath m ≠ "./" +:+ outDirOf m
         ∧ msg = misplacedReplace m).
Proof.
  unfold main. destruct (1 <? length args)%nat eqn:Ha; cbn [fst].
  { apply Nat.ltb_lt in Ha. intros [= <-]. by left. }
  apply Nat.ltb_ge in Ha.
  destruct (isNotExist (stat ".git")); cbn [fst];
    [intros [= <-]; right; by left|].
  destruct (load toolsConfig ["./tools"]) as [tools|err]; [|done].
  destruct (load graphConfig _) as [pkgs|err] eqn:Hg; [|done].
  unfold run. destruct (walk (Visit pkgs) emptyRegistry) as [st|f] eqn:Hw.
  2:{ cbn [fst]. intros [= ->]. by apply walk_not_Exit1 in Hw. }
  unfold emitAll.
  intros (p & a & m & _ & Hp & Hm & Hext & Hloc & Hne & ->)%emitLoop_Exit1.
  right. right. split; [done|]. split; [done|].
  by exists tools, pkgs, st, p, a, m.
Qed.

Lemma main_exit_status_1_witness :
  ∃ msg,
    (main sample.isPrintWide sample.hashDir sample.writeError sample.inOrder
       ["mud"; "--help"] runs.denied runs.load runs.Visit).1 = Fail (Exit1 msg)
    ∧ msg = "mud takes no arguments" +:+ nl.
Proof.
  exists ("mud takes no arguments" +:+ nl). split; [reflexivity|].
  destruct (main_exit_status_1 sample.isPrintWide sample.hashDir
              sample.writeError sample.inOrder ["mud"; "--help"] runs.denied
              runs.load runs.Visit _ eq_refl)
    as [[_ H]|[(Hl & _)|(Hl & _)]]; [exact H|simpl in Hl; lia..].
Defined.

Lemma main_output_needs_clean_graph_witness :
  (main sample.isPrintWide sample.hashDir sample.writeError sample.inOrder
     ["mud"] runs.denied runs.load runs.Visit).2 ≠ []
  ∧ ∃ tools pkgs st,
      runs.load toolsConfig ["./tools"] = inl tools
      ∧ runs.load graphConfig
          ("./..." :: (tools ≫= λ pkg, (packages.Imports pkg).*1)) = inl pkgs
      ∧ walk (runs.Visit pkgs) emptyRegistry = Ok st
      ∧ forallb accepted (runs.Visit pkgs) = true.
Proof.
  assert ((main sample.isPrintWide sample.hashDir sample.writeError
             sample.inOrder ["mud"] runs.denied runs.load runs.Visit).2 ≠ [])
    as Hne by (vm_compute; discriminate).
  split; [exact Hne|].
  exact (proj2 (proj2 (main_output_needs_clean_graph sample.isPrintWide
                         sample.hashDir sample.writeError sample.inOrder
                         ["mud"] runs.denied runs.load runs.Visit Hne))).
Defined.

Lemma main_ignores_other_stat_errors_witness :
  runs.denied ".git" = Some (os.mkError false "permission denied")
  ∧ main sample.isPrintWide sample.hashDir sample.writeError sample.inOrder
      ["mud"] runs.denied runs.load runs.Visit
    = main sample.isPrintWide sample.hashDir sample.writeError sample.inOrder
        ["mud"] (λ _, None) runs.load runs.Visit.
Proof.
  split; [reflexivity|].
  by apply (main_ignores_other_stat_errors sample.isPrintWide sample.hashDir
              sample.writeError sample.inOrder ["mud"] runs.denied runs.load
              runs.Visit (os.mkError false "permission denied")).
Defined.
